(** * Pehnawa: photographic post-processing (colour correction and watermark)

    A shallow embedding of [services/colorCorrectionService.ts] and
    [services/watermarkService.ts].

    JavaScript numbers are IEEE-754 binary64 values; they are modelled by
    [spec_float] with the binary64 operations of the Standard Library
    ([prec = 53], [emax = 1024]), which compute inside Rocq.  [Math.pow] is
    left to the engine by ECMAScript ("implementation-approximated"), so the
    functions that call it take it as a parameter. *)

From Stdlib Require Import String ZArith List Bool Lia.
From Stdlib Require Import SpecFloat.
Import ListNotations.

Local Open Scope Z_scope.

(** ** JavaScript numbers *)

Module JS.

Definition number := spec_float.

Definition prec : Z := 53.
Definition emax : Z := 1024.

Definition NaN : number := S754_nan.
Definition add : number -> number -> number := SFadd prec emax.
Definition sub : number -> number -> number := SFsub prec emax.
Definition mul : number -> number -> number := SFmul prec emax.
Definition div : number -> number -> number := SFdiv prec emax.
(** [x < y] and [x > y]; both are false as soon as one side is NaN. *)
Definition lt (x y : number) : bool := SFltb x y.
Definition gt (x y : number) : bool := SFltb y x.
Definition le (x y : number) : bool := SFleb x y.

(** The number denoted by an integer literal, or read from a byte. *)
Definition ofZ (z : Z) : number := binary_normalize prec emax z 0 false.

(** A decimal literal [n / d] (for instance [0.15] is [dec 15 100]): the
    literal denotes the double nearest to the decimal value, which is what the
    correctly rounded quotient of the two exactly representable integers is. *)
Definition dec (n d : Z) : number := div (ofZ n) (ofZ d).

Definition is_nan (x : number) : bool :=
  match x with S754_nan => true | _ => false end.

(** [Math.max(a, b)] and [Math.min(a, b)]: NaN if either is NaN, and [+0] is
    larger than [-0]. *)
Definition Math_max (a b : number) : number :=
  match a, b with
  | S754_nan, _ | _, S754_nan => S754_nan
  | S754_zero true, S754_zero false => b
  | _, _ => if lt a b then b else a
  end.

Definition Math_min (a b : number) : number :=
  match a, b with
  | S754_nan, _ | _, S754_nan => S754_nan
  | S754_zero false, S754_zero true => b
  | _, _ => if lt b a then b else a
  end.

Definition Math_abs : number -> number := SFabs.
Definition Math_sqrt : number -> number := SFsqrt prec emax.

(** [Math.round(x)] is the integer [floor(x + 1/2)], computed exactly; a
    result of zero keeps the sign of [x].  A double whose exponent is not
    negative is an integer already. *)
Definition Math_round (x : number) : number :=
  match x with
  | S754_finite s m e =>
      if 0 <=? e then x
      else
        let n := Z.shiftr (2 * cond_Zopp s (Zpos m) + Z.shiftl 1 (- e)) (1 - e) in
        if n =? 0 then S754_zero s else ofZ n
  | _ => x
  end.

(** [Math.floor(x)]. *)
Definition Math_floor (x : number) : number :=
  match x with
  | S754_finite s m e =>
      if 0 <=? e then x
      else
        let n := Z.shiftr (cond_Zopp s (Zpos m)) (- e) in
        if n =? 0 then S754_zero s else ofZ n
  | _ => x
  end.

(** Storing a number into a [Uint8ClampedArray] (ToUint8Clamp): NaN becomes
    0, the value is clamped to [0, 255] and rounded to the nearest integer,
    ties to even. *)
Definition ToUint8Clamp (x : number) : Z :=
  match x with
  | S754_nan => 0
  | S754_zero _ => 0
  | S754_infinity s => if s then 0 else 255
  | S754_finite true _ _ => 0
  | S754_finite false m e =>
      if 0 <=? e then Z.min 255 (Z.shiftl (Zpos m) e)
      else
        let f := Z.shiftr (Zpos m) (- e) in
        let rest := Z.land (Zpos m) (Z.ones (- e)) in
        let up :=
          match rest ?= Z.shiftl 1 (- e - 1) with
          | Lt => false
          | Eq => Z.odd f
          | Gt => true
          end in
        Z.min 255 (if up then f + 1 else f)
  end.

End JS.

(** ** Reading a number *)

Module JSOrder.
Import JS.

(** A number that is not NaN carries a sign. *)
Definition signOf (x : number) : option bool :=
  match x with
  | S754_nan => None
  | S754_zero s | S754_infinity s | S754_finite s _ _ => Some s
  end.

(** Neither NaN nor an infinity. *)
Definition is_finite (x : number) : bool :=
  match x with
  | S754_zero _ | S754_finite _ _ _ => true
  | _ => false
  end.

(** [lo <= x && x <= hi]. *)
Definition within (lo hi x : number) : bool := le lo x && le x hi.

End JSOrder.

(** ** A reference [Math.pow]

    ECMAScript fixes [Math.pow] on the special values and leaves the general
    case to the engine.  [pow_ref] follows the special cases to the letter
    and, in the general case, returns the double nearest to the power: exactly
    for a small positive integer exponent, and otherwise from [2^(y * log2 x)]
    evaluated in fixed point with [fracBits] fractional bits.  It is used to
    run the model; the general theorems do not depend on it. *)

Module PowRef.
Import JS.

Definition fracBits : Z := 256.
Definition one : Z := Z.shiftl 1 fracBits.

Definition fmul (a b : Z) : Z := Z.shiftr (a * b) fracBits.
Definition fdiv (a b : Z) : Z := Z.shiftl a fracBits / b.

(** [s + s^3/3 + s^5/5 + ...], [n] terms; [term] is the current odd power. *)
Fixpoint atanh_series (n : nat) (s2 term k : Z) : Z :=
  match n with
  | O => 0
  | S n' => term / k + atanh_series n' s2 (fmul term s2) (k + 2)
  end.

(** Natural logarithm of a fixed-point [u] in [1, 2]. *)
Definition ln_fp (u : Z) : Z :=
  let s := fdiv (u - one) (u + one) in
  2 * atanh_series 100 (fmul s s) s 1.

Definition ln2 : Z := Eval vm_compute in ln_fp (2 * one).

(** [1 + w + w^2/2! + ...], [n] terms. *)
Fixpoint exp_series (n : nat) (w term i : Z) : Z :=
  match n with
  | O => 0
  | S n' => term + exp_series n' w (fmul term w / i) (i + 1)
  end.

(** [log2 (m * 2^e)] in fixed point. *)
Definition log2_fp (m : positive) (e : Z) : Z :=
  let d := Zpos (digits2_pos m) in
  let u := Z.shiftl (Zpos m) (fracBits - (d - 1)) in
  (e + d - 1) * one + fdiv (ln_fp u) ln2.

(** The double nearest to [2^(t / 2^fracBits)]. *)
Definition exp2_fp (t : Z) : number :=
  let k := Z.shiftr t fracBits in
  let f := t - Z.shiftl k fracBits in
  if 1100 <? k then S754_infinity false
  else if k <? -1200 then S754_zero false
  else binary_normalize prec emax (exp_series 80 (fmul f ln2) one 1) (k - fracBits) false.

Definition is_integer (m : positive) (e : Z) : bool :=
  (0 <=? e) || (Z.land (Zpos m) (Z.ones (- e)) =? 0).

Definition is_odd_integer (m : positive) (e : Z) : bool :=
  if 0 <=? e then (e =? 0) && Z.odd (Zpos m)
  else is_integer m e && Z.odd (Z.shiftr (Zpos m) (- e)).

Definition negate_if (b : bool) (x : number) : number := if b then SFopp x else x.

(** [x^y] for finite nonzero [x = (-1)^sx * mx * 2^ex] and finite nonzero
    [y = (-1)^sy * my * 2^ey]. *)
Definition pow_finite (sx : bool) (mx : positive) (ex : Z)
    (sy : bool) (my : positive) (ey : Z) : number :=
  if sx && negb (is_integer my ey) then NaN
  else
    let neg := sx && is_odd_integer my ey in
    let n := Z.shiftl (Zpos my) ey in
    if negb sy && is_integer my ey && (ey <=? 6) && (n <=? 64) then
      negate_if neg (binary_normalize prec emax (Zpos mx ^ n) (ex * n) false)
    else
      negate_if neg
        (exp2_fp (Z.shiftl (cond_Zopp sy (Zpos my) * log2_fp mx ex) ey)).

Definition pow_ref (base exponent : number) : number :=
  match exponent with
  | S754_nan => NaN
  | S754_zero _ => ofZ 1
  | S754_infinity sy =>
      match base with
      | S754_nan => NaN
      | _ =>
          match SFcompare (SFabs base) (ofZ 1) with
          | Some Gt => if sy then S754_zero false else S754_infinity false
          | Some Lt => if sy then S754_infinity false else S754_zero false
          | _ => NaN
          end
      end
  | S754_finite sy my ey =>
      match base with
      | S754_nan => NaN
      | S754_infinity sx =>
          let neg := sx && is_odd_integer my ey in
          if sy then S754_zero neg else S754_infinity neg
      | S754_zero sx =>
          let neg := sx && is_odd_integer my ey in
          if sy then S754_infinity neg else S754_zero neg
      | S754_finite sx mx ex => pow_finite sx mx ex sy my ey
      end
  end.

End PowRef.

(** ** Bitmaps *)

(** An [ImageData]: [data] is the [Uint8ClampedArray] of the bitmap, four
    bytes (R, G, B, A) per pixel in row-major order.  The platform only
    builds images with [length data = 4 * width * height]; the loops of both
    services advance four indices at a time and so meet whole pixels only. *)
Record ImageData := { width : Z; height : Z; data : list Z }.

Definition byte (v : Z) : Prop := 0 <= v <= 255.

(** The pixels of a data array, as the loops read it. *)
Fixpoint pixelsOf (d : list Z) : list (Z * Z * Z * Z) :=
  match d with
  | r :: g :: b :: a :: rest => (r, g, b, a) :: pixelsOf rest
  | _ => []
  end.

Definition whole_pixels (d : list Z) : Prop :=
  exists n : nat, length d = (4 * n)%nat.

(** The colour of a pixel, without its alpha. *)
Definition rgbOf (px : Z * Z * Z * Z) : Z * Z * Z :=
  let '(r, g, b, _) := px in (r, g, b).

(** A bitmap all of whose pixels have R = G = B. *)
Definition grayPixel (px : Z * Z * Z * Z) : Prop :=
  let '(r, g, b, _) := px in r = g /\ g = b.

Definition gray (d : list Z) : Prop := Forall grayPixel (pixelsOf d).

(** A bitmap all of whose pixels have R = G = B = 0. *)
Definition blackPixel (px : Z * Z * Z * Z) : Prop :=
  let '(r, g, b, _) := px in r = 0 /\ g = 0 /\ b = 0.

Definition black (d : list Z) : Prop := Forall blackPixel (pixelsOf d).

(** The 256 values an element of a [Uint8ClampedArray] can take. *)
Definition bytes255 : list Z := map Z.of_nat (seq 0 256).

(** ** Files *)

(** What a [File] holds: the bytes it was uploaded with, or the blob that
    [canvas.toBlob] made of a bitmap for a requested type and quality (the
    encoder is the browser's). *)
Inductive content : Type :=
| Uploaded (bytes : list Z)
| Encoded (bitmap : ImageData) (mimeType : string) (quality : JS.number).

Record File : Type := { name : string; type : string; body : content }.

(** [s || d] on strings: the empty string is falsy. *)
Definition orElse (s d : string) : string :=
  match s with EmptyString => d | _ => s end.

(** ** Promises *)

(** A promise is pending until it is settled once; later calls of [resolve]
    or [reject] have no effect. *)
Inductive settlement (A : Type) : Type :=
| Pending
| Resolved (value : A)
| Rejected (reason : string).
Arguments Pending {A}.
Arguments Resolved {A} value.
Arguments Rejected {A} reason.

Definition settle {A : Type} (now : settlement A) (p : settlement A) : settlement A :=
  match p with Pending => now | _ => p end.

(** ** services/colorCorrectionService.ts *)

Module ColorCorrection.
Import JS.

Definition SHADES_OF_GRAY_NORM : number := ofZ 6.

Definition maxCorrection : number := dec 15 10.
Definition minCorrection : number := dec 6 10.

(** The right-hand side stored by the second loop of [applyShadesOfGray]:
    [Math.min(255, Math.max(0, Math.round(data[i] * clampedScale)))], as it
    lands in the clamped byte array. *)
Definition correctedChannel (v : Z) (clampedScale : number) : Z :=
  ToUint8Clamp
    (Math_min (ofZ 255) (Math_max (ofZ 0) (Math_round (mul (ofZ v) clampedScale)))).

(** "Apply correction to each pixel". *)
Fixpoint correctPixels (clampedScaleR clampedScaleG clampedScaleB : number)
    (d : list Z) : list Z :=
  match d with
  | r :: g :: b :: a :: rest =>
      correctedChannel r clampedScaleR
        :: correctedChannel g clampedScaleG
        :: correctedChannel b clampedScaleB
        :: a (* alpha channel remains unchanged *)
        :: correctPixels clampedScaleR clampedScaleG clampedScaleB rest
  | _ => d
  end.

(** [Math.max(minCorrection, Math.min(maxCorrection, scale))]. *)
Definition clampedScale (scale : number) : number :=
  Math_max minCorrection (Math_min maxCorrection scale).

(** "Avoid division by zero": [avg > 0.01 ? grayTarget / avg : 1]. *)
Definition scaleOf (grayTarget avg : number) : number :=
  if gt avg (dec 1 100) then div grayTarget avg else ofZ 1.

(** [(avgR + avgG + avgB) / 3]. *)
Definition mean3 (avgR avgG avgB : number) : number :=
  div (add (add avgR avgG) avgB) (ofZ 3).

(** The three clamped gains, from the three channel estimates. *)
Definition gainsOf (avg : number * number * number) : number * number * number :=
  let '(avgR, avgG, avgB) := avg in
  let grayTarget := mean3 avgR avgG avgB in
  (clampedScale (scaleOf grayTarget avgR),
   clampedScale (scaleOf grayTarget avgG),
   clampedScale (scaleOf grayTarget avgB)).

(** [data.length / 4]. *)
Definition pixelCount (d : list Z) : number :=
  div (ofZ (Z.of_nat (length d))) (ofZ 4).

Section WithPow.

Variable Math_pow : number -> number -> number.

(** The first loop: [sum += Math.pow(data[i] / 255, p)] per channel. *)
Fixpoint channelSums (p : number) (d : list Z) (sums : number * number * number)
    : number * number * number :=
  match d with
  | r0 :: g0 :: b0 :: _ :: rest =>
      let '(sumR, sumG, sumB) := sums in
      let r := div (ofZ r0) (ofZ 255) in
      let g := div (ofZ g0) (ofZ 255) in
      let b := div (ofZ b0) (ofZ 255) in
      channelSums p rest
        (add sumR (Math_pow r p), add sumG (Math_pow g p), add sumB (Math_pow b p))
  | _ => sums
  end.

(** "Calculate p-norm average (illuminant estimate)". *)
Definition illuminant (d : list Z) : number * number * number :=
  let pixels := pixelCount d in
  let p := SHADES_OF_GRAY_NORM in
  let '(sumR, sumG, sumB) := channelSums p d (ofZ 0, ofZ 0, ofZ 0) in
  (Math_pow (div sumR pixels) (div (ofZ 1) p),
   Math_pow (div sumG pixels) (div (ofZ 1) p),
   Math_pow (div sumB pixels) (div (ofZ 1) p)).

Definition gains (d : list Z) : number * number * number :=
  gainsOf (illuminant d).

(** [applyShadesOfGray]: the image data is corrected in place and the same
    [ImageData] (same width and height) is returned. *)
Definition applyShadesOfGray (imageData : ImageData) : ImageData :=
  let d := data imageData in
  let '(clampedScaleR, clampedScaleG, clampedScaleB) := gains d in
  {| width := width imageData;
     height := height imageData;
     data := correctPixels clampedScaleR clampedScaleG clampedScaleB d |}.

End WithPow.

(** *** needsColorCorrection *)

(** The loop of [img.onload]: [avgR += data[i]] per channel. *)
Fixpoint channelTotals (d : list Z) (avg : number * number * number)
    : number * number * number :=
  match d with
  | r :: g :: b :: _ :: rest =>
      let '(avgR, avgG, avgB) := avg in
      channelTotals rest (add avgR (ofZ r), add avgG (ofZ g), add avgB (ofZ b))
  | _ => avg
  end.

(** [avgR /= pixels] per channel. *)
Definition channelMeans (d : list Z) : number * number * number :=
  let pixels := pixelCount d in
  let '(avgR, avgG, avgB) := channelTotals d (ofZ 0, ofZ 0, ofZ 0) in
  (div avgR pixels, div avgG pixels, div avgB pixels).

Definition overallAvgOf (avg : number * number * number) : number :=
  let '(avgR, avgG, avgB) := avg in mean3 avgR avgG avgB.

Definition thresholdOf (avg : number * number * number) : number :=
  mul (overallAvgOf avg) (dec 15 100).

(** [Math.abs(avg - overallAvg) > threshold]. *)
Definition deviates (avg overallAvg threshold : number) : bool :=
  gt (Math_abs (sub avg overallAvg)) threshold.

(** [hasColorCast], from the three sampled channel means. *)
Definition hasColorCastOf (avg : number * number * number) : bool :=
  let '(avgR, avgG, avgB) := avg in
  let overallAvg := overallAvgOf avg in
  let threshold := thresholdOf avg in
  deviates avgR overallAvg threshold
  || deviates avgG overallAvg threshold
  || deviates avgB overallAvg threshold.

Definition hasColorCast (d : list Z) : bool := hasColorCastOf (channelMeans d).

(** What the host can report back to [needsColorCorrection]: the file reader
    finishes or fails, then the image decodes (and [sample] is what
    [getImageData] returns for the 100 x 100 canvas the image was drawn on)
    or fails to. *)
Inductive event : Type :=
| ReaderLoad
| ReaderError
| ImgLoad (sample : ImageData)
| ImgError.

Inductive phase : Type := Reading | Decoding | Idle.

Record task : Type := { stage : phase; promise : settlement bool }.

(** The executor: without a 2D context the promise resolves to [false] at
    once and no handler is installed. *)
Definition start (ctx : bool) : task :=
  if ctx then {| stage := Reading; promise := Pending |}
  else {| stage := Idle; promise := Resolved false |}.

Definition step (t : task) (e : event) : task :=
  match stage t, e with
  | Reading, ReaderLoad => {| stage := Decoding; promise := promise t |}
  | Reading, ReaderError =>
      {| stage := Idle; promise := settle (Resolved false) (promise t) |}
  | Decoding, ImgLoad sample =>
      {| stage := Idle;
         promise := settle (Resolved (hasColorCast (data sample))) (promise t) |}
  | Decoding, ImgError =>
      {| stage := Idle; promise := settle (Resolved false) (promise t) |}
  | _, _ => t
  end.

(** The promise is only ever resolved, never rejected. *)
Definition unrejected (t : task) : Prop :=
  match promise t with Rejected _ => False | _ => True end.

(** A [sampleSize] x [sampleSize] sample of one colour. *)
Definition sampleSize : Z := 100.

Definition uniformSample (r g b : Z) : ImageData :=
  {| width := sampleSize;
     height := sampleSize;
     data := concat (repeat [r; g; b; 255] (Z.to_nat (sampleSize * sampleSize))) |}.

(** [needsColorCorrection(file)], as the state of its promise after the host
    has delivered [events]. *)
Definition needsColorCorrection (ctx : bool) (events : list event) : settlement bool :=
  promise (fold_left step events (start ctx)).

(** A gain that is NaN or lies in [[minCorrection, maxCorrection]]. *)
Definition clamped_or_nan (gain : number) : bool :=
  is_nan gain || JSOrder.within minCorrection maxCorrection gain.

(** What a resolved promise of [needsColorCorrection] carries: [false], or
    the verdict on a sample that was decoded. *)
Definition verdict (events : list event) (b : bool) : Prop :=
  b = false
  \/ exists sample : ImageData,
       In (ImgLoad sample) events /\ b = hasColorCast (data sample).

(** What holds of the task after [events]. *)
Definition answered (events : list event) (t : task) : Prop :=
  match stage t, promise t with
  | Reading, p | Decoding, p => p = Pending
  | Idle, Resolved b => verdict events b
  | Idle, _ => False
  end.

End ColorCorrection.

(** *** correctImageColors *)

Module CorrectImageColors.
Import JS ColorCorrection.

(** What the host can report back to [correctImageColors]: the file reader
    finishes or fails, the image decodes ([img] is what [getImageData]
    returns for the canvas the image was drawn on at its own size) or fails
    to, and [toBlob] calls back with a blob or with [null]. *)
Inductive event : Type :=
| ReaderLoad
| ReaderError
| ImgLoad (img : ImageData)
| ImgError
| BlobReady (blob : bool).

Inductive phase : Type :=
| Reading
| Decoding
| Encoding (correctedData : ImageData)
| Idle.

Record task : Type := { stage : phase; promise : settlement File }.

(** The executor: without a 2D context the promise is rejected at once and
    no handler is installed. *)
Definition start (ctx : bool) : task :=
  if ctx then {| stage := Reading; promise := Pending |}
  else {| stage := Idle; promise := Rejected "Could not get canvas context" |}.

(** [file.type || 'image/jpeg']. *)
Definition outputType (file : File) : string := orElse (type file) "image/jpeg".

(** [new File([blob], file.name, { type: file.type || 'image/jpeg' })], the
    blob being what [toBlob] made of the canvas at quality 0.95. *)
Definition correctedFile (file : File) (correctedData : ImageData) : File :=
  {| name := name file;
     type := outputType file;
     body := Encoded correctedData (outputType file) (dec 95 100) |}.

Section WithPow.

Variable Math_pow : number -> number -> number.

Definition step (file : File) (t : task) (e : event) : task :=
  match stage t, e with
  | Reading, ReaderLoad => {| stage := Decoding; promise := promise t |}
  | Reading, ReaderError =>
      {| stage := Idle;
         promise := settle (Rejected "Failed to read file") (promise t) |}
  | Decoding, ImgLoad img =>
      {| stage := Encoding (applyShadesOfGray Math_pow img); promise := promise t |}
  | Decoding, ImgError =>
      {| stage := Idle;
         promise := settle (Rejected "Failed to load image") (promise t) |}
  | Encoding correctedData, BlobReady true =>
      {| stage := Idle;
         promise := settle (Resolved (correctedFile file correctedData)) (promise t) |}
  | Encoding _, BlobReady false =>
      {| stage := Idle;
         promise := settle (Rejected "Failed to create corrected image") (promise t) |}
  | _, _ => t
  end.

(** [correctImageColors(file)], as the state of its promise after the host
    has delivered [events]. *)
Definition correctImageColors (file : File) (ctx : bool) (events : list event)
    : settlement File :=
  promise (fold_left (step file) events (start ctx)).

(** What a resolved promise carries: the correction of an image that was
    decoded. *)
Definition corrected (file : File) (events : list event) (f : File) : Prop :=
  exists img : ImageData,
    In (ImgLoad img) events
    /\ f = correctedFile file (applyShadesOfGray Math_pow img).

(** What a rejected promise carries. *)
Definition rejection (reason : string) : Prop :=
  reason = "Could not get canvas context"%string
  \/ reason = "Failed to read file"%string
  \/ reason = "Failed to load image"%string
  \/ reason = "Failed to create corrected image"%string.

(** What holds of the task after [events]: the promise is pending until the
    last handler has run, and settled from then on. *)
Definition consistent (file : File) (events : list event) (t : task) : Prop :=
  match stage t, promise t with
  | Reading, p | Decoding, p => p = Pending
  | Encoding correctedData, p =>
      p = Pending
      /\ exists img : ImageData,
           In (ImgLoad img) events /\ correctedData = applyShadesOfGray Math_pow img
  | Idle, Pending => False
  | Idle, Resolved f => corrected file events f
  | Idle, Rejected reason => rejection reason
  end.

End WithPow.

End CorrectImageColors.

(** ** services/watermarkService.ts *)

Module Watermark.
Import JS.

(** What has been painted on a canvas, in order; every entry records the
    [globalAlpha] (or the fill colour) in force when it was painted.  The
    resampling and blending themselves are the browser's. *)
Record fontSpec : Type :=
  { fontStyle : string; fontSizePx : number; fontFamilies : list string }.

Record rgba : Type := { red : Z; green : Z; blue : Z; alpha : number }.

Inductive paint : Type :=
| DrawImage (image : ImageData) (dx dy : number) (globalAlpha : number)
| DrawImageScaled (image : ImageData) (dx dy dw dh : number) (globalAlpha : number)
| FillText (text : string) (font : fontSpec) (fillStyle : rgba)
    (textAlign textBaseline : string) (x y : number).

Record Canvas : Type := { cwidth : Z; cheight : Z; painted : list paint }.

Section WithPow.

Variable Math_pow : number -> number -> number.

(** [dist]: the distance of a pixel to the target colour. *)
Definition dist (r g b : Z) (targetColor : number * number * number) : number :=
  let '(t0, t1, t2) := targetColor in
  Math_sqrt
    (add
       (add (Math_pow (sub (ofZ r) t0) (ofZ 2)) (Math_pow (sub (ofZ g) t1) (ofZ 2)))
       (Math_pow (sub (ofZ b) t2) (ofZ 2))).

(** The loop of [makeTransparent] over the image data. *)
Fixpoint keyOut (targetColor : number * number * number) (tolerance : number)
    (d : list Z) : list Z :=
  match d with
  | r :: g :: b :: a :: rest =>
      r :: g :: b
        :: (if lt (dist r g b targetColor) tolerance then 0 (* make transparent *) else a)
        :: keyOut targetColor tolerance rest
  | _ => d
  end.

(** What one turn of that loop does to the pixel it visits. *)
Definition keyedPixel (targetColor : number * number * number) (tolerance : number)
    (px : Z * Z * Z * Z) : Z * Z * Z * Z :=
  let '(r, g, b, a) := px in
  if lt (dist r g b targetColor) tolerance then (r, g, b, 0) else (r, g, b, a).

(** [makeTransparent(ctx, width, height, targetColor, tolerance)]: [ctx] is
    given by the image it holds, whose whole area ([width] x [height]) is
    read with [getImageData], rewritten and put back. *)
Definition makeTransparent (ctx : ImageData) (targetColor : number * number * number)
    (tolerance : number) : ImageData :=
  {| width := width ctx;
     height := height ctx;
     data := keyOut targetColor tolerance (data ctx) |}.

(** The default value of the [tolerance] parameter. *)
Definition defaultTolerance : number := ofZ 50.

(** [logoImg.onload]: the logo is keyed on a canvas of its own, then drawn
    scaled in the bottom right corner of the main canvas. *)
Definition logoKey : number * number * number := (ofZ 240, ofZ 230, ofZ 74).

Definition logoScale (mainImg logoImg : ImageData) : number :=
  div (mul (ofZ (width mainImg)) (dec 15 100)) (ofZ (width logoImg)).

Definition drawLogo (mainImg logoImg : ImageData) (canvas : Canvas) : Canvas :=
  let logoCanvas := makeTransparent logoImg logoKey (ofZ 100) in
  let scale := logoScale mainImg logoImg in
  let logoW := mul (ofZ (width logoImg)) scale in
  let logoH := mul (ofZ (height logoImg)) scale in
  let padding := mul (ofZ (width mainImg)) (dec 3 100) in
  let x := sub (sub (ofZ (cwidth canvas)) logoW) padding in
  let y := sub (sub (ofZ (cheight canvas)) logoH) padding in
  {| cwidth := cwidth canvas;
     cheight := cheight canvas;
     painted := painted canvas ++ [DrawImageScaled logoCanvas x y logoW logoH (dec 8 10)] |}.

End WithPow.

(** [logoImg.onerror]: the text fallback. *)
Definition fallbackFontSize (mainImg : ImageData) : number :=
  Math_max (ofZ 16) (Math_floor (mul (ofZ (width mainImg)) (dec 5 100))).

Definition drawText (mainImg : ImageData) (watermarkText : string) (canvas : Canvas)
    : Canvas :=
  let fontSize := fallbackFontSize mainImg in
  let padding := fontSize in
  {| cwidth := cwidth canvas;
     cheight := cheight canvas;
     painted :=
       painted canvas
       ++ [FillText watermarkText
             {| fontStyle := "italic"; fontSizePx := fontSize;
                fontFamilies := ["Playfair Display"%string; "serif"%string] |}
             {| red := 255; green := 69; blue := 0; alpha := dec 7 10 |}
             "right" "bottom"
             (sub (ofZ (cwidth canvas)) padding)
             (sub (ofZ (cheight canvas)) padding)] |}.

(** [mainImg.onload], when a 2D context is available: the canvas takes the
    size of the main image, which is drawn at the origin. *)
Definition mainCanvas (mainImg : ImageData) : Canvas :=
  {| cwidth := width mainImg;
     cheight := height mainImg;
     painted := [DrawImage mainImg (ofZ 0) (ofZ 0) (ofZ 1)] |}.

(** The host: whether [getContext('2d')] yields a context for the main
    canvas and for the logo canvas, and the load events of the two images. *)
Record host : Type := { ctx : bool; logoCtx : bool }.

Inductive event : Type :=
| MainLoad (mainImg : ImageData)
| MainError
| LogoLoad (logoImg : ImageData)
| LogoError.

Inductive phase : Type :=
| LoadingMain
| LoadingLogo (mainImg : ImageData) (canvas : Canvas)
| Idle.

(** The promise resolves with [canvas.toDataURL('image/png')], the PNG of
    the canvas, which is represented by the canvas. *)
Record task : Type := { stage : phase; promise : settlement Canvas }.

Definition start : task := {| stage := LoadingMain; promise := Pending |}.

Section WithPow.

Variable Math_pow : number -> number -> number.

Definition step (h : host) (watermarkText : string) (t : task) (e : event) : task :=
  match stage t, e with
  | LoadingMain, MainLoad mainImg =>
      if ctx h then
        {| stage := LoadingLogo mainImg (mainCanvas mainImg); promise := promise t |}
      else
        {| stage := Idle;
           promise := settle (Rejected "Could not get canvas context") (promise t) |}
  | LoadingMain, MainError =>
      {| stage := Idle;
         promise := settle (Rejected "Failed to load image for watermarking") (promise t) |}
  | LoadingLogo mainImg canvas, LogoLoad logoImg =>
      if logoCtx h then
        {| stage := Idle;
           promise := settle (Resolved (drawLogo Math_pow mainImg logoImg canvas)) (promise t) |}
      else {| stage := Idle; promise := promise t |}
  | LoadingLogo mainImg canvas, LogoError =>
      {| stage := Idle;
         promise := settle (Resolved (drawText mainImg watermarkText canvas)) (promise t) |}
  | _, _ => t
  end.

(** [addWatermark(imageUrl, watermarkText)], as the state of its promise
    after the host has delivered [events]. *)
Definition addWatermark (h : host) (watermarkText : string) (events : list event)
    : settlement Canvas :=
  promise (fold_left (step h watermarkText) events start).

End WithPow.

Definition defaultWatermarkText : string := "Saket".

(** While the logo is awaited the promise is pending, and a rejected promise
    was rejected for the main image. *)
Definition mainFailure (t : task) : Prop :=
  match stage t, promise t with
  | LoadingMain, p | LoadingLogo _ _, p => p = Pending
  | Idle, Rejected reason =>
      reason = "Could not get canvas context"%string
      \/ reason = "Failed to load image for watermarking"%string
  | Idle, _ => True
  end.

Section Invariant.

Variable Math_pow : number -> number -> number.

(** What a resolved promise of [addWatermark] carries: the canvas of a main
    image that was loaded, with the text, or with a logo that was loaded and
    keyed on a canvas of its own. *)
Definition watermarked (h : host) (watermarkText : string) (events : list event)
    (c : Canvas) : Prop :=
  ctx h = true
  /\ exists mainImg : ImageData,
       In (MainLoad mainImg) events
       /\ (c = drawText mainImg watermarkText (mainCanvas mainImg)
           \/ (logoCtx h = true
               /\ exists logoImg : ImageData,
                    In (LogoLoad logoImg) events
                    /\ c = drawLogo Math_pow mainImg logoImg (mainCanvas mainImg))).

(** What a rejected promise of [addWatermark] carries: the main image was
    loaded and no context was to be had, or it failed to load. *)
Definition mainFailed (h : host) (events : list event) (reason : string) : Prop :=
  (reason = "Could not get canvas context"%string
   /\ ctx h = false
   /\ exists mainImg : ImageData, In (MainLoad mainImg) events)
  \/ (reason = "Failed to load image for watermarking"%string
      /\ In MainError events).

(** What holds of the task after [events]. *)
Definition wellFormed (h : host) (watermarkText : string) (events : list event)
    (t : task) : Prop :=
  match stage t, promise t with
  | LoadingMain, p => p = Pending
  | LoadingLogo mainImg canvas, p =>
      p = Pending /\ ctx h = true
      /\ In (MainLoad mainImg) events /\ canvas = mainCanvas mainImg
  | Idle, Resolved c => watermarked h watermarkText events c
  | Idle, Rejected reason => mainFailed h events reason
  | Idle, Pending => True
  end.

End Invariant.

End Watermark.

(** ** services/sessionService.ts *)

Module SessionService.

Definition SESSION_KEY : string := "pehanawa_customer_session".

(** [CustomerSession]; [customerImageBase64] is absent when the data URL
    that was read had no comma in it. *)
Record CustomerSession : Type :=
  { sessionId : string;
    customerImageBase64 : option string;
    customerImageType : string;
    createdAt : Z }.

(** A storage area ([sessionStorage], [localStorage]): what [getItem]
    returns for each key. *)
Definition Storage : Type := string -> option string.

Definition setItem (s : Storage) (key value : string) : Storage :=
  fun k => if String.eqb k key then Some value else s k.

Definition removeItem (s : Storage) (key : string) : Storage :=
  fun k => if String.eqb k key then None else s k.

Record Browser : Type := { sessionStorage : Storage; localStorage : Storage }.

(** Truthiness of what [getItem] returns: [null] and the empty string are
    falsy. *)
Definition truthy (item : option string) : bool :=
  match item with Some (String _ _) => true | _ => false end.

(** [a || b]. *)
Definition orItem (a b : option string) : option string :=
  if truthy a then a else b.

(** [sessionStorage.getItem(SESSION_KEY) || localStorage.getItem(SESSION_KEY)]. *)
Definition sessionData (b : Browser) : option string :=
  orItem (sessionStorage b SESSION_KEY) (localStorage b SESSION_KEY).

Definition comma : Ascii.ascii := Ascii.ascii_of_nat 44.

(** [s.split(',')[1]]: what stands between the first comma and the next
    one, if there is a comma. *)
Fixpoint afterComma (s : string) : option string :=
  match s with
  | EmptyString => None
  | String c rest => if Ascii.eqb c comma then Some rest else afterComma rest
  end.

Fixpoint beforeComma (s : string) : string :=
  match s with
  | EmptyString => EmptyString
  | String c rest => if Ascii.eqb c comma then EmptyString else String c (beforeComma rest)
  end.

Definition secondField (s : string) : option string :=
  option_map beforeComma (afterComma s).

(** A text without a comma. *)
Fixpoint commaFree (s : string) : bool :=
  match s with
  | EmptyString => true
  | String c rest => negb (Ascii.eqb c comma) && commaFree rest
  end.

(** [generateSessionId], from the texts of [Date.now()] and of
    [Math.random().toString(36)]. *)
Definition generateSessionId (now random36 : string) : string :=
  ("session_" ++ now ++ "_" ++ String.substring 2 7 random36)%string.

(** How [saveCustomerPhoto] ends: with the session id, or with the failure
    of the reader or of both storage areas. *)
Inductive saved : Type :=
| Saved (sessionId : string)
| ReadFailed
| StorageFailed.

Section Host.

(** [JSON.stringify] and [JSON.parse] on sessions ([None]: it throws), and
    [atob] as the character codes of the string it returns ([None]: it
    throws). *)
Variable JSON_stringify : CustomerSession -> string.
Variable JSON_parse : string -> option CustomerSession.
Variable atob : string -> option (list Z).

(** [base64ToFile]; an absent [base64] is turned into the text "undefined"
    by [atob]. *)
Definition base64ToFile (base64 : option string) (mimeType fileName : string)
    : option File :=
  match atob (match base64 with Some s => s | None => "undefined"%string end) with
  | Some byteNumbers =>
      Some {| name := fileName; type := mimeType; body := Uploaded byteNumbers |}
  | None => None
  end.

(** [getCustomerPhoto]: [null] when there is no session data, and when
    parsing or decoding throws. *)
Definition getCustomerPhoto (b : Browser) : option File :=
  if truthy (sessionData b) then
    match sessionData b with
    | Some text =>
        match JSON_parse text with
        | Some session =>
            base64ToFile (customerImageBase64 session) (customerImageType session)
              "customer.jpg"
        | None => None
        end
    | None => None
    end
  else None.

Definition hasCustomerSession (b : Browser) : bool := truthy (sessionData b).

Definition clearCustomerSession (b : Browser) : Browser :=
  {| sessionStorage := removeItem (sessionStorage b) SESSION_KEY;
     localStorage := removeItem (localStorage b) SESSION_KEY |}.

Definition getSessionInfo (b : Browser) : option (string * Z) :=
  if truthy (sessionData b) then
    match sessionData b with
    | Some text =>
        match JSON_parse text with
        | Some session => Some (sessionId session, createdAt session)
        | None => None
        end
    | None => None
    end
  else None.

(** The session that [saveCustomerPhoto] builds from what the reader
    returned. *)
Definition sessionOf (file : File) (dataURL id : string) (now : Z) : CustomerSession :=
  {| sessionId := id;
     customerImageBase64 := secondField dataURL;
     customerImageType := type file;
     createdAt := now |}.

(** [saveCustomerPhoto(file)]: [read] is the data URL the reader ends with
    ([None] when it fails), [id] what [generateSessionId] returns, [now] the
    second [Date.now()], and [sessionAccepts], [localAccepts] tell whether
    [setItem] succeeds for a value (it throws when the quota is exceeded). *)
Definition saveCustomerPhoto (b : Browser) (file : File) (read : option string)
    (id : string) (now : Z) (sessionAccepts localAccepts : string -> bool)
    : Browser * saved :=
  match read with
  | None => (b, ReadFailed)
  | Some dataURL =>
      let text := JSON_stringify (sessionOf file dataURL id now) in
      if sessionAccepts text then
        ({| sessionStorage := setItem (sessionStorage b) SESSION_KEY text;
            localStorage := localStorage b |},
         Saved id)
      else if localAccepts text then
        ({| sessionStorage := sessionStorage b;
            localStorage := setItem (localStorage b) SESSION_KEY text |},
         Saved id)
      else (b, StorageFailed)
  end.

End Host.

End SessionService.

(** ** App.tsx: the callers of the two services *)

Module App.

Inductive Category : Type := SUIT | ETHNIC | SHIRTING | PANTS | OTHERS.

Inductive WizardStep : Type :=
| SELECT_CATEGORY
| SELECT_SUIT_TYPE
| SELECT_ETHNIC_TYPE
| SELECT_OTHERS_MODE
| INPUT_PROMPT
| UPLOAD_STYLE_REF
| UPLOAD_CLOTH
| SHIRT_DECISION
| SHIRT_INPUT
| UPLOAD_CUSTOMER
| GENERATING
| RESULT.

(** [PehanawaConfig]; an optional field that is absent is [None], and so is
    a [null] file. *)
Record PehanawaConfig : Type :=
  { category : Category;
    pieceCount : option Z;
    shirtOption : option string;
    shirtImage : option File;
    ethnicType : option string;
    customPrompt : option string;
    styleReferenceImage : option File;
    clothImage : option File;
    customerImage : option File }.

(** [{ ...config, clothImage: file }]. *)
Definition withClothImage (config : PehanawaConfig) (file : File) : PehanawaConfig :=
  {| category := category config;
     pieceCount := pieceCount config;
     shirtOption := shirtOption config;
     shirtImage := shirtImage config;
     ethnicType := ethnicType config;
     customPrompt := customPrompt config;
     styleReferenceImage := styleReferenceImage config;
     clothImage := Some file;
     customerImage := customerImage config |}.

Definition isCategory (a b : Category) : bool :=
  match a, b with
  | SUIT, SUIT | ETHNIC, ETHNIC | SHIRTING, SHIRTING | PANTS, PANTS
  | OTHERS, OTHERS => true
  | _, _ => false
  end.

Definition isType (t : option string) (s : string) : bool :=
  match t with Some t' => String.eqb t' s | None => false end.

(** Where [handleClothUpload] goes next. *)
Definition afterCloth (config : PehanawaConfig) : WizardStep :=
  if isCategory (category config) SUIT
     || (isCategory (category config) ETHNIC && isType (ethnicType config) "blazer")
  then SHIRT_DECISION
  else UPLOAD_CUSTOMER.

(** [handleClothUpload(file)], given how the promise of
    [correctImageColors(file)] stands: the handler waits while it is pending
    ([None]); otherwise it stores the corrected file, or the original one if
    the correction was rejected, and moves on. *)
Definition handleClothUpload (config : PehanawaConfig) (file : File)
    (correction : settlement File) : option (PehanawaConfig * WizardStep) :=
  match correction with
  | Pending => None
  | Resolved correctedFile => Some (withClothImage config correctedFile, afterCloth config)
  | Rejected _ => Some (withClothImage config file, afterCloth config)
  end.

(** What the Save button does, besides logging. *)
Inductive effect : Type :=
| Download (href : Watermark.Canvas) (download : string)
| Alert (message : string).

(** The click handler of Save, given the result image of the wizard and how
    the promise of [addWatermark(resultImage)] stands. *)
Definition onSave (resultImage : option string)
    (watermarkedImage : settlement Watermark.Canvas) : list effect :=
  match resultImage with
  | None | Some EmptyString => []
  | Some _ =>
      match watermarkedImage with
      | Pending => []
      | Resolved c => [Download c "pehanawa-saket-look.png"]
      | Rejected _ => [Alert "Failed to save image. Please try again."]
      end
  end.

End App.

(** ** Doubles as scaled integers

    What the proofs about the illuminant and the gains need: the value of a
    nonnegative double as an integer multiple of [2^-K], the doubles of the
    interval [0, 1], and a [Math.pow] that stays in that interval. *)

Module Rounding.

(** [mrs] holds the quotient [N / D] cut down to an integer, with the round
    bit and the sticky bit of what was cut off. *)
Definition located (N D : Z) (mrs : shr_record) : Prop :=
  shr_m mrs = N / D
  /\ match shr_r mrs, shr_s mrs with
     | false, false => N mod D = 0
     | false, true => 0 < 2 * (N mod D) < D
     | true, false => 2 * (N mod D) = D
     | true, true => D < 2 * (N mod D)
     end.

(** The double that rounding ends with, from the rounded mantissa [m1] at the
    exponent [t]: a mantissa of 54 bits moves one exponent up, and an
    exponent above 971 overflows. *)
Definition finish (sx : bool) (m1 t : Z) : spec_float :=
  match m1 with
  | Z0 => S754_zero sx
  | Zpos p =>
      if m1 =? 2 ^ 53 then
        if t + 1 <=? 971 then S754_finite sx (2 ^ 52)%positive (t + 1)
        else S754_infinity sx
      else if t <=? 971 then S754_finite sx p t else S754_infinity sx
  | Zneg _ => S754_nan
  end.

(** No double has an exponent below [-K]. *)
Definition K : Z := 2200.

(** [m * 2^e], counted in units of [2^-K]. *)
Definition scaled (m e : Z) : Z := m * 2 ^ (e + K).

(** The zeros and the positive doubles, the latter in canonical form. *)
Definition nonneg (x : spec_float) : Prop :=
  match x with
  | S754_zero _ => True
  | S754_finite false m e => bounded 53 1024 m e = true
  | _ => False
  end.

(** The absolute value of a finite double, in units of [2^-K]. *)
Definition mag (x : spec_float) : Z :=
  match x with
  | S754_finite _ m e => scaled (Zpos m) e
  | _ => 0
  end.

End Rounding.

Module UnitDefs.
Import JS Rounding.

(** A valid double of the interval [0, 1]. *)
Definition in_unit (x : number) : bool :=
  valid_binary prec emax x && le (ofZ 0) x && le x (ofZ 1).

(** A [Math.pow] for the examples: the reference power, with 1 in its place
    should it leave [0, 1] on a base of [0, 1]. *)
Definition pow_unit (base exponent : number) : number :=
  let r := PowRef.pow_ref base exponent in
  if in_unit base then (if in_unit r then r else ofZ 1) else r.

(** The number of whole pixels of a data array. *)
Definition pixelsIn (d : list Z) : Z := Z.of_nat (length (pixelsOf d)).

(** A sum of at most [k] numbers of [0, 1]. *)
Definition below (k : Z) (s : number) : Prop := nonneg s /\ mag s <= k * 2 ^ K.

(** Two numbers are the same double, bit for bit (NaN is one value). *)
Definition sameNumber (x y : number) : bool :=
  match x, y with
  | S754_zero s, S754_zero s' => Bool.eqb s s'
  | S754_infinity s, S754_infinity s' => Bool.eqb s s'
  | S754_nan, S754_nan => true
  | S754_finite s m e, S754_finite s' m' e' =>
      Bool.eqb s s' && Pos.eqb m m' && Z.eqb e e'
  | _, _ => false
  end.

End UnitDefs.

(** * Properties *)

(** ** Reasoning four bytes at a time *)

Lemma pixel_ind (P : list Z -> Prop) :
  P [] ->
  (forall r, P [r]) ->
  (forall r g, P [r; g]) ->
  (forall r g b, P [r; g; b]) ->
  (forall r g b a rest, P rest -> P (r :: g :: b :: a :: rest)) ->
  forall d, P d.
Proof.
  intros H0 H1 H2 H3 H4.
  fix IH 1.
  intros [|r [|g [|b [|a rest]]]].
  - exact H0.
  - apply H1.
  - apply H2.
  - apply H3.
  - apply H4, IH.
Qed.

Ltac by_pixels d :=
  induction d as [| ? | ? ? | ? ? ? | ? ? ? ? ? IH] using pixel_ind;
  simpl; auto.

Lemma ToUint8Clamp_byte (x : JS.number) : byte (JS.ToUint8Clamp x).
Proof.
  unfold byte, JS.ToUint8Clamp.
  destruct x as [s|s| |s m e]; try lia.
  - destruct s; lia.
  - destruct s; [lia|].
    destruct (0 <=? e) eqn:He.
    + pose proof (Z.shiftl_nonneg (Zpos m) e). lia.
    + assert (0 <= Z.shiftr (Z.pos m) (- e)) by (apply Z.shiftr_nonneg; lia).
      destruct (_ ?= _); try destruct (Z.odd _); lia.
Qed.

(** ** Numbers: sign and order *)

Module JSFacts.
Import JS JSOrder.

Lemma iter_pos_invariant {A : Type} (P : A -> Prop) (f : A -> A) :
  (forall x, P x -> P (f x)) -> forall n x, P x -> P (iter_pos f n x).
Proof.
  intros Hf. induction n as [n IH|n IH|]; simpl; intros x Hx; auto.
Qed.

Lemma shr_1_nonneg (mrs : shr_record) : 0 <= shr_m mrs -> 0 <= shr_m (shr_1 mrs).
Proof.
  destruct mrs as [m r s]. simpl.
  destruct m as [|[p|p|]|p]; simpl; lia.
Qed.

Lemma shr_nonneg (mrs : shr_record) (e n : Z) :
  0 <= shr_m mrs -> 0 <= shr_m (fst (shr mrs e n)).
Proof.
  intros H. destruct n as [|p|p]; simpl; auto.
  apply (iter_pos_invariant (fun mrs => 0 <= shr_m mrs)); auto using shr_1_nonneg.
Qed.

Lemma shr_record_of_loc_m (m : Z) (l : location) : shr_m (shr_record_of_loc m l) = m.
Proof. now destruct l as [|[| |]]. Qed.

Lemma shr_fexp_nonneg (m e : Z) (l : location) :
  0 <= m -> 0 <= shr_m (fst (shr_fexp prec emax m e l)).
Proof.
  intros H. unfold shr_fexp. apply shr_nonneg. now rewrite shr_record_of_loc_m.
Qed.

Lemma round_nearest_even_nonneg (m : Z) (l : location) :
  0 <= m -> 0 <= round_nearest_even m l.
Proof.
  intros H. destruct l as [|[| |]]; simpl; try lia.
  destruct (Z.even m); lia.
Qed.

(** Rounding a magnitude that is not negative never yields NaN, and the
    result has the sign that was asked for. *)
Lemma binary_round_aux_sign (sx : bool) (mx ex : Z) (lx : location) :
  0 <= mx -> signOf (binary_round_aux prec emax sx mx ex lx) = Some sx.
Proof.
  intros H. unfold binary_round_aux.
  pose proof (shr_fexp_nonneg mx ex lx H) as H1.
  destruct (shr_fexp prec emax mx ex lx) as [mrs' e'].
  simpl fst in H1.
  pose proof (shr_fexp_nonneg _ e' loc_Exact
                (round_nearest_even_nonneg _ (loc_of_shr_record mrs') H1)) as H2.
  destruct (shr_fexp prec emax _ e' loc_Exact) as [mrs'' e''].
  simpl fst in H2.
  destruct (shr_m mrs'') as [|m|m]; try lia; try reflexivity.
  now destruct (e'' <=? emax - prec).
Qed.

Lemma binary_round_sign (sx : bool) (mx : positive) (ex : Z) :
  signOf (binary_round prec emax sx mx ex) = Some sx.
Proof.
  unfold binary_round. destruct (shl_align _ _ _) as [mz ez].
  apply binary_round_aux_sign. lia.
Qed.

Lemma binary_normalize_not_nan (m e : Z) (szero : bool) :
  is_nan (binary_normalize prec emax m e szero) = false.
Proof.
  destruct m as [|p|p]; simpl; auto.
  - pose proof (binary_round_sign false p e). now destruct (binary_round _ _ _ _ _).
  - pose proof (binary_round_sign true p e). now destruct (binary_round _ _ _ _ _).
Qed.

Lemma ofZ_not_nan (z : Z) : is_nan (ofZ z) = false.
Proof. apply binary_normalize_not_nan. Qed.

Lemma signOf_not_nan (x : number) (s : bool) : signOf x = Some s -> is_nan x = false.
Proof. now destruct x. Qed.

Lemma is_finite_not_nan (x : number) : is_finite x = true -> is_nan x = false.
Proof. now destruct x. Qed.

Lemma lt_le (x y : number) : lt x y = true -> le x y = true.
Proof. unfold lt, le, SFltb, SFleb. now destruct (SFcompare x y) as [[| |]|]. Qed.

Lemma Math_min_finite (s : bool) (m : positive) (e : Z) (x : number) :
  Math_min (S754_finite s m e) x
  = if is_nan x then NaN
    else if lt x (S754_finite s m e) then x else S754_finite s m e.
Proof. now destruct x. Qed.

Lemma Math_max_finite (s : bool) (m : positive) (e : Z) (x : number) :
  Math_max (S754_finite s m e) x
  = if is_nan x then NaN
    else if lt (S754_finite s m e) x then x else S754_finite s m e.
Proof. now destruct x. Qed.

Lemma add_not_nan (x y : number) :
  is_nan x = false -> is_finite y = true -> is_nan (add x y) = false.
Proof.
  destruct x as [sx|sx| |sx mx ex], y as [sy|sy| |sy my ey]; try discriminate;
    intros _ _; try reflexivity.
  - now destruct sx, sy.
  - apply binary_normalize_not_nan.
Qed.

Lemma mul_finite_not_nan (x : number) (s : bool) (m : positive) (e : Z) :
  is_nan x = false -> is_nan (mul x (S754_finite s m e)) = false.
Proof.
  destruct x as [sx|sx| |sx mx ex]; try discriminate; intros _; try reflexivity.
  apply (signOf_not_nan _ (xorb sx s)). unfold mul, SFmul.
  apply binary_round_aux_sign. lia.
Qed.

Lemma div_core_nonneg (mx my : positive) (ex ey : Z) :
  0 <= fst (fst (SFdiv_core_binary prec emax (Zpos mx) ex (Zpos my) ey)).
Proof.
  unfold SFdiv_core_binary.
  set (s := ex - ey - _).
  set (m' := match s with Z0 => Zpos mx | Zpos _ => Z.shiftl (Zpos mx) s | Zneg _ => 0 end).
  assert (Hm : 0 <= m').
  { subst m'. destruct s; try lia. apply Z.shiftl_nonneg. lia. }
  pose proof (Z.div_pos m' (Zpos my) Hm ltac:(lia)) as Hq.
  unfold Z.div in Hq.
  destruct (Z.div_eucl m' (Zpos my)) as [q r]. exact Hq.
Qed.

Lemma div_finite_not_nan (x : number) (s : bool) (m : positive) (e : Z) :
  is_nan x = false -> is_nan (div x (S754_finite s m e)) = false.
Proof.
  destruct x as [sx|sx| |sx mx ex]; try discriminate; intros _; try reflexivity.
  unfold div, SFdiv.
  pose proof (div_core_nonneg mx m ex e) as H.
  destruct (SFdiv_core_binary _ _ _ _ _ _) as [[mz ez] lz]. simpl in H.
  apply (signOf_not_nan _ (xorb sx s)), binary_round_aux_sign, H.
Qed.

Lemma Math_floor_not_nan (x : number) : is_nan x = false -> is_nan (Math_floor x) = false.
Proof.
  destruct x as [s|s| |s m e]; simpl; auto. intros _.
  destruct (0 <=? e); [reflexivity|].
  destruct (_ =? 0); [reflexivity|]. apply ofZ_not_nan.
Qed.

Lemma sqrt_core_nonneg (mx : positive) (ex : Z) :
  0 <= fst (fst (SFsqrt_core_binary prec emax (Zpos mx) ex)).
Proof.
  unfold SFsqrt_core_binary.
  set (s := ex - _).
  set (m' := match s with Z0 => Zpos mx | Zpos _ => Z.shiftl (Zpos mx) s | Zneg _ => 0 end).
  pose proof (Z.sqrtrem_sqrt m') as Hq.
  pose proof (Z.sqrt_nonneg m') as Hs.
  destruct (Z.sqrtrem m') as [q r]. simpl in *. lia.
Qed.

(** A square root is NaN, a zero, or positive. *)
Lemma Math_sqrt_sign (x : number) :
  match Math_sqrt x with
  | S754_nan | S754_zero _ => True
  | y => signOf y = Some false
  end.
Proof.
  destruct x as [s|[|]| |[|] m e]; simpl; auto.
  unfold Math_sqrt, SFsqrt.
  pose proof (sqrt_core_nonneg m e) as H.
  destruct (SFsqrt_core_binary _ _ _ _) as [[mz ez] lz]. simpl in H.
  pose proof (binary_round_aux_sign false mz ez lz H) as Hs.
  destruct (binary_round_aux _ _ _ _ _ _); auto.
Qed.

Lemma nothing_below_a_square_root (x tolerance : number) :
  lt (ofZ 0) tolerance = false -> lt (Math_sqrt x) tolerance = false.
Proof.
  intros H. pose proof (Math_sqrt_sign x) as Hs.
  destruct (Math_sqrt x) as [s|s| |s m e], tolerance as [s'|s'| |s' m' e'];
    simpl in Hs; try reflexivity; try discriminate;
    try (injection Hs as ->); try (destruct s'; try reflexivity; discriminate).
Qed.

Lemma in_bytes255 (v : Z) : byte v -> In v bytes255.
Proof.
  intros Hv. unfold bytes255. apply in_map_iff. exists (Z.to_nat v).
  unfold byte in Hv. split; [lia|]. apply in_seq. lia.
Qed.

End JSFacts.

(** ** ColorCorrector: the apply stage *)

Module ColorCorrectionFacts.
Import JS JSOrder JSFacts ColorCorrection.

Lemma correctedChannel_byte (v : Z) (s : number) : byte (correctedChannel v s).
Proof. apply ToUint8Clamp_byte. Qed.

Lemma correctPixels_length (sr sg sb : number) (d : list Z) :
  length (correctPixels sr sg sb d) = length d.
Proof. by_pixels d. Qed.

Lemma correctPixels_pixelsOf (sr sg sb : number) (d : list Z) :
  pixelsOf (correctPixels sr sg sb d)
  = map (fun '(r, g, b, a) =>
           (correctedChannel r sr, correctedChannel g sg, correctedChannel b sb, a))
        (pixelsOf d).
Proof. by_pixels d. now rewrite IH. Qed.

Lemma Math_max_zero (y : number) :
  Math_max (ofZ 0) y
  = if is_nan y then NaN else if lt (ofZ 0) y then y else ofZ 0.
Proof. now destruct y as [[|]|[|]| |[|] m e]. Qed.

(** The clamp of the apply stage yields NaN or a number of [0, 255]. *)
Lemma clamp_in_range (y : number) :
  let x := Math_min (ofZ 255) (Math_max (ofZ 0) y) in
  is_nan x || (le (ofZ 0) x && le x (ofZ 255)) = true.
Proof.
  intros x. subst x. rewrite Math_max_zero.
  let c := eval vm_compute in (ofZ 255) in change (ofZ 255) with c.
  rewrite Math_min_finite.
  destruct (is_nan y) eqn:Hn; [reflexivity|].
  destruct (lt (ofZ 0) y) eqn:H0.
  - rewrite Hn. destruct (lt y _) eqn:H1.
    + rewrite Hn. now rewrite (lt_le _ _ H0), (lt_le _ _ H1).
    + reflexivity.
  - reflexivity.
Qed.

(** C1.  Whatever the gains, the apply stage keeps the size of the data and
    of the image and stores, in each of R, G and B of every pixel,
    [Math.min(255, Math.max(0, Math.round(value * gain)))]: a number that
    is NaN (stored as 0) or already lies in [0, 255], so that every channel
    of the result is a byte; 100 and 200 at gain 1.5 give 150 and 255, 255
    and 101 at gain 0.6 give 153 and 61, 3 at gain 0.5 gives 2, and a
    negative or NaN gain gives 0.  Every alpha is left as it was, and
    [applyShadesOfGray] is this stage run with its own gains. *)
Theorem apply_stage_clamps_and_keeps_alpha :
  forall (Math_pow : number -> number -> number) (imageData : ImageData)
         (gainR gainG gainB : number),
    let clamped (v : Z) (gain : number) :=
      Math_min (ofZ 255) (Math_max (ofZ 0) (Math_round (mul (ofZ v) gain))) in
    let stored (v : Z) (gain : number) := ToUint8Clamp (clamped v gain) in
    let out := correctPixels gainR gainG gainB (data imageData) in
    length out = length (data imageData)
    /\ pixelsOf out
       = map (fun '(r, g, b, a) => (stored r gainR, stored g gainG, stored b gainB, a))
             (pixelsOf (data imageData))
    /\ (forall (v : Z) (gain : number),
          is_nan (clamped v gain)
          || (le (ofZ 0) (clamped v gain) && le (clamped v gain) (ofZ 255)) = true)
    /\ (forall (v : Z) (gain : number), 0 <= stored v gain <= 255)
    /\ (stored 100 (dec 15 10) = 150
        /\ stored 200 (dec 15 10) = 255
        /\ stored 255 (dec 6 10) = 153
        /\ stored 101 (dec 6 10) = 61
        /\ stored 3 (dec 5 10) = 2
        /\ stored 10 (ofZ (-1)) = 0
        /\ stored 7 NaN = 0)
    /\ Forall (fun '(r, g, b, _) => 0 <= r <= 255 /\ 0 <= g <= 255 /\ 0 <= b <= 255)
         (pixelsOf out)
    /\ map (fun '(_, _, _, a) => a) (pixelsOf out)
       = map (fun '(_, _, _, a) => a) (pixelsOf (data imageData))
    /\ width (applyShadesOfGray Math_pow imageData) = width imageData
    /\ height (applyShadesOfGray Math_pow imageData) = height imageData
    /\ data (applyShadesOfGray Math_pow imageData)
       = (let '(sr, sg, sb) := gains Math_pow (data imageData) in
          correctPixels sr sg sb (data imageData)).
Proof.
  intros Math_pow imageData gainR gainG gainB clamped stored out.
  subst clamped stored out. cbv beta.
  split; [apply correctPixels_length|].
  split; [apply correctPixels_pixelsOf|].
  split; [intros v gain; apply clamp_in_range|].
  split; [intros v gain; apply ToUint8Clamp_byte|].
  split; [repeat split; vm_compute; reflexivity|].
  split.
  { rewrite correctPixels_pixelsOf. apply Forall_forall.
    intros [[[r g] b] a] Hin. apply in_map_iff in Hin.
    destruct Hin as [[[[r0 g0] b0] a0] [Heq _]]. inversion Heq; subst.
    repeat split; apply correctedChannel_byte. }
  split.
  { rewrite correctPixels_pixelsOf, map_map. apply map_ext.
    now intros [[[r g] b] a]. }
  unfold applyShadesOfGray. now destruct (gains _ _) as [[? ?] ?].
Qed.

End ColorCorrectionFacts.

(** ** WatermarkCompositor: chroma key *)

Module WatermarkFacts.
Import JS Watermark.

Section ChromaKey.

Variable Math_pow : number -> number -> number.
Variable targetColor : number * number * number.
Variable tolerance : number.

Lemma keyOut_length (d : list Z) :
  length (keyOut Math_pow targetColor tolerance d) = length d.
Proof. by_pixels d. Qed.

Lemma keyOut_pixelsOf (d : list Z) :
  pixelsOf (keyOut Math_pow targetColor tolerance d)
  = map (keyedPixel Math_pow targetColor tolerance) (pixelsOf d).
Proof.
  by_pixels d. rewrite IH. unfold keyedPixel.
  now destruct (lt _ _).
Qed.

Lemma keyOut_twice (d : list Z) :
  keyOut Math_pow targetColor tolerance (keyOut Math_pow targetColor tolerance d)
  = keyOut Math_pow targetColor tolerance d.
Proof.
  by_pixels d. rewrite IH.
  now destruct (lt (dist Math_pow r g b targetColor) tolerance).
Qed.

End ChromaKey.

(** C4.  [makeTransparent] is idempotent: a second run with the same target
    colour and tolerance returns the bitmap of the first run. *)
Theorem makeTransparent_idempotent :
  forall (Math_pow : number -> number -> number) (ctx : ImageData)
         (targetColor : number * number * number) (tolerance : number),
    makeTransparent Math_pow
      (makeTransparent Math_pow ctx targetColor tolerance) targetColor tolerance
    = makeTransparent Math_pow ctx targetColor tolerance.
Proof.
  intros. unfold makeTransparent. simpl. now rewrite keyOut_twice.
Qed.

(** C5.  For every pixel, [makeTransparent] takes the square root of the sum
    of the squared differences of R, G and B to the key colour; when that
    distance is strictly below the tolerance the alpha becomes 0 and R, G, B
    stay, otherwise the four components stay.  Size is kept. *)
Theorem makeTransparent_pixelwise :
  forall (Math_pow : number -> number -> number) (ctx : ImageData)
         (kr kg kb : number) (tolerance : number),
    let out := makeTransparent Math_pow ctx (kr, kg, kb) tolerance in
    let distance (r g b : Z) :=
      Math_sqrt
        (add (add (Math_pow (sub (ofZ r) kr) (ofZ 2))
                  (Math_pow (sub (ofZ g) kg) (ofZ 2)))
             (Math_pow (sub (ofZ b) kb) (ofZ 2))) in
    width out = width ctx
    /\ height out = height ctx
    /\ length (data out) = length (data ctx)
    /\ pixelsOf (data out)
       = map (fun '(r, g, b, a) =>
                if lt (distance r g b) tolerance then (r, g, b, 0) else (r, g, b, a))
             (pixelsOf (data ctx)).
Proof.
  intros. subst out distance. unfold makeTransparent. simpl.
  repeat split.
  - apply keyOut_length.
  - rewrite keyOut_pixelsOf. apply map_ext.
    now intros [[[r g] b] a].
Qed.

(** *** The promise of [addWatermark] *)

Section Compositor.

Variable Math_pow : number -> number -> number.
Variable h : host.
Variable watermarkText : string.

Lemma step_idle (t : task) (e : event) :
  stage t = Idle -> step Math_pow h watermarkText t e = t.
Proof. intros H. unfold step. now rewrite H. Qed.

Lemma run_idle (events : list event) (t : task) :
  stage t = Idle -> fold_left (step Math_pow h watermarkText) events t = t.
Proof.
  induction events as [|e events IH]; simpl; intros H; [reflexivity|].
  rewrite step_idle by assumption. now apply IH.
Qed.

Lemma step_mainFailure (t : task) (e : event) :
  mainFailure t -> mainFailure (step Math_pow h watermarkText t e).
Proof.
  unfold mainFailure, step.
  destruct t as [[|m c|] [|v|r]], e; simpl; auto; try discriminate;
    try (destruct (ctx h); simpl; auto);
    try (destruct (logoCtx h); simpl; auto).
Qed.

Lemma run_mainFailure (events : list event) (t : task) :
  mainFailure t -> mainFailure (fold_left (step Math_pow h watermarkText) events t).
Proof.
  revert t. induction events as [|e events IH]; simpl; intros t H; [assumption|].
  apply IH, step_mainFailure, H.
Qed.

End Compositor.

(** C8.  When both images load and both canvases have a context, the logo is
    keyed with (240, 230, 74) at tolerance 100 and drawn with global alpha
    0.8, scaled by [scale = (main.width * 0.15) / logo.width] in both
    directions, at [x = main.width - logoW - padding],
    [y = main.height - logoH - padding], [padding = main.width * 0.03]; the
    canvas that is returned has the width and height of the main image. *)
Theorem logo_is_keyed_scaled_and_anchored :
  forall (Math_pow : number -> number -> number) (watermarkText : string)
         (mainImg logoImg : ImageData) (rest : list event),
    let scale := div (mul (ofZ (width mainImg)) (dec 15 100)) (ofZ (width logoImg)) in
    let logoW := mul (ofZ (width logoImg)) scale in
    let logoH := mul (ofZ (height logoImg)) scale in
    let padding := mul (ofZ (width mainImg)) (dec 3 100) in
    let x := sub (sub (ofZ (width mainImg)) logoW) padding in
    let y := sub (sub (ofZ (height mainImg)) logoH) padding in
    addWatermark Math_pow {| ctx := true; logoCtx := true |} watermarkText
      (MainLoad mainImg :: LogoLoad logoImg :: rest)
    = Resolved
        {| cwidth := width mainImg;
           cheight := height mainImg;
           painted :=
             [DrawImage mainImg (ofZ 0) (ofZ 0) (ofZ 1);
              DrawImageScaled
                (makeTransparent Math_pow logoImg (ofZ 240, ofZ 230, ofZ 74) (ofZ 100))
                x y logoW logoH (dec 8 10)] |}.
Proof.
  intros. unfold addWatermark. simpl fold_left.
  rewrite run_idle by reflexivity. reflexivity.
Qed.

(** On a 1000 x 1000 image a 20 x 20 logo is drawn 150 x 150 at (820, 820). *)
Example logo_layout_1000 :
  forall (Math_pow : number -> number -> number) (d e : list Z),
    let mainImg := {| width := 1000; height := 1000; data := d |} in
    let logoImg := {| width := 20; height := 20; data := e |} in
    addWatermark Math_pow {| ctx := true; logoCtx := true |} defaultWatermarkText
      [MainLoad mainImg; LogoLoad logoImg]
    = Resolved
        {| cwidth := 1000;
           cheight := 1000;
           painted :=
             [DrawImage mainImg (ofZ 0) (ofZ 0) (ofZ 1);
              DrawImageScaled
                (makeTransparent Math_pow logoImg logoKey (ofZ 100))
                (ofZ 820) (ofZ 820) (ofZ 150) (ofZ 150) (dec 8 10)] |}.
Proof. intros. reflexivity. Qed.

(** C9.  When the main image loads, a context is there, and the logo fails
    to load, the promise is resolved with the canvas of the main image
    (same width and height) on which the text is written in italic
    "Playfair Display", serif, of size
    [max(16, floor(main.width * 0.05))], aligned right and bottom at that
    same distance from the two edges, filled with rgba(255, 69, 0, 0.7);
    and a promise of [addWatermark] is only ever rejected for the main image
    (no context, or it failed to load), never for the logo. *)
Theorem logo_failure_falls_back_to_text :
  forall (Math_pow : number -> number -> number) (watermarkText : string)
         (logoCtx : bool) (mainImg : ImageData) (rest : list event),
    let fontSize :=
      Math_max (ofZ 16) (Math_floor (mul (ofZ (width mainImg)) (dec 5 100))) in
    let padding := fontSize in
    addWatermark Math_pow {| ctx := true; logoCtx := logoCtx |} watermarkText
      (MainLoad mainImg :: LogoError :: rest)
    = Resolved
        {| cwidth := width mainImg;
           cheight := height mainImg;
           painted :=
             [DrawImage mainImg (ofZ 0) (ofZ 0) (ofZ 1);
              FillText watermarkText
                {| fontStyle := "italic"; fontSizePx := fontSize;
                   fontFamilies := ["Playfair Display"%string; "serif"%string] |}
                {| red := 255; green := 69; blue := 0; alpha := dec 7 10 |}
                "right" "bottom"
                (sub (ofZ (width mainImg)) padding)
                (sub (ofZ (height mainImg)) padding)] |}
    /\ (forall (h : host) (events : list event) (reason : string),
          addWatermark Math_pow h watermarkText events = Rejected reason ->
          reason = "Could not get canvas context"%string
          \/ reason = "Failed to load image for watermarking"%string).
Proof.
  intros. split.
  - unfold addWatermark. simpl fold_left.
    rewrite run_idle by reflexivity. reflexivity.
  - intros h events reason H.
    assert (M : mainFailure (fold_left (step Math_pow h watermarkText) events start)).
    { apply run_mainFailure. reflexivity. }
    unfold addWatermark in H. unfold mainFailure in M. rewrite H in M.
    destruct (stage _); try discriminate. exact M.
Qed.

(** On a 1000 x 1000 image the text is 50 pixels high, 50 pixels from the
    right and bottom edges. *)
Example text_layout_1000 :
  forall (Math_pow : number -> number -> number) (d : list Z),
    let mainImg := {| width := 1000; height := 1000; data := d |} in
    addWatermark Math_pow {| ctx := true; logoCtx := true |} defaultWatermarkText
      [MainLoad mainImg; LogoError]
    = Resolved
        {| cwidth := 1000;
           cheight := 1000;
           painted :=
             [DrawImage mainImg (ofZ 0) (ofZ 0) (ofZ 1);
              FillText "Saket"
                {| fontStyle := "italic"; fontSizePx := ofZ 50;
                   fontFamilies := ["Playfair Display"%string; "serif"%string] |}
                {| red := 255; green := 69; blue := 0; alpha := dec 7 10 |}
                "right" "bottom" (ofZ 950) (ofZ 950)] |}.
Proof. intros. reflexivity. Qed.

End WatermarkFacts.

(** ** needsColorCorrection *)

Module HeuristicFacts.
Import JS ColorCorrection.

(** A uniformly coloured 100 x 100 sample. *)
Lemma hasColorCast_reddish :
  hasColorCast (data (uniformSample 200 100 100)) = true.
Proof. vm_compute. reflexivity. Qed.

Lemma hasColorCast_gray128 :
  hasColorCast (data (uniformSample 128 128 128)) = false.
Proof. vm_compute. reflexivity. Qed.

(** C7.  From the sampled channel means, the heuristic answers true exactly
    when one of them is further than [threshold = overallAvg * 0.15] from
    [overallAvg = (avgR + avgG + avgB) / 3]; it answers true on the means
    (200, 100, 100) and false on (128, 128, 128), and likewise on the
    uniform samples that have these means. *)
Theorem hasColorCast_iff_deviation :
  forall avgR avgG avgB : number,
    let overallAvg := div (add (add avgR avgG) avgB) (ofZ 3) in
    let threshold := mul overallAvg (dec 15 100) in
    (hasColorCastOf (avgR, avgG, avgB) = true
     <-> (gt (Math_abs (sub avgR overallAvg)) threshold = true
          \/ gt (Math_abs (sub avgG overallAvg)) threshold = true
          \/ gt (Math_abs (sub avgB overallAvg)) threshold = true))
    /\ hasColorCastOf (ofZ 200, ofZ 100, ofZ 100) = true
    /\ hasColorCastOf (ofZ 128, ofZ 128, ofZ 128) = false
    /\ channelMeans (data (uniformSample 200 100 100)) = (ofZ 200, ofZ 100, ofZ 100)
    /\ channelMeans (data (uniformSample 128 128 128)) = (ofZ 128, ofZ 128, ofZ 128)
    /\ (forall sample : ImageData,
          needsColorCorrection true [ReaderLoad; ImgLoad sample]
          = Resolved (hasColorCastOf (channelMeans (data sample)))).
Proof.
  intros avgR avgG avgB overallAvg threshold.
  split; [|split; [|split; [|split; [|split]]]].
  - unfold hasColorCastOf, deviates, thresholdOf, overallAvgOf, mean3.
    fold overallAvg. fold threshold.
    rewrite !orb_true_iff. tauto.
  - vm_compute. reflexivity.
  - vm_compute. reflexivity.
  - vm_compute. reflexivity.
  - vm_compute. reflexivity.
  - intros sample. reflexivity.
Qed.

(** *** The promise of [needsColorCorrection] *)

Lemma heuristic_step_idle (t : task) (e : event) : stage t = Idle -> step t e = t.
Proof. intros H. unfold step. now rewrite H. Qed.

Lemma heuristic_run_idle (events : list event) (t : task) :
  stage t = Idle -> fold_left step events t = t.
Proof.
  induction events as [|e events IH]; simpl; intros H; [reflexivity|].
  rewrite heuristic_step_idle by assumption. now apply IH.
Qed.

Lemma step_unrejected (t : task) (e : event) :
  unrejected t -> unrejected (step t e).
Proof.
  unfold unrejected, step.
  destruct t as [[| |] [|v|r]], e; simpl; auto.
Qed.

Lemma run_unrejected (events : list event) (t : task) :
  unrejected t -> unrejected (fold_left step events t).
Proof.
  revert t. induction events as [|e events IH]; simpl; intros t H; [assumption|].
  apply IH, step_unrejected, H.
Qed.

(** C10.  [needsColorCorrection] never rejects: whatever the host reports,
    the promise is pending or resolved; without a drawing context, when the
    file cannot be read and when the image cannot be decoded, it is resolved
    to [false], whatever is reported afterwards -- the very value a decoded
    image without a cast resolves to. *)
Theorem needsColorCorrection_never_rejects :
  (forall (ctx : bool) (events : list event) (reason : string),
      needsColorCorrection ctx events <> Rejected reason)
  /\ (forall events : list event,
        needsColorCorrection false events = Resolved false)
  /\ (forall rest : list event,
        needsColorCorrection true (ReaderError :: rest) = Resolved false)
  /\ (forall rest : list event,
        needsColorCorrection true (ReaderLoad :: ImgError :: rest) = Resolved false)
  /\ needsColorCorrection true [ReaderLoad; ImgLoad (uniformSample 128 128 128)]
     = needsColorCorrection true [ReaderLoad; ImgError].
Proof.
  split; [|split; [|split; [|split]]].
  - intros ctx events reason H.
    assert (U : unrejected (fold_left step events (start ctx))).
    { apply run_unrejected. unfold unrejected, start. now destruct ctx. }
    unfold needsColorCorrection in H. unfold unrejected in U.
    now rewrite H in U.
  - intros events. unfold needsColorCorrection. now rewrite heuristic_run_idle.
  - intros rest. unfold needsColorCorrection. simpl. now rewrite heuristic_run_idle.
  - intros rest. unfold needsColorCorrection. simpl. now rewrite heuristic_run_idle.
  - unfold needsColorCorrection.
    cbv [fold_left step start stage promise settle].
    now rewrite hasColorCast_gray128.
Qed.

End HeuristicFacts.

(** ** ColorCorrector: the gains *)

Module GainFacts.
Import JS JSOrder JSFacts ColorCorrection.

Lemma clampedScale_cases (scale : number) :
  clampedScale scale
  = if is_nan scale then NaN
    else if lt scale maxCorrection
         then if lt minCorrection scale then scale else minCorrection
         else maxCorrection.
Proof.
  unfold clampedScale.
  let hi := eval vm_compute in maxCorrection in change maxCorrection with hi.
  let lo := eval vm_compute in minCorrection in change minCorrection with lo.
  rewrite Math_min_finite.
  destruct (is_nan scale) eqn:Hn; [reflexivity|].
  destruct (lt scale _) eqn:Hlt.
  - rewrite Math_max_finite, Hn. reflexivity.
  - vm_compute. reflexivity.
Qed.

Lemma clampedScale_within (scale : number) :
  is_nan scale = false ->
  within minCorrection maxCorrection (clampedScale scale) = true.
Proof.
  intros Hn. rewrite clampedScale_cases, Hn. unfold within.
  destruct (lt scale maxCorrection) eqn:H1.
  - destruct (lt minCorrection scale) eqn:H2.
    + now rewrite (lt_le _ _ H1), (lt_le _ _ H2).
    + vm_compute. reflexivity.
  - vm_compute. reflexivity.
Qed.

Lemma clampedScale_nan (scale : number) :
  is_nan (clampedScale scale) = is_nan scale.
Proof.
  rewrite clampedScale_cases.
  destruct (is_nan scale) eqn:Hn; [reflexivity|].
  destruct (lt scale maxCorrection); [|reflexivity].
  destruct (lt minCorrection scale); [assumption|reflexivity].
Qed.

Lemma clampedScale_clamped_or_nan (scale : number) :
  clamped_or_nan (clampedScale scale) = true.
Proof.
  unfold clamped_or_nan. rewrite clampedScale_nan.
  destruct (is_nan scale) eqn:Hn; [reflexivity|].
  now rewrite clampedScale_within.
Qed.

Lemma mean3_not_nan (a b c : number) :
  is_finite a = true -> is_finite b = true -> is_finite c = true ->
  is_nan (mean3 a b c) = false.
Proof.
  intros Ha Hb Hc. unfold mean3.
  let three := eval vm_compute in (ofZ 3) in change (ofZ 3) with three.
  apply div_finite_not_nan, add_not_nan; [|assumption].
  apply add_not_nan; [|assumption]. now apply is_finite_not_nan.
Qed.

Lemma scaleOf_not_nan (grayTarget avg : number) :
  is_nan grayTarget = false -> is_finite avg = true ->
  is_nan (scaleOf grayTarget avg) = false.
Proof.
  intros Hg Ha. unfold scaleOf.
  destruct (gt avg (dec 1 100)) eqn:Hgt; [|reflexivity].
  destruct avg as [s|s| |s m e]; try discriminate.
  now apply div_finite_not_nan.
Qed.

(** X1.  Whatever [Math.pow] returns and whatever the bitmap, each of the
    three clamped gains is NaN or lies between 0.6 and 1.5; the clamp
    [Math.max(0.6, Math.min(1.5, scale))] turns a number into a number of
    that interval, and lets NaN, and only NaN, through as NaN. *)
Theorem gains_are_clamped_or_nan :
  forall (Math_pow : number -> number -> number) (d : list Z),
    let g := gains Math_pow d in
    let clamp (scale : number) := Math_max (dec 6 10) (Math_min (dec 15 10) scale) in
    let ok (gain : number) :=
      is_nan gain || (le (dec 6 10) gain && le gain (dec 15 10)) in
    ok (fst (fst g)) = true
    /\ ok (snd (fst g)) = true
    /\ ok (snd g) = true
    /\ (forall scale : number, is_nan (clamp scale) = is_nan scale)
    /\ (forall scale : number, ok (clamp scale) = true).
Proof.
  intros Math_pow d g clamp ok. subst g clamp ok. cbv beta.
  unfold gains, gainsOf.
  destruct (illuminant Math_pow d) as [[aR aG] aB]. cbn [fst snd].
  repeat split; try apply clampedScale_clamped_or_nan.
  apply clampedScale_nan.
Qed.

(** X2.  When the three illuminant estimates are finite numbers (neither NaN
    nor infinite), none of the gains is NaN: each lies in [[0.6, 1.5]]. *)
Theorem finite_estimates_give_clamped_gains :
  forall (Math_pow : number -> number -> number) (d : list Z) (avgR avgG avgB : number),
    illuminant Math_pow d = (avgR, avgG, avgB) ->
    is_finite avgR = true -> is_finite avgG = true -> is_finite avgB = true ->
    let g := gains Math_pow d in
    let ok (gain : number) := le (dec 6 10) gain && le gain (dec 15 10) in
    ok (fst (fst g)) = true /\ ok (snd (fst g)) = true /\ ok (snd g) = true.
Proof.
  intros Math_pow d avgR avgG avgB Hi HR HG HB g ok. subst g ok. cbv beta.
  unfold gains. rewrite Hi. unfold gainsOf. cbn [fst snd].
  pose proof (mean3_not_nan _ _ _ HR HG HB) as Hm.
  repeat split; apply clampedScale_within, scaleOf_not_nan; assumption.
Qed.

Lemma finite_estimates_give_clamped_gains_witness :
  let d := [200; 120; 90; 255; 30; 60; 250; 128] in
  let g := gains PowRef.pow_ref d in
  let ok (gain : number) := le (dec 6 10) gain && le gain (dec 15 10) in
  ok (fst (fst g)) = true /\ ok (snd (fst g)) = true /\ ok (snd g) = true.
Proof.
  intros d g.
  apply (finite_estimates_give_clamped_gains PowRef.pow_ref d
           (fst (fst (illuminant PowRef.pow_ref d)))
           (snd (fst (illuminant PowRef.pow_ref d)))
           (snd (illuminant PowRef.pow_ref d)));
    vm_compute; reflexivity.
Defined.

Lemma guard_gives_unit_gain (grayTarget avg : number) :
  gt avg (dec 1 100) = false -> clampedScale (scaleOf grayTarget avg) = ofZ 1.
Proof.
  intros H. unfold scaleOf. rewrite H. vm_compute. reflexivity.
Qed.

Lemma correctedChannel_unit_bytes :
  forallb (fun v => correctedChannel v (ofZ 1) =? v) bytes255 = true.
Proof. vm_compute. reflexivity. Qed.

Lemma correctedChannel_unit (v : Z) : byte v -> correctedChannel v (ofZ 1) = v.
Proof.
  intros Hv. pose proof correctedChannel_unit_bytes as H.
  rewrite forallb_forall in H. apply Z.eqb_eq, H, in_bytes255, Hv.
Qed.

(** X3.  With the three gains equal to 1 the apply stage changes nothing:
    each byte [v] is stored back as [round(v * 1) = v]. *)
Theorem unit_gains_change_nothing :
  forall d : list Z,
    Forall byte d -> correctPixels (ofZ 1) (ofZ 1) (ofZ 1) d = d.
Proof.
  intros d.
  induction d as [| ? | ? ? | ? ? ? | r g b a rest IH] using pixel_ind;
    try reflexivity.
  intros H.
  inversion_clear H as [|? ? Hr H1]. inversion_clear H1 as [|? ? Hg H2].
  inversion_clear H2 as [|? ? Hb H3]. inversion_clear H3 as [|? ? _ H4].
  cbn [correctPixels].
  rewrite !correctedChannel_unit by assumption. now rewrite IH.
Qed.

Lemma unit_gains_change_nothing_witness :
  correctPixels (ofZ 1) (ofZ 1) (ofZ 1) [0; 127; 255; 9; 31] = [0; 127; 255; 9; 31].
Proof.
  apply unit_gains_change_nothing. repeat constructor; unfold byte; lia.
Defined.

(** X4.  The guard against division by zero: when none of the three
    estimates is above 0.01 (a NaN estimate included), the three gains are
    exactly 1 and [applyShadesOfGray] returns the bitmap as it was. *)
Theorem dark_image_is_unchanged :
  forall (Math_pow : number -> number -> number) (imageData : ImageData)
         (avgR avgG avgB : number),
    Forall byte (data imageData) ->
    illuminant Math_pow (data imageData) = (avgR, avgG, avgB) ->
    gt avgR (dec 1 100) = false ->
    gt avgG (dec 1 100) = false ->
    gt avgB (dec 1 100) = false ->
    gains Math_pow (data imageData) = (ofZ 1, ofZ 1, ofZ 1)
    /\ applyShadesOfGray Math_pow imageData = imageData.
Proof.
  intros Math_pow [w h d] avgR avgG avgB Hd Hi HR HG HB. simpl in *.
  assert (Hg : gains Math_pow d = (ofZ 1, ofZ 1, ofZ 1)).
  { unfold gains. rewrite Hi. unfold gainsOf.
    now rewrite !guard_gives_unit_gain by assumption. }
  split; [exact Hg|].
  unfold applyShadesOfGray. cbn [data width height]. rewrite Hg.
  cbv beta iota. now rewrite unit_gains_change_nothing.
Qed.

Lemma dark_image_is_unchanged_witness :
  let imageData := {| width := 2; height := 1; data := [2; 1; 0; 255; 1; 2; 2; 40] |} in
  gains PowRef.pow_ref (data imageData) = (ofZ 1, ofZ 1, ofZ 1)
  /\ applyShadesOfGray PowRef.pow_ref imageData = imageData.
Proof.
  intros imageData.
  apply (dark_image_is_unchanged PowRef.pow_ref imageData
           (fst (fst (illuminant PowRef.pow_ref (data imageData))))
           (snd (fst (illuminant PowRef.pow_ref (data imageData))))
           (snd (illuminant PowRef.pow_ref (data imageData)))).
  - repeat constructor; unfold byte; lia.
  - vm_compute. reflexivity.
  - vm_compute. reflexivity.
  - vm_compute. reflexivity.
  - vm_compute. reflexivity.
Defined.

Section Sums.

Variable Math_pow : number -> number -> number.

Lemma channelSums_gray (p : number) (d : list Z) :
  gray d ->
  forall s : number, exists s' : number,
    channelSums Math_pow p d (s, s, s) = (s', s', s').
Proof.
  unfold gray. by_pixels d; try (intros _ s; now exists s).
  intros H s. inversion_clear H as [|? ? Hpx Hrest].
  destruct Hpx as [Hrg Hgb]. subst.
  apply IH, Hrest.
Qed.

Lemma correctPixels_gray (gain : number) (d : list Z) :
  gray d -> gray (correctPixels gain gain gain d).
Proof.
  unfold gray. by_pixels d.
  intros H. inversion_clear H as [|? ? Hpx Hrest].
  destruct Hpx as [Hrg Hgb]. subst.
  constructor; [now split|]. apply IH, Hrest.
Qed.

Lemma channelSums_rgb (p : number) (d : list Z) :
  forall (d' : list Z) (sums : number * number * number),
    map rgbOf (pixelsOf d) = map rgbOf (pixelsOf d') ->
    channelSums Math_pow p d sums = channelSums Math_pow p d' sums.
Proof.
  induction d as [| ? | ? ? | ? ? ? | r g b a rest IH] using pixel_ind;
    intros [|r' [|g' [|b' [|a' rest']]]] sums H; simpl in *;
    try reflexivity; try discriminate.
  destruct sums as [[sR sG] sB]. inversion H; subst. now apply IH.
Qed.

End Sums.

Lemma channelTotals_rgb (d : list Z) :
  forall (d' : list Z) (avg : number * number * number),
    map rgbOf (pixelsOf d) = map rgbOf (pixelsOf d') ->
    channelTotals d avg = channelTotals d' avg.
Proof.
  induction d as [| ? | ? ? | ? ? ? | r g b a rest IH] using pixel_ind;
    intros [|r' [|g' [|b' [|a' rest']]]] avg H; simpl in *;
    try reflexivity; try discriminate.
  destruct avg as [[aR aG] aB]. inversion H; subst. now apply IH.
Qed.

(** X5.  On a bitmap whose pixels all have R = G = B, the three channels get
    one and the same gain, whatever [Math.pow] is, and the corrected bitmap
    still has R = G = B in every pixel. *)
Theorem gray_bitmap_stays_gray :
  forall (Math_pow : number -> number -> number) (imageData : ImageData),
    gray (data imageData) ->
    (exists gain : number, gains Math_pow (data imageData) = (gain, gain, gain))
    /\ gray (data (applyShadesOfGray Math_pow imageData)).
Proof.
  intros Math_pow [w h d] Hg. simpl in *.
  assert (He : exists gain, gains Math_pow d = (gain, gain, gain)).
  { unfold gains, illuminant.
    destruct (channelSums_gray Math_pow SHADES_OF_GRAY_NORM d Hg (ofZ 0)) as [s Hs].
    rewrite Hs. unfold gainsOf. eexists. reflexivity. }
  split; [exact He|].
  destruct He as [gain He]. unfold applyShadesOfGray. cbn [data width height].
  rewrite He. cbn [data]. now apply correctPixels_gray.
Qed.

Lemma gray_bitmap_stays_gray_witness :
  let imageData := {| width := 2; height := 1; data := [90; 90; 90; 255; 17; 17; 17; 0] |} in
  (exists gain : number, gains PowRef.pow_ref (data imageData) = (gain, gain, gain))
  /\ gray (data (applyShadesOfGray PowRef.pow_ref imageData)).
Proof.
  intros imageData. apply gray_bitmap_stays_gray.
  unfold gray. simpl. repeat constructor.
Defined.

(** X6.  Alpha takes no part in the analysis: two data arrays of the same
    length whose pixels have the same R, G and B get the same illuminant
    estimates and gains from [applyShadesOfGray], and the same channel means
    and verdict from the heuristic of [needsColorCorrection]. *)
Theorem alpha_never_influences_the_analysis :
  forall (Math_pow : number -> number -> number) (d d' : list Z),
    length d = length d' ->
    map rgbOf (pixelsOf d) = map rgbOf (pixelsOf d') ->
    illuminant Math_pow d = illuminant Math_pow d'
    /\ gains Math_pow d = gains Math_pow d'
    /\ channelMeans d = channelMeans d'
    /\ hasColorCast d = hasColorCast d'.
Proof.
  intros Math_pow d d' Hl Hp.
  assert (Hi : illuminant Math_pow d = illuminant Math_pow d').
  { unfold illuminant, pixelCount. rewrite Hl.
    now rewrite (channelSums_rgb Math_pow _ d d'). }
  assert (Hm : channelMeans d = channelMeans d').
  { unfold channelMeans, pixelCount. rewrite Hl.
    now rewrite (channelTotals_rgb d d'). }
  repeat split; try assumption.
  - unfold gains. now rewrite Hi.
  - unfold hasColorCast. now rewrite Hm.
Qed.

Lemma alpha_never_influences_the_analysis_witness :
  let d := [200; 120; 90; 255; 30; 60; 250; 128] in
  let d' := [200; 120; 90; 0; 30; 60; 250; 7] in
  illuminant PowRef.pow_ref d = illuminant PowRef.pow_ref d'
  /\ gains PowRef.pow_ref d = gains PowRef.pow_ref d'
  /\ channelMeans d = channelMeans d'
  /\ hasColorCast d = hasColorCast d'.
Proof.
  intros d d'. apply alpha_never_influences_the_analysis; reflexivity.
Defined.

Lemma correctedChannel_zero (gain : number) : correctedChannel 0 gain = 0.
Proof. destruct gain as [[|]|[|]| |[|] m e]; reflexivity. Qed.

(** X7.  A channel that is 0 stays 0 in the corrected bitmap, whatever the
    gains are (NaN and the infinities included): pixel by pixel, R, G and B
    of the result are 0 wherever they were 0. *)
Theorem zero_channels_stay_zero :
  forall (Math_pow : number -> number -> number) (imageData : ImageData),
    Forall2
      (fun '(r, g, b, _) '(r', g', b', _) =>
         (r = 0 -> r' = 0) /\ (g = 0 -> g' = 0) /\ (b = 0 -> b' = 0))
      (pixelsOf (data imageData))
      (pixelsOf (data (applyShadesOfGray Math_pow imageData))).
Proof.
  intros Math_pow [w h d]. unfold applyShadesOfGray. cbn [width height data].
  destruct (gains Math_pow d) as [[sr sg] sb]. cbn [data].
  induction d as [| ? | ? ? | ? ? ? | r g b a rest IH] using pixel_ind;
    try constructor.
  - repeat split; intros ->; apply correctedChannel_zero.
  - exact IH.
Qed.

(** X8.  A bitmap whose pixels are all black (R = G = B = 0, any alpha) is
    returned by [applyShadesOfGray] as it was, whatever [Math.pow] is. *)
Theorem black_stays_black :
  forall (Math_pow : number -> number -> number) (imageData : ImageData),
    black (data imageData) ->
    applyShadesOfGray Math_pow imageData = imageData.
Proof.
  intros Math_pow [w h d] H. unfold applyShadesOfGray, black in *.
  cbn [width height data] in *.
  destruct (gains Math_pow d) as [[sr sg] sb]. f_equal.
  induction d as [| ? | ? ? | ? ? ? | r g b a rest IH] using pixel_ind;
    try reflexivity.
  cbn [pixelsOf] in H. inversion_clear H as [|? ? Hpx Hrest].
  destruct Hpx as [-> [-> ->]].
  cbn [correctPixels]. rewrite !correctedChannel_zero. now rewrite IH.
Qed.

Lemma black_stays_black_witness :
  let imageData := {| width := 2; height := 1; data := [0; 0; 0; 255; 0; 0; 0; 17] |} in
  applyShadesOfGray PowRef.pow_ref imageData = imageData.
Proof.
  intros imageData. apply black_stays_black.
  unfold black. simpl. repeat constructor.
Defined.

End GainFacts.

(** ** WatermarkCompositor: more on the chroma key *)

Module KeyFacts.
Import JS JSOrder JSFacts Watermark.

Section ChromaKey.

Variable Math_pow : number -> number -> number.

Lemma keyOut_nonpositive (targetColor : number * number * number)
    (tolerance : number) (d : list Z) :
  lt (ofZ 0) tolerance = false -> keyOut Math_pow targetColor tolerance d = d.
Proof.
  intros H. by_pixels d. rewrite IH.
  unfold dist. destruct targetColor as [[t0 t1] t2].
  now rewrite nothing_below_a_square_root.
Qed.

Lemma keyOut_commute (k1 k2 : number * number * number) (t1 t2 : number)
    (d : list Z) :
  keyOut Math_pow k1 t1 (keyOut Math_pow k2 t2 d)
  = keyOut Math_pow k2 t2 (keyOut Math_pow k1 t1 d).
Proof.
  by_pixels d. rewrite IH.
  now destruct (lt (dist Math_pow r g b k1) t1), (lt (dist Math_pow r g b k2) t2).
Qed.

End ChromaKey.

Lemma sub_self_bytes :
  forallb
    (fun v => match sub (ofZ v) (ofZ v) with S754_zero false => true | _ => false end)
    bytes255 = true.
Proof. vm_compute. reflexivity. Qed.

Lemma sub_self (v : Z) : byte v -> sub (ofZ v) (ofZ v) = ofZ 0.
Proof.
  intros Hv. pose proof sub_self_bytes as H.
  rewrite forallb_forall in H. specialize (H v (in_bytes255 v Hv)).
  destruct (sub (ofZ v) (ofZ v)) as [[|]| | |]; try discriminate. reflexivity.
Qed.

(** X9.  A tolerance that is not above zero (zero, negative or NaN) keys
    nothing: the distance is a square root, never below such a tolerance, so
    [makeTransparent] returns the bitmap as it was, whatever the key colour
    and whatever [Math.pow] is. *)
Theorem tolerance_not_above_zero_keys_nothing :
  forall (Math_pow : number -> number -> number) (ctx : ImageData)
         (targetColor : number * number * number) (tolerance : number),
    lt (ofZ 0) tolerance = false ->
    makeTransparent Math_pow ctx targetColor tolerance = ctx.
Proof.
  intros Math_pow [w h d] targetColor tolerance H.
  unfold makeTransparent. simpl. now rewrite keyOut_nonpositive.
Qed.

Lemma tolerance_not_above_zero_keys_nothing_witness :
  let ctx := {| width := 1; height := 2; data := [240; 230; 74; 255; 0; 0; 0; 255] |} in
  makeTransparent PowRef.pow_ref ctx logoKey NaN = ctx
  /\ makeTransparent PowRef.pow_ref ctx logoKey (ofZ 0) = ctx.
Proof.
  intros ctx.
  split; apply tolerance_not_above_zero_keys_nothing; reflexivity.
Defined.

(** X10.  Two runs of [makeTransparent] commute: keying a bitmap for one
    colour and tolerance and then for another gives the same bitmap as the
    other order, since a run reads only R, G, B and writes only alpha. *)
Theorem makeTransparent_commutes :
  forall (Math_pow : number -> number -> number) (ctx : ImageData)
         (key1 key2 : number * number * number) (tolerance1 tolerance2 : number),
    makeTransparent Math_pow (makeTransparent Math_pow ctx key2 tolerance2)
      key1 tolerance1
    = makeTransparent Math_pow (makeTransparent Math_pow ctx key1 tolerance1)
        key2 tolerance2.
Proof.
  intros. unfold makeTransparent. simpl. now rewrite keyOut_commute.
Qed.

(** X11.  A pixel of exactly the key colour is at distance 0 and is made
    transparent by every tolerance above zero, provided [Math.pow(0, 2)] is 0
    as ECMAScript requires. *)
Theorem key_colour_itself_is_keyed_out :
  forall (Math_pow : number -> number -> number) (r g b a : Z) (tolerance : number),
    Math_pow (ofZ 0) (ofZ 2) = ofZ 0 ->
    byte r -> byte g -> byte b ->
    lt (ofZ 0) tolerance = true ->
    dist Math_pow r g b (ofZ r, ofZ g, ofZ b) = ofZ 0
    /\ keyedPixel Math_pow (ofZ r, ofZ g, ofZ b) tolerance (r, g, b, a) = (r, g, b, 0).
Proof.
  intros Math_pow r g b a tolerance Hpow Hr Hg Hb Ht.
  assert (Hd : dist Math_pow r g b (ofZ r, ofZ g, ofZ b) = ofZ 0).
  { unfold dist. rewrite !sub_self by assumption. rewrite Hpow.
    vm_compute. reflexivity. }
  split; [exact Hd|].
  unfold keyedPixel. now rewrite Hd, Ht.
Qed.

Lemma key_colour_itself_is_keyed_out_witness :
  dist PowRef.pow_ref 240 230 74 (ofZ 240, ofZ 230, ofZ 74) = ofZ 0
  /\ keyedPixel PowRef.pow_ref (ofZ 240, ofZ 230, ofZ 74) (ofZ 100) (240, 230, 74, 255)
     = (240, 230, 74, 0).
Proof.
  apply key_colour_itself_is_keyed_out;
    try (unfold byte; lia); vm_compute; reflexivity.
Defined.

End KeyFacts.

(** ** correctImageColors *)

Module CorrectorFacts.
Import JS ColorCorrection CorrectImageColors.

Section Corrector.

Variable Math_pow : number -> number -> number.
Variable file : File.

Lemma corrector_step_idle (t : task) (e : event) :
  stage t = Idle -> step Math_pow file t e = t.
Proof. intros H. unfold step. now rewrite H. Qed.

Lemma corrector_run_idle (events : list event) (t : task) :
  stage t = Idle -> fold_left (step Math_pow file) events t = t.
Proof.
  induction events as [|e events IH]; simpl; intros H; [reflexivity|].
  rewrite corrector_step_idle by assumption. now apply IH.
Qed.

Lemma corrected_more (events : list event) (e : event) (f : File) :
  corrected Math_pow file events f -> corrected Math_pow file (events ++ [e]) f.
Proof.
  intros [img [Hin Hf]]. exists img. split; [|exact Hf].
  apply in_or_app. now left.
Qed.

Lemma step_consistent (events : list event) (t : task) (e : event) :
  consistent Math_pow file events t ->
  consistent Math_pow file (events ++ [e]) (step Math_pow file t e).
Proof.
  unfold consistent, step.
  destruct t as [[| |cd|] p]; cbn [stage promise].
  - intros ->. destruct e; simpl; unfold rejection; auto.
  - intros ->. destruct e; simpl; unfold rejection; auto.
    split; [reflexivity|]. exists img. split; [|reflexivity].
    apply in_or_app. right. now left.
  - intros [-> [img [Hin Hcd]]]. destruct e as [| | | |[|]]; simpl.
    1-4: (split; [reflexivity|]; exists img; split; [|exact Hcd];
          apply in_or_app; now left).
    + exists img. split; [apply in_or_app; now left|now rewrite Hcd].
    + unfold rejection. auto.
  - destruct p as [|f|reason]; auto. apply corrected_more.
Qed.

Lemma run_consistent (events : list event) (ctx : bool) :
  consistent Math_pow file events (fold_left (step Math_pow file) events (start ctx)).
Proof.
  induction events as [|e events IH] using rev_ind.
  - unfold consistent, start, rejection. destruct ctx; simpl; auto.
  - rewrite fold_left_app. simpl. now apply step_consistent.
Qed.

Lemma settled_idle (events : list event) (ctx : bool) :
  promise (fold_left (step Math_pow file) events (start ctx)) <> Pending ->
  stage (fold_left (step Math_pow file) events (start ctx)) = Idle.
Proof.
  intros H. pose proof (run_consistent events ctx) as C.
  unfold consistent in C.
  destruct (stage _); try reflexivity; try contradiction.
  now destruct C.
Qed.

End Corrector.

(** X12.  The five ways [correctImageColors] settles, whatever the host
    reports afterwards: read, decoded and encoded, it resolves with a file
    of the same name, of type [file.type] (or image/jpeg when that is
    empty), holding the corrected bitmap encoded for that type at quality
    0.95; without a context, when the file cannot be read, when the image
    cannot be decoded and when [toBlob] yields no blob, it rejects with the
    error of that step. *)
Theorem correctImageColors_outcomes :
  forall (Math_pow : number -> number -> number) (file : File)
         (img : ImageData) (rest : list event),
    correctImageColors Math_pow file true
      (ReaderLoad :: ImgLoad img :: BlobReady true :: rest)
    = Resolved
        {| name := name file;
           type := orElse (type file) "image/jpeg";
           body := Encoded (applyShadesOfGray Math_pow img)
                     (orElse (type file) "image/jpeg") (dec 95 100) |}
    /\ correctImageColors Math_pow file false rest
       = Rejected "Could not get canvas context"
    /\ correctImageColors Math_pow file true (ReaderError :: rest)
       = Rejected "Failed to read file"
    /\ correctImageColors Math_pow file true (ReaderLoad :: ImgError :: rest)
       = Rejected "Failed to load image"
    /\ correctImageColors Math_pow file true
         (ReaderLoad :: ImgLoad img :: BlobReady false :: rest)
       = Rejected "Failed to create corrected image".
Proof.
  intros. unfold correctImageColors.
  repeat split; cbn [fold_left start step stage promise settle];
    now rewrite corrector_run_idle.
Qed.

(** X13.  Whatever the host reports, a file that [correctImageColors]
    resolves with has the name of the upload and its type (image/jpeg when
    the upload has none), and holds the correction of an image that was
    decoded, which has the width, height and data length of that image. *)
Theorem corrected_file_is_the_upload_corrected :
  forall (Math_pow : number -> number -> number) (file : File) (ctx : bool)
         (events : list event) (f : File),
    correctImageColors Math_pow file ctx events = Resolved f ->
    name f = name file
    /\ type f = orElse (type file) "image/jpeg"
    /\ exists img : ImageData,
         In (ImgLoad img) events
         /\ body f = Encoded (applyShadesOfGray Math_pow img)
                       (orElse (type file) "image/jpeg") (dec 95 100)
         /\ width (applyShadesOfGray Math_pow img) = width img
         /\ height (applyShadesOfGray Math_pow img) = height img
         /\ length (data (applyShadesOfGray Math_pow img)) = length (data img).
Proof.
  intros Math_pow file ctx events f H.
  pose proof (run_consistent Math_pow file events ctx) as C.
  unfold correctImageColors in H. unfold consistent in C. rewrite H in C.
  destruct (stage _); try discriminate; try (destruct C; discriminate).
  destruct C as [img [Hin ->]].
  split; [reflexivity|]. split; [reflexivity|].
  exists img. split; [exact Hin|]. split; [reflexivity|].
  unfold applyShadesOfGray.
  destruct (gains Math_pow (data img)) as [[sr sg] sb]. cbn [width height data].
  repeat split. apply ColorCorrectionFacts.correctPixels_length.
Qed.

Lemma corrected_file_is_the_upload_corrected_witness :
  let file := {| name := "cloth.png"; type := EmptyString; body := Uploaded [137; 80; 78; 71] |} in
  let img := {| width := 2; height := 1; data := [200; 120; 90; 255; 30; 60; 250; 128] |} in
  let events := [ReaderLoad; ImgLoad img; BlobReady true] in
  let f := correctedFile file (applyShadesOfGray PowRef.pow_ref img) in
  name f = name file
  /\ type f = orElse (type file) "image/jpeg"
  /\ exists img : ImageData,
       In (ImgLoad img) events
       /\ body f = Encoded (applyShadesOfGray PowRef.pow_ref img)
                     (orElse (type file) "image/jpeg") (dec 95 100)
       /\ width (applyShadesOfGray PowRef.pow_ref img) = width img
       /\ height (applyShadesOfGray PowRef.pow_ref img) = height img
       /\ length (data (applyShadesOfGray PowRef.pow_ref img)) = length (data img).
Proof.
  intros file img events f.
  apply (corrected_file_is_the_upload_corrected PowRef.pow_ref file true events f).
  reflexivity.
Defined.

(** X14.  Whatever the host reports, [correctImageColors] rejects with one
    of four errors only: no canvas context, file not read, image not loaded,
    corrected image not created. *)
Theorem correctImageColors_rejects_for_four_reasons :
  forall (Math_pow : number -> number -> number) (file : File) (ctx : bool)
         (events : list event) (reason : string),
    correctImageColors Math_pow file ctx events = Rejected reason ->
    reason = "Could not get canvas context"%string
    \/ reason = "Failed to read file"%string
    \/ reason = "Failed to load image"%string
    \/ reason = "Failed to create corrected image"%string.
Proof.
  intros Math_pow file ctx events reason H.
  pose proof (run_consistent Math_pow file events ctx) as C.
  unfold correctImageColors in H. unfold consistent in C. rewrite H in C.
  destruct (stage _); try discriminate; try (destruct C; discriminate).
  exact C.
Qed.

Lemma correctImageColors_rejects_for_four_reasons_witness :
  let reason := "Failed to load image"%string in
  reason = "Could not get canvas context"%string
  \/ reason = "Failed to read file"%string
  \/ reason = "Failed to load image"%string
  \/ reason = "Failed to create corrected image"%string.
Proof.
  intros reason.
  apply (correctImageColors_rejects_for_four_reasons PowRef.pow_ref
           {| name := "cloth.png"; type := "image/png"; body := Uploaded [] |}
           true [ReaderLoad; ImgError; ReaderError] reason).
  reflexivity.
Defined.

(** X15.  Once the promise of [correctImageColors] is settled, nothing the
    host reports later changes it. *)
Theorem correctImageColors_settles_once :
  forall (Math_pow : number -> number -> number) (file : File) (ctx : bool)
         (events later : list event),
    correctImageColors Math_pow file ctx events <> Pending ->
    correctImageColors Math_pow file ctx (events ++ later)
    = correctImageColors Math_pow file ctx events.
Proof.
  intros Math_pow file ctx events later H.
  unfold correctImageColors in *. rewrite fold_left_app.
  now rewrite corrector_run_idle by now apply settled_idle.
Qed.

Lemma correctImageColors_settles_once_witness :
  let file := {| name := "cloth.png"; type := "image/png"; body := Uploaded [] |} in
  let img := {| width := 1; height := 1; data := [200; 120; 90; 255] |} in
  correctImageColors PowRef.pow_ref file true
    ([ReaderLoad; ImgLoad img; BlobReady false] ++ [BlobReady true; ImgError])
  = correctImageColors PowRef.pow_ref file true [ReaderLoad; ImgLoad img; BlobReady false].
Proof.
  intros file img.
  apply (correctImageColors_settles_once PowRef.pow_ref file true
           [ReaderLoad; ImgLoad img; BlobReady false] [BlobReady true; ImgError]).
  discriminate.
Defined.

End CorrectorFacts.

(** ** The promise of addWatermark, on every run *)

Module CompositorFacts.
Import JS JSOrder JSFacts Watermark WatermarkFacts.

Section Compositor.

Variable Math_pow : number -> number -> number.
Variable h : host.
Variable watermarkText : string.

Lemma watermarked_more (events : list event) (e : event) (c : Canvas) :
  watermarked Math_pow h watermarkText events c ->
  watermarked Math_pow h watermarkText (events ++ [e]) c.
Proof.
  intros [Hc [mainImg [Hin H]]]. split; [exact Hc|].
  exists mainImg. split; [apply in_or_app; now left|].
  destruct H as [H|[Hl [logoImg [Hin' H]]]]; [now left|right].
  split; [exact Hl|]. exists logoImg. split; [apply in_or_app; now left|exact H].
Qed.

Lemma mainFailed_more (events : list event) (e : event) (reason : string) :
  mainFailed h events reason -> mainFailed h (events ++ [e]) reason.
Proof.
  intros [[Hr [Hc [mainImg Hin]]]|[Hr Hin]]; [left|right].
  - repeat split; try assumption. exists mainImg. apply in_or_app. now left.
  - split; [assumption|]. apply in_or_app. now left.
Qed.

Lemma step_wellFormed (events : list event) (t : task) (e : event) :
  wellFormed Math_pow h watermarkText events t ->
  wellFormed Math_pow h watermarkText (events ++ [e])
    (step Math_pow h watermarkText t e).
Proof.
  unfold wellFormed, step.
  destruct t as [[|mainImg canvas|] p]; cbn [stage promise].
  - intros ->. destruct e; simpl; auto.
    + destruct (ctx h) eqn:Hc; simpl.
      * repeat split. apply in_or_app. right. now left.
      * left. repeat split; try assumption. exists mainImg.
        apply in_or_app. right. now left.
    + right. split; [reflexivity|]. apply in_or_app. right. now left.
  - intros [-> [Hc [Hin ->]]].
    assert (Hin' : In (MainLoad mainImg) (events ++ [e])) by (apply in_or_app; now left).
    destruct e; simpl; auto.
    + destruct (logoCtx h) eqn:Hl; simpl; auto.
      split; [exact Hc|]. exists mainImg. split; [exact Hin'|]. right.
      split; [exact Hl|]. exists logoImg. split; [|reflexivity].
      apply in_or_app. right. now left.
    + split; [exact Hc|]. exists mainImg. split; [exact Hin'|]. now left.
  - destruct p as [|c|reason]; auto.
    + apply watermarked_more.
    + apply mainFailed_more.
Qed.

Lemma run_wellFormed (events : list event) :
  wellFormed Math_pow h watermarkText events
    (fold_left (step Math_pow h watermarkText) events start).
Proof.
  induction events as [|e events IH] using rev_ind.
  - reflexivity.
  - rewrite fold_left_app. simpl. now apply step_wellFormed.
Qed.

Lemma settled_is_idle (events : list event) :
  promise (fold_left (step Math_pow h watermarkText) events start) <> Pending ->
  stage (fold_left (step Math_pow h watermarkText) events start) = Idle.
Proof.
  intros H. pose proof (run_wellFormed events) as W. unfold wellFormed in W.
  destruct (stage _); try reflexivity; try contradiction.
  now destruct W.
Qed.

End Compositor.

(** X16.  When the main image and the logo load but no 2D context is to be
    had for the logo canvas, the [onload] handler of the logo returns without
    settling: the promise of [addWatermark] stays pending, whatever the host
    reports afterwards. *)
Theorem missing_logo_context_leaves_the_promise_pending :
  forall (Math_pow : number -> number -> number) (watermarkText : string)
         (mainImg logoImg : ImageData) (rest : list event),
    addWatermark Math_pow {| ctx := true; logoCtx := false |} watermarkText
      (MainLoad mainImg :: LogoLoad logoImg :: rest)
    = Pending.
Proof.
  intros. unfold addWatermark. simpl fold_left.
  now rewrite run_idle.
Qed.

(** X17.  Whatever the host reports, a canvas that [addWatermark] resolves
    with has the width and height of a main image that was loaded, holds
    that image drawn at the origin followed by exactly one mark, and is
    either the text fallback or the logo path for a logo that was loaded;
    the main canvas had a context, and so had the logo canvas on the logo
    path. *)
Theorem watermarked_canvas_is_the_main_image_plus_one_mark :
  forall (Math_pow : number -> number -> number) (h : host) (watermarkText : string)
         (events : list event) (c : Canvas),
    addWatermark Math_pow h watermarkText events = Resolved c ->
    ctx h = true
    /\ exists mainImg : ImageData,
         In (MainLoad mainImg) events
         /\ cwidth c = width mainImg
         /\ cheight c = height mainImg
         /\ exists mark : paint,
              painted c = [DrawImage mainImg (ofZ 0) (ofZ 0) (ofZ 1); mark]
              /\ (c = drawText mainImg watermarkText (mainCanvas mainImg)
                  \/ (logoCtx h = true
                      /\ exists logoImg : ImageData,
                           In (LogoLoad logoImg) events
                           /\ c = drawLogo Math_pow mainImg logoImg (mainCanvas mainImg))).
Proof.
  intros Math_pow h watermarkText events c H.
  pose proof (run_wellFormed Math_pow h watermarkText events) as W.
  unfold addWatermark in H. unfold wellFormed in W. rewrite H in W.
  destruct (stage _); try discriminate; try (destruct W; discriminate).
  destruct W as [Hc [mainImg [Hin W]]]. split; [exact Hc|].
  exists mainImg. split; [exact Hin|].
  destruct W as [->|[Hl [logoImg [Hin' ->]]]].
  - repeat split. eexists. split; [reflexivity|]. now left.
  - repeat split. eexists. split; [reflexivity|]. right.
    split; [exact Hl|]. now exists logoImg.
Qed.

Lemma watermarked_canvas_is_the_main_image_plus_one_mark_witness :
  let h := {| ctx := true; logoCtx := true |} in
  let mainImg := {| width := 1000; height := 800; data := [] |} in
  let logoImg := {| width := 20; height := 10; data := [] |} in
  let events := [MainLoad mainImg; LogoLoad logoImg] in
  let c := drawLogo PowRef.pow_ref mainImg logoImg (mainCanvas mainImg) in
  ctx h = true
  /\ exists mainImg : ImageData,
       In (MainLoad mainImg) events
       /\ cwidth c = width mainImg
       /\ cheight c = height mainImg
       /\ exists mark : paint,
            painted c = [DrawImage mainImg (ofZ 0) (ofZ 0) (ofZ 1); mark]
            /\ (c = drawText mainImg "Saket" (mainCanvas mainImg)
                \/ (logoCtx h = true
                    /\ exists logoImg : ImageData,
                         In (LogoLoad logoImg) events
                         /\ c = drawLogo PowRef.pow_ref mainImg logoImg (mainCanvas mainImg))).
Proof.
  intros h mainImg logoImg events c.
  apply (watermarked_canvas_is_the_main_image_plus_one_mark PowRef.pow_ref h "Saket"
           events c).
  reflexivity.
Defined.

(** X18.  Once the promise of [addWatermark] is settled, nothing the host
    reports later changes it. *)
Theorem addWatermark_settles_once :
  forall (Math_pow : number -> number -> number) (h : host) (watermarkText : string)
         (events later : list event),
    addWatermark Math_pow h watermarkText events <> Pending ->
    addWatermark Math_pow h watermarkText (events ++ later)
    = addWatermark Math_pow h watermarkText events.
Proof.
  intros Math_pow h watermarkText events later H.
  unfold addWatermark in *. rewrite fold_left_app.
  now rewrite run_idle by now apply settled_is_idle.
Qed.

Lemma addWatermark_settles_once_witness :
  let h := {| ctx := true; logoCtx := true |} in
  let mainImg := {| width := 1000; height := 800; data := [] |} in
  addWatermark PowRef.pow_ref h "Saket"
    ([MainLoad mainImg; LogoError] ++ [LogoLoad mainImg; MainError])
  = addWatermark PowRef.pow_ref h "Saket" [MainLoad mainImg; LogoError].
Proof.
  intros h mainImg.
  apply (addWatermark_settles_once PowRef.pow_ref h "Saket"
           [MainLoad mainImg; LogoError] [LogoLoad mainImg; MainError]).
  discriminate.
Defined.

(** X19.  The font size of the text fallback is a number (never NaN) and at
    least 16, whatever the width of the main image. *)
Theorem fallback_font_is_at_least_16 :
  forall mainImg : ImageData,
    is_nan (fallbackFontSize mainImg) = false
    /\ le (ofZ 16) (fallbackFontSize mainImg) = true.
Proof.
  intros mainImg. unfold fallbackFontSize.
  set (b := Math_floor _).
  assert (Hb : is_nan b = false).
  { subst b. apply Math_floor_not_nan.
    let c := eval vm_compute in (dec 5 100) in change (dec 5 100) with c.
    apply mul_finite_not_nan, ofZ_not_nan. }
  let c := eval vm_compute in (ofZ 16) in change (ofZ 16) with c.
  rewrite Math_max_finite, Hb.
  destruct (lt _ b) eqn:Hlt.
  - split; [exact Hb|]. now apply lt_le.
  - split; reflexivity.
Qed.

End CompositorFacts.

(** ** The promise of needsColorCorrection, on every run *)

Module VerdictFacts.
Import JS ColorCorrection HeuristicFacts.

Lemma verdict_more (events : list event) (e : event) (b : bool) :
  verdict events b -> verdict (events ++ [e]) b.
Proof.
  intros [H|[sample [Hin H]]]; [now left|right].
  exists sample. split; [apply in_or_app; now left|exact H].
Qed.

Lemma step_answered (events : list event) (t : task) (e : event) :
  answered events t -> answered (events ++ [e]) (step t e).
Proof.
  unfold answered, step.
  destruct t as [[| |] p]; cbn [stage promise].
  - intros ->. destruct e; simpl; auto. now left.
  - intros ->. destruct e; simpl; auto; [|now left].
    right. exists sample. split; [|reflexivity].
    apply in_or_app. right. now left.
  - destruct p as [|b|reason]; auto. apply verdict_more.
Qed.

Lemma run_answered (events : list event) (ctx : bool) :
  answered events (fold_left step events (start ctx)).
Proof.
  induction events as [|e events IH] using rev_ind.
  - unfold answered, start. destruct ctx; simpl; auto. now left.
  - rewrite fold_left_app. simpl. now apply step_answered.
Qed.

(** X20.  [needsColorCorrection] answers [true] only when a context was to
    be had and a sample was decoded on which the heuristic finds a cast. *)
Theorem a_cast_is_reported_only_for_a_decoded_sample :
  forall (ctx : bool) (events : list event),
    needsColorCorrection ctx events = Resolved true ->
    ctx = true
    /\ exists sample : ImageData,
         In (ImgLoad sample) events /\ hasColorCast (data sample) = true.
Proof.
  intros ctx events H.
  pose proof (run_answered events ctx) as A.
  unfold needsColorCorrection in H. unfold answered in A. rewrite H in A.
  split.
  - destruct ctx; [reflexivity|].
    unfold start in H. now rewrite heuristic_run_idle in H.
  - destruct (stage _); try discriminate.
    destruct A as [A|[sample [Hin A]]]; [discriminate|].
    now exists sample.
Qed.

Lemma a_cast_is_reported_only_for_a_decoded_sample_witness :
  let sample := {| width := 1; height := 2; data := [200; 100; 100; 255; 200; 100; 100; 0] |} in
  let events := [ReaderLoad; ImgLoad sample] in
  true = true
  /\ exists sample : ImageData,
       In (ImgLoad sample) events /\ hasColorCast (data sample) = true.
Proof.
  intros sample events.
  apply (a_cast_is_reported_only_for_a_decoded_sample true events).
  vm_compute. reflexivity.
Defined.

(** X21.  Once the promise of [needsColorCorrection] is settled, nothing the
    host reports later changes it. *)
Theorem needsColorCorrection_settles_once :
  forall (ctx : bool) (events later : list event),
    needsColorCorrection ctx events <> Pending ->
    needsColorCorrection ctx (events ++ later) = needsColorCorrection ctx events.
Proof.
  intros ctx events later H.
  pose proof (run_answered events ctx) as A.
  unfold needsColorCorrection in *. unfold answered in A.
  rewrite fold_left_app.
  rewrite heuristic_run_idle; [reflexivity|].
  destruct (stage _); try reflexivity; contradiction.
Qed.

Lemma needsColorCorrection_settles_once_witness :
  needsColorCorrection true ([ReaderError] ++ [ReaderLoad; ImgError])
  = needsColorCorrection true [ReaderError].
Proof.
  apply (needsColorCorrection_settles_once true [ReaderError] [ReaderLoad; ImgError]).
  discriminate.
Defined.

End VerdictFacts.

(** ** The callers in App.tsx *)

Module AppFacts.
Import JS App.

(** X22.  [handleClothUpload] never fails on account of the correction:
    while the promise of [correctImageColors] is pending it waits; once it
    is settled it goes to SHIRT_DECISION when the category is SUIT, or
    ETHNIC with the ethnic type blazer, and to UPLOAD_CUSTOMER otherwise;
    the configuration it leaves is the one it found with only the cloth
    image replaced, by the corrected file if there is one and by the upload
    itself if the correction was rejected, and either has the name of the
    upload. *)
Theorem cloth_upload_survives_a_failed_correction :
  forall (Math_pow : number -> number -> number) (config : PehanawaConfig)
         (file : File) (ctx : bool) (events : list CorrectImageColors.event),
    let correction :=
      CorrectImageColors.correctImageColors Math_pow file ctx events in
    match handleClothUpload config file correction with
    | None => correction = Pending
    | Some (config', next) =>
        correction <> Pending
        /\ next
           = match category config, ethnicType config with
             | SUIT, _ => SHIRT_DECISION
             | ETHNIC, Some t =>
                 if String.eqb t "blazer" then SHIRT_DECISION else UPLOAD_CUSTOMER
             | _, _ => UPLOAD_CUSTOMER
             end
        /\ config'
           = {| category := category config;
                pieceCount := pieceCount config;
                shirtOption := shirtOption config;
                shirtImage := shirtImage config;
                ethnicType := ethnicType config;
                customPrompt := customPrompt config;
                styleReferenceImage := styleReferenceImage config;
                clothImage :=
                  Some match correction with
                       | Resolved correctedFile => correctedFile
                       | _ => file
                       end;
                customerImage := customerImage config |}
        /\ exists f : File, clothImage config' = Some f /\ name f = name file
    end.
Proof.
  intros Math_pow config file ctx events correction. subst correction.
  pose proof (CorrectorFacts.run_consistent Math_pow file events ctx) as C.
  unfold CorrectImageColors.correctImageColors.
  unfold CorrectImageColors.consistent in C.
  assert (Hnext : afterCloth config
                  = match category config, ethnicType config with
                    | SUIT, _ => SHIRT_DECISION
                    | ETHNIC, Some t =>
                        if String.eqb t "blazer" then SHIRT_DECISION else UPLOAD_CUSTOMER
                    | _, _ => UPLOAD_CUSTOMER
                    end).
  { unfold afterCloth, isCategory, isType.
    destruct (category config), (ethnicType config); reflexivity. }
  destruct (CorrectImageColors.promise _) as [|f|reason] eqn:Hp;
    cbn [handleClothUpload]; [reflexivity| |].
  - split; [discriminate|]. split; [exact Hnext|]. split; [reflexivity|].
    exists f. split; [reflexivity|].
    destruct (CorrectImageColors.stage _); try discriminate;
      try (destruct C; discriminate).
    destruct C as [img [_ ->]]. reflexivity.
  - split; [discriminate|]. split; [exact Hnext|]. split; [reflexivity|].
    exists file. split; reflexivity.
Qed.

(** X23.  The Save button, on a result image: while the promise of
    [addWatermark] is pending nothing happens; a resolved promise gives one
    download, named pehanawa-saket-look.png, of a canvas that has the width
    and height of a main image that was loaded; a rejected promise gives one
    alert, and that only when the main image failed to load or was loaded
    without a canvas context to be had -- never on account of the logo. *)
Theorem save_downloads_a_watermarked_image_or_alerts :
  forall (Math_pow : number -> number -> number) (h : Watermark.host)
         (resultImage : string) (events : list Watermark.event),
    resultImage <> EmptyString ->
    match onSave (Some resultImage)
            (Watermark.addWatermark Math_pow h Watermark.defaultWatermarkText events) with
    | [] =>
        Watermark.addWatermark Math_pow h Watermark.defaultWatermarkText events = Pending
    | [Download c download] =>
        download = "pehanawa-saket-look.png"%string
        /\ exists mainImg : ImageData,
             In (Watermark.MainLoad mainImg) events
             /\ Watermark.cwidth c = width mainImg
             /\ Watermark.cheight c = height mainImg
    | [Alert message] =>
        message = "Failed to save image. Please try again."%string
        /\ ((Watermark.ctx h = false
             /\ exists mainImg : ImageData, In (Watermark.MainLoad mainImg) events)
            \/ In Watermark.MainError events)
    | _ => False
    end.
Proof.
  intros Math_pow h resultImage events Hr.
  destruct resultImage as [|a s]; [contradiction|]. cbn [onSave].
  pose proof (CompositorFacts.run_wellFormed Math_pow h
                Watermark.defaultWatermarkText events) as W.
  unfold Watermark.addWatermark. unfold Watermark.wellFormed in W.
  destruct (Watermark.promise _) as [|c|reason]; [reflexivity| |].
  - split; [reflexivity|].
    destruct (Watermark.stage _); try discriminate; try (destruct W; discriminate).
    destruct W as [_ [mainImg [Hin W]]]. exists mainImg. split; [exact Hin|].
    destruct W as [->|[_ [logoImg [_ ->]]]]; split; reflexivity.
  - split; [reflexivity|].
    destruct (Watermark.stage _); try discriminate; try (destruct W; discriminate).
    destruct W as [[_ [Hc Hm]]|[_ Hin]]; [left|right]; auto.
Qed.

Lemma save_downloads_a_watermarked_image_or_alerts_witness :
  let h := {| Watermark.ctx := true; Watermark.logoCtx := true |} in
  let mainImg := {| width := 1000; height := 800; data := [] |} in
  let events := [Watermark.MainLoad mainImg; Watermark.LogoError] in
  match onSave (Some "blob:look"%string)
          (Watermark.addWatermark PowRef.pow_ref h Watermark.defaultWatermarkText events) with
  | [] =>
      Watermark.addWatermark PowRef.pow_ref h Watermark.defaultWatermarkText events
      = Pending
  | [Download c download] =>
      download = "pehanawa-saket-look.png"%string
      /\ exists mainImg : ImageData,
           In (Watermark.MainLoad mainImg) events
           /\ Watermark.cwidth c = width mainImg
           /\ Watermark.cheight c = height mainImg
  | [Alert message] =>
      message = "Failed to save image. Please try again."%string
      /\ ((Watermark.ctx h = false
           /\ exists mainImg : ImageData, In (Watermark.MainLoad mainImg) events)
          \/ In Watermark.MainError events)
  | _ => False
  end.
Proof.
  intros h mainImg events.
  apply (save_downloads_a_watermarked_image_or_alerts PowRef.pow_ref h "blob:look"
           events).
  discriminate.
Defined.

End AppFacts.

(** ** sessionService.ts: the stored customer photo *)

Module SessionFacts.
Import SessionService.

(** [split(',')[1]] on a data URL, on a text without a comma and on a text
    with two. *)
Example secondField_dataURL :
  secondField "data:image/png;base64,iVBORw0KGgo=" = Some "iVBORw0KGgo="%string
  /\ secondField "no comma here" = None
  /\ secondField "a,b,c" = Some "b"%string.
Proof. repeat split. Qed.

Lemma getItem_setItem (s : Storage) (key value : string) :
  setItem s key value key = Some value.
Proof. unfold setItem. now rewrite String.eqb_refl. Qed.

Lemma getItem_removeItem (s : Storage) (key : string) : removeItem s key key = None.
Proof. unfold removeItem. now rewrite String.eqb_refl. Qed.

Lemma truthy_orItem (a b : option string) :
  truthy a = true -> orItem a b = a.
Proof. unfold orItem. now intros ->. Qed.

(** X24.  After [clearCustomerSession] there is no session in either
    storage area: [hasCustomerSession] is false, [getCustomerPhoto] and
    [getSessionInfo] return [null], and every other key of the two areas is
    as it was. *)
Theorem clearing_forgets_the_session :
  forall (JSON_parse : string -> option CustomerSession)
         (atob : string -> option (list Z)) (b : Browser),
    let b' := clearCustomerSession b in
    hasCustomerSession b' = false
    /\ getCustomerPhoto JSON_parse atob b' = None
    /\ getSessionInfo JSON_parse b' = None
    /\ (forall key : string,
          String.eqb key SESSION_KEY = false ->
          sessionStorage b' key = sessionStorage b key
          /\ localStorage b' key = localStorage b key).
Proof.
  intros JSON_parse atob b b'. subst b'.
  assert (H : sessionData (clearCustomerSession b) = None).
  { unfold sessionData, clearCustomerSession. simpl.
    now rewrite !getItem_removeItem. }
  unfold hasCustomerSession, getCustomerPhoto, getSessionInfo. rewrite H.
  split; [reflexivity|]. split; [reflexivity|]. split; [reflexivity|].
  intros key Hkey. unfold clearCustomerSession, removeItem. simpl.
  now rewrite Hkey.
Qed.

(** X25.  When [sessionStorage] already holds a session and refuses the new
    one (its [setItem] throws), [saveCustomerPhoto] stores the new session
    in [localStorage] and returns its id, and yet [getCustomerPhoto] and
    [getSessionInfo] go on returning what they returned before the save:
    the older session of [sessionStorage] stays in front of the new one. *)
Theorem refused_session_leaves_the_old_photo_in_front :
  forall (JSON_stringify : CustomerSession -> string)
         (JSON_parse : string -> option CustomerSession)
         (atob : string -> option (list Z))
         (b : Browser) (file : File) (dataURL id : string) (now : Z)
         (sessionAccepts localAccepts : string -> bool),
    let text := JSON_stringify (sessionOf file dataURL id now) in
    truthy (sessionStorage b SESSION_KEY) = true ->
    sessionAccepts text = false ->
    localAccepts text = true ->
    let '(b', outcome) :=
      saveCustomerPhoto JSON_stringify b file (Some dataURL) id now
        sessionAccepts localAccepts in
    outcome = Saved id
    /\ localStorage b' SESSION_KEY = Some text
    /\ getCustomerPhoto JSON_parse atob b' = getCustomerPhoto JSON_parse atob b
    /\ getSessionInfo JSON_parse b' = getSessionInfo JSON_parse b.
Proof.
  intros JSON_stringify JSON_parse atob b file dataURL id now sessionAccepts
    localAccepts text Hold Hs Hl.
  unfold saveCustomerPhoto. fold text. rewrite Hs, Hl.
  assert (H : sessionData
                {| sessionStorage := sessionStorage b;
                   localStorage := setItem (localStorage b) SESSION_KEY text |}
              = sessionData b).
  { unfold sessionData. simpl. now rewrite !truthy_orItem. }
  split; [reflexivity|]. split; [apply getItem_setItem|].
  unfold getCustomerPhoto, getSessionInfo. now rewrite H.
Qed.

Lemma refused_session_leaves_the_old_photo_in_front_witness :
  let JSON_stringify := fun session : CustomerSession => sessionId session in
  let JSON_parse := fun text : string =>
    Some {| sessionId := text; customerImageBase64 := Some text;
            customerImageType := "image/png"; createdAt := 0 |} in
  let atob := fun text : string => Some [Z.of_nat (String.length text)] in
  let b := {| sessionStorage := fun key => if String.eqb key SESSION_KEY then Some "old"%string else None;
              localStorage := fun _ => None |} in
  let file := {| name := "me.png"; type := "image/png"; body := Uploaded [1; 2; 3] |} in
  let '(b', outcome) :=
    saveCustomerPhoto JSON_stringify b file (Some "data:image/png;base64,AQID"%string)
      "new" 7 (fun _ => false) (fun _ => true) in
  outcome = Saved "new"
  /\ localStorage b' SESSION_KEY = Some "new"%string
  /\ getCustomerPhoto JSON_parse atob b' = getCustomerPhoto JSON_parse atob b
  /\ getSessionInfo JSON_parse b' = getSessionInfo JSON_parse b.
Proof.
  intros JSON_stringify JSON_parse atob b file.
  apply (refused_session_leaves_the_old_photo_in_front JSON_stringify JSON_parse atob
           b file "data:image/png;base64,AQID" "new" 7 (fun _ => false) (fun _ => true));
    reflexivity.
Defined.

Lemma beforeComma_commaFree (s : string) : commaFree s = true -> beforeComma s = s.
Proof.
  induction s as [|c rest IH]; simpl; [reflexivity|].
  destruct (Ascii.eqb c comma); simpl; [discriminate|].
  intros H. now rewrite IH.
Qed.

Lemma afterComma_prefix (prefix rest : string) :
  commaFree prefix = true ->
  afterComma (prefix ++ String comma rest) = Some rest.
Proof.
  induction prefix as [|c prefix IH]; simpl.
  - intros _. reflexivity.
  - destruct (Ascii.eqb c comma); simpl; [discriminate|]. exact IH.
Qed.

Lemma secondField_payload (prefix payload : string) :
  commaFree prefix = true -> commaFree payload = true ->
  secondField (prefix ++ "," ++ payload) = Some payload.
Proof.
  intros Hp Hq. unfold secondField.
  change ("," ++ payload)%string with (String comma payload).
  rewrite afterComma_prefix by assumption. simpl.
  now rewrite beforeComma_commaFree.
Qed.

(** X26.  A data URL is a prefix, a comma and a payload, none of the two
    holding a comma.  When [JSON.parse] gives back the session that
    [JSON.stringify] wrote (a text that is not empty) and [sessionStorage]
    accepts it, [saveCustomerPhoto] returns the session id, stores that text
    under the session key of [sessionStorage] and changes no other key of
    [sessionStorage] and no key at all of [localStorage]; from then on
    [hasCustomerSession] is true, [getSessionInfo] gives the id and the
    creation time, and [getCustomerPhoto] gives what [atob] decodes the
    payload to, as a file named customer.jpg of the MIME type of the upload
    ([null] if [atob] throws). *)
Theorem saved_photo_comes_back_as_customer_jpg :
  forall (JSON_stringify : CustomerSession -> string)
         (JSON_parse : string -> option CustomerSession)
         (atob : string -> option (list Z))
         (b : Browser) (file : File) (prefix payload id : string) (now : Z)
         (sessionAccepts localAccepts : string -> bool),
    let dataURL := (prefix ++ "," ++ payload)%string in
    let session :=
      {| sessionId := id;
         customerImageBase64 := Some payload;
         customerImageType := type file;
         createdAt := now |} in
    commaFree prefix = true ->
    commaFree payload = true ->
    JSON_stringify session <> EmptyString ->
    JSON_parse (JSON_stringify session) = Some session ->
    sessionAccepts (JSON_stringify session) = true ->
    let '(b', outcome) :=
      saveCustomerPhoto JSON_stringify b file (Some dataURL) id now
        sessionAccepts localAccepts in
    outcome = Saved id
    /\ sessionStorage b' "pehanawa_customer_session"%string = Some (JSON_stringify session)
    /\ (forall key : string,
          String.eqb key "pehanawa_customer_session"%string = false ->
          sessionStorage b' key = sessionStorage b key)
    /\ (forall key : string, localStorage b' key = localStorage b key)
    /\ hasCustomerSession b' = true
    /\ getSessionInfo JSON_parse b' = Some (id, now)
    /\ getCustomerPhoto JSON_parse atob b'
       = match atob payload with
         | Some bytes =>
             Some {| name := "customer.jpg"; type := type file; body := Uploaded bytes |}
         | None => None
         end.
Proof.
  intros JSON_stringify JSON_parse atob b file prefix payload id now sessionAccepts
    localAccepts dataURL session Hp Hq Hne Hparse Hs.
  assert (Hsession : sessionOf file dataURL id now = session).
  { unfold sessionOf, session, dataURL. now rewrite secondField_payload. }
  unfold saveCustomerPhoto. rewrite Hsession, Hs.
  set (text := JSON_stringify session) in *.
  assert (Ht : truthy (Some text) = true).
  { destruct text; [contradiction|reflexivity]. }
  assert (H : sessionData
                {| sessionStorage := setItem (sessionStorage b) SESSION_KEY text;
                   localStorage := localStorage b |}
              = Some text).
  { unfold sessionData. simpl. rewrite getItem_setItem.
    now apply truthy_orItem. }
  split; [reflexivity|].
  split; [apply getItem_setItem|].
  split; [intros key Hkey; cbn [sessionStorage]; unfold setItem; fold SESSION_KEY;
          change "pehanawa_customer_session"%string with SESSION_KEY in Hkey;
          now rewrite Hkey|].
  split; [reflexivity|].
  unfold hasCustomerSession, getSessionInfo, getCustomerPhoto.
  rewrite H, Ht, Hparse. split; [reflexivity|]. split; [reflexivity|].
  unfold base64ToFile. reflexivity.
Qed.

Lemma saved_photo_comes_back_as_customer_jpg_witness :
  let file := {| name := "me.png"; type := "image/png"; body := Uploaded [1; 2; 3] |} in
  let prefix := "data:image/png;base64"%string in
  let payload := "AQID"%string in
  let session :=
    {| sessionId := "new"; customerImageBase64 := Some payload;
       customerImageType := "image/png"; createdAt := 7 |} in
  let JSON_stringify := fun s : CustomerSession => sessionId s in
  let JSON_parse := fun text : string => Some session in
  let atob := fun text : string =>
    if String.eqb text "AQID" then Some [1; 2; 3] else None in
  let b := {| sessionStorage := fun _ => None; localStorage := fun _ => None |} in
  let '(b', outcome) :=
    saveCustomerPhoto JSON_stringify b file (Some (prefix ++ "," ++ payload)%string)
      "new" 7 (fun _ => true) (fun _ => true) in
  outcome = Saved "new"
  /\ sessionStorage b' "pehanawa_customer_session"%string = Some "new"%string
  /\ (forall key : string,
        String.eqb key "pehanawa_customer_session"%string = false ->
        sessionStorage b' key = sessionStorage b key)
  /\ (forall key : string, localStorage b' key = localStorage b key)
  /\ hasCustomerSession b' = true
  /\ getSessionInfo JSON_parse b' = Some ("new"%string, 7)
  /\ getCustomerPhoto JSON_parse atob b'
     = Some {| name := "customer.jpg"; type := "image/png"; body := Uploaded [1; 2; 3] |}.
Proof.
  intros file prefix payload session JSON_stringify JSON_parse atob b.
  apply (saved_photo_comes_back_as_customer_jpg JSON_stringify JSON_parse atob
           b file prefix payload "new" 7 (fun _ => true) (fun _ => true)).
  - reflexivity.
  - reflexivity.
  - discriminate.
  - reflexivity.
  - reflexivity.
Defined.

End SessionFacts.

(** ** Rounding: sums and quotients of nonnegative doubles *)

Module RoundingFacts.
Import Rounding.

Lemma digits2_pos_size (p : positive) : digits2_pos p = Pos.size p.
Proof. induction p; simpl; congruence. Qed.

Lemma digits2_pos_bounds (p : positive) :
  2 ^ (Zpos (digits2_pos p) - 1) <= Zpos p < 2 ^ Zpos (digits2_pos p).
Proof.
  rewrite digits2_pos_size.
  pose proof (Pos.size_gt p) as Hgt. pose proof (Pos.size_le p) as Hle.
  apply Pos2Z.pos_lt_pos in Hgt. apply Pos2Z.pos_le_pos in Hle.
  rewrite Pos2Z.inj_pow in Hgt, Hle. change (Zpos p~0) with (2 * Zpos p) in Hle.
  split; [|exact Hgt].
  replace (Zpos (Pos.size p)) with (Zpos (Pos.size p) - 1 + 1) in Hle by lia.
  rewrite Z.pow_add_r, Z.pow_1_r in Hle by lia. lia.
Qed.

Lemma Zdigits2_bounds (z : Z) :
  0 < z -> 2 ^ (Zdigits2 z - 1) <= z < 2 ^ Zdigits2 z.
Proof. destruct z; try lia. intros _. apply digits2_pos_bounds. Qed.

Lemma Zdigits2_pos (z : Z) : 0 < z -> 0 < Zdigits2 z.
Proof. destruct z; simpl; lia. Qed.

Lemma pow2_pos (e : Z) : 0 <= e -> 0 < 2 ^ e.
Proof. intros. apply Z.pow_pos_nonneg; lia. Qed.

Lemma pow2_le (a b : Z) : 0 <= a <= b -> 2 ^ a <= 2 ^ b.
Proof. intros. apply Z.pow_le_mono_r; lia. Qed.

Lemma pow2_lt (a b : Z) : 0 <= a < b -> 2 ^ a < 2 ^ b.
Proof. intros. apply Z.pow_lt_mono_r; lia. Qed.

(** digits are determined by the binade *)
Lemma Zdigits2_unique (z k : Z) :
  0 < k -> 2 ^ (k - 1) <= z < 2 ^ k -> Zdigits2 z = k.
Proof.
  intros Hk [Hlo Hhi].
  assert (Hz : 0 < z) by (pose proof (pow2_pos (k - 1)); lia).
  pose proof (Zdigits2_bounds z Hz) as [Hlo' Hhi'].
  pose proof (Zdigits2_pos z Hz) as Hd.
  destruct (Z.lt_trichotomy (Zdigits2 z) k) as [H|[H|H]]; [exfalso|exact H|exfalso].
  - pose proof (pow2_le (Zdigits2 z) (k - 1)). lia.
  - pose proof (pow2_le k (Zdigits2 z - 1)). lia.
Qed.

Lemma shr_1_spec (m : Z) (r s : bool) :
  0 <= m ->
  shr_1 (Build_shr_record m r s) = Build_shr_record (m / 2) (Z.odd m) (r || s).
Proof.
  intros Hm. rewrite <- Z.div2_div.
  destruct m as [|[p|p|]|p]; try lia; reflexivity.
Qed.

Lemma shr_1_located (N D : Z) (mrs : shr_record) :
  0 < D -> 0 <= N -> located N D mrs -> located N (D * 2) (shr_1 mrs).
Proof.
  intros HD HN [Hm Hl].
  pose proof (Z.div_pos N D HN HD) as Hq.
  pose proof (Z.mod_pos_bound N D HD) as Hr.
  assert (Hdiv : N / (D * 2) = N / D / 2) by (rewrite Z.div_div; lia).
  assert (Hmod : N mod (D * 2) = N mod D + D * ((N / D) mod 2))
    by (apply Z.rem_mul_r; lia).
  destruct mrs as [m r s]. cbn [shr_m shr_r shr_s] in Hm, Hl. subst m.
  rewrite shr_1_spec by assumption.
  unfold located. cbn [shr_m shr_r shr_s].
  rewrite Hdiv, Hmod. split; [reflexivity|].
  rewrite Zmod_odd.
  destruct (Z.odd (N / D)), r, s; cbn [orb] in *; lia.
Qed.

Lemma iter_pos_located (p : positive) :
  forall (N D : Z) (mrs : shr_record),
    0 < D -> 0 <= N -> located N D mrs ->
    located N (D * 2 ^ Zpos p) (iter_pos shr_1 p mrs).
Proof.
  induction p as [p IH|p IH|]; intros N D mrs HD HN H; simpl iter_pos.
  - assert (E : D * 2 ^ Zpos p~1 = D * 2 * 2 ^ Zpos p * 2 ^ Zpos p).
    { change (Zpos p~1) with (2 * Zpos p + 1).
      rewrite Z.pow_add_r, Z.pow_1_r, Z.pow_twice_r by lia. ring. }
    rewrite E. pose proof (pow2_pos (Zpos p) ltac:(lia)) as Hp.
    apply IH; [nia|lia|]. apply IH; [lia|lia|]. now apply shr_1_located.
  - assert (E : D * 2 ^ Zpos p~0 = D * 2 ^ Zpos p * 2 ^ Zpos p).
    { change (Zpos p~0) with (2 * Zpos p). rewrite Z.pow_twice_r. ring. }
    rewrite E. pose proof (pow2_pos (Zpos p) ltac:(lia)) as Hp.
    apply IH; [nia|lia|]. now apply IH.
  - rewrite Z.pow_1_r. now apply shr_1_located.
Qed.

Lemma shr_located (N D : Z) (mrs : shr_record) (e n : Z) :
  0 < D -> 0 <= N -> located N D mrs ->
  snd (shr mrs e n) = e + Z.max 0 n
  /\ located N (D * 2 ^ Z.max 0 n) (fst (shr mrs e n)).
Proof.
  intros HD HN H. unfold shr. destruct n as [|p|p]; simpl fst; simpl snd.
  - rewrite Z.mul_1_r. split; [lia|assumption].
  - rewrite Z.max_r by lia. split; [reflexivity|]. now apply iter_pos_located.
  - rewrite Z.max_l by lia. simpl. rewrite Z.mul_1_r. split; [lia|assumption].
Qed.

Lemma fexp64_eq (e : Z) : fexp 53 1024 e = Z.max (e - 53) (-1074).
Proof. reflexivity. Qed.

Lemma round_choice (N D : Z) (mrs : shr_record) :
  0 < D ->
  located N D mrs ->
  let m1 := round_nearest_even (shr_m mrs) (loc_of_shr_record mrs) in
  m1 = N / D \/ (m1 = N / D + 1 /\ N mod D <> 0).
Proof.
  intros HD [Hm Hl]. destruct mrs as [m r s]. cbn [shr_m shr_r shr_s] in *.
  subst m. unfold loc_of_shr_record, round_nearest_even.
  destruct r, s; cbn [shr_r shr_s].
  - right. split; [reflexivity|lia].
  - destruct (Z.even (N / D)); [left; reflexivity|right; split; [reflexivity|lia]].
  - left; reflexivity.
  - left; reflexivity.
Qed.

Lemma Zdigits2_le53 (m : Z) : 0 <= m < 2 ^ 53 -> Zdigits2 m <= 53.
Proof.
  intros [H0 H1]. destruct (Z.eq_dec m 0) as [->|Hne]; [simpl; lia|].
  pose proof (Zdigits2_bounds m ltac:(lia)) as [Hlo _].
  destruct (Z_le_gt_dec (Zdigits2 m) 53) as [H|H]; [exact H|exfalso].
  pose proof (pow2_le 53 (Zdigits2 m - 1) ltac:(lia)). lia.
Qed.

Lemma second_shr (m1 t : Z) :
  0 <= m1 <= 2 ^ 53 -> -1074 <= t ->
  shr_fexp 53 1024 m1 t loc_Exact
  = if m1 =? 2 ^ 53 then (Build_shr_record (2 ^ 52) false false, t + 1)
    else (Build_shr_record m1 false false, t).
Proof.
  intros Hm Ht. unfold shr_fexp. cbn [shr_record_of_loc].
  destruct (Z.eqb_spec m1 (2 ^ 53)) as [->|Hne].
  - change (Zdigits2 (2 ^ 53)) with 54. rewrite fexp64_eq.
    replace (Z.max (54 + t - 53) (-1074) - t) with 1 by lia. reflexivity.
  - pose proof (Zdigits2_le53 m1 ltac:(lia)) as Hd.
    rewrite fexp64_eq.
    remember (Z.max (Zdigits2 m1 + t - 53) (-1074) - t) as n eqn:En.
    assert (Hn : n <= 0) by lia.
    unfold shr. destruct n; try lia; reflexivity.
Qed.

Lemma div_pow2_bounds (m d n : Z) :
  0 <= n -> 0 < m -> 2 ^ (d - 1) <= m < 2 ^ d -> 0 < d ->
  (n <= d - 1 -> 2 ^ (d - 1 - n) <= m / 2 ^ n)
  /\ (n <= d -> m / 2 ^ n < 2 ^ (d - n))
  /\ (d <= n -> m / 2 ^ n = 0).
Proof.
  intros Hn Hm [Hlo Hhi] Hd.
  pose proof (pow2_pos n Hn) as Hp.
  repeat split; intros H.
  - apply Z.div_le_lower_bound; [lia|].
    rewrite <- Z.pow_add_r by lia. replace (n + (d - 1 - n)) with (d - 1) by lia. exact Hlo.
  - apply Z.div_lt_upper_bound; [lia|].
    rewrite <- Z.pow_add_r by lia. replace (n + (d - n)) with d by lia. exact Hhi.
  - apply Z.div_small. split; [lia|].
    pose proof (pow2_le d n ltac:(lia)). lia.
Qed.

(** The shape of a rounding: with [t] the exponent of the binade of the value
    [N / D * 2^ex], the mantissa is the integer below [N / (D * 2^(t - ex))]
    or, if this quotient is not exact, possibly the one above. *)
Lemma round_aux_shape (sx : bool) (N D mx ex : Z) (lx : location) :
  0 < D -> 0 <= N ->
  located N D (shr_record_of_loc mx lx) ->
  ex <= fexp 53 1024 (Zdigits2 mx + ex) ->
  let t := fexp 53 1024 (Zdigits2 mx + ex) in
  let D' := D * 2 ^ (t - ex) in
  exists m1 : Z,
    (m1 = N / D' \/ (m1 = N / D' + 1 /\ N mod D' <> 0))
    /\ -1074 <= t
    /\ 0 <= N / D' < 2 ^ 53
    /\ (2 ^ 52 <= N / D' \/ t = -1074)
    /\ binary_round_aux 53 1024 sx mx ex lx = finish sx m1 t.
Proof.
  intros HD HN Hloc Hex t D'.
  assert (Htex : 0 <= t - ex) by (unfold t; lia).
  assert (Hmx : mx = N / D).
  { destruct Hloc as [Hm _]. now destruct lx as [|[| |]]. }
  pose proof (Z.div_pos N D HN HD) as Hq.
  pose proof (shr_located N D _ ex (t - ex) HD HN Hloc) as [He' Hl'].
  rewrite Z.max_r in He', Hl' by lia.
  fold D' in Hl'.
  assert (HD' : 0 < D') by (pose proof (pow2_pos (t - ex) ltac:(lia)); unfold D'; nia).
  assert (Hquot : N / D' = mx / 2 ^ (t - ex)).
  { unfold D'. rewrite <- Z.div_div, <- Hmx; [reflexivity|lia|].
    apply pow2_pos; lia. }
  assert (Ht : -1074 <= t) by (unfold t; rewrite fexp64_eq; lia).
  (* magnitude of the shifted mantissa *)
  assert (Hmag : 0 <= N / D' < 2 ^ 53 /\ (2 ^ 52 <= N / D' \/ t = -1074)).
  { rewrite Hquot.
    destruct (Z.eq_dec mx 0) as [Hz|Hnz].
    - rewrite Hz. rewrite Z.div_0_l by (pose proof (pow2_pos (t - ex)); lia).
      split; [split; [lia|apply pow2_pos; lia]|right].
      clear Hquot Hl' D' HD' He' Htex. subst t. rewrite Hz in *.
      change (Zdigits2 0) with 0 in *. rewrite fexp64_eq in *. lia.
    - assert (Hpos : 0 < mx) by lia.
      pose proof (Zdigits2_bounds mx Hpos) as Hb.
      pose proof (Zdigits2_pos mx Hpos) as Hd.
      pose proof (div_pow2_bounds mx (Zdigits2 mx) (t - ex) ltac:(lia) Hpos Hb Hd)
        as (B1 & B2 & B3).
      assert (Hq' : 0 <= mx / 2 ^ (t - ex))
        by (apply Z.div_pos; [lia|apply pow2_pos; lia]).
      unfold t in *. rewrite fexp64_eq in *.
      destruct (Z_le_gt_dec (Zdigits2 mx + ex - 53) (-1074)) as [Hsub|Hnorm].
      + rewrite Z.max_r in * by lia.
        split; [split; [exact Hq'|]|right; reflexivity].
        destruct (Z_le_gt_dec (-1074 - ex) (Zdigits2 mx)) as [H|H].
        * specialize (B2 H).
          pose proof (pow2_le (Zdigits2 mx - (-1074 - ex)) 53 ltac:(lia)). lia.
        * rewrite B3 by lia. apply pow2_pos; lia.
      + rewrite Z.max_l in * by lia.
        replace (Zdigits2 mx + ex - 53 - ex) with (Zdigits2 mx - 53) in * by lia.
        specialize (B1 ltac:(lia)). specialize (B2 ltac:(lia)).
        replace (Zdigits2 mx - 1 - (Zdigits2 mx - 53)) with 52 in B1 by lia.
        replace (Zdigits2 mx - (Zdigits2 mx - 53)) with 53 in B2 by lia.
        split; [split; [exact Hq'|exact B2]|left; exact B1]. }
  destruct Hmag as [Hrange Hnormal].
  unfold binary_round_aux.
  change (shr_fexp 53 1024 mx ex lx)
    with (shr (shr_record_of_loc mx lx) ex (t - ex)).
  destruct (shr (shr_record_of_loc mx lx) ex (t - ex)) as [mrs' e'] eqn:E1.
  cbn [fst snd] in He', Hl'. subst e'. replace (ex + (t - ex)) with t by lia.
  pose proof (round_choice N D' mrs' HD' Hl') as Hch. cbv zeta in Hch.
  set (m1 := round_nearest_even (shr_m mrs') (loc_of_shr_record mrs')) in *.
  exists m1.
  split; [exact Hch|]. split; [exact Ht|]. split; [exact Hrange|]. split; [exact Hnormal|].
  rewrite second_shr by lia.
  unfold finish.
  destruct (Z.eqb_spec m1 (2 ^ 53)) as [E|E].
  - rewrite E. cbn [shr_m]. reflexivity.
  - cbn [shr_m]. destruct m1 as [|p|p]; reflexivity.
Qed.

(** ** Canonical doubles and their magnitude *)

Lemma bounded_facts (m : positive) (e : Z) :
  bounded 53 1024 m e = true ->
  -1074 <= e <= 971 /\ Zpos m < 2 ^ 53 /\ (2 ^ 52 <= Zpos m \/ e = -1074).
Proof.
  unfold bounded, canonical_mantissa. rewrite andb_true_iff, Z.eqb_eq, Z.leb_le.
  rewrite fexp64_eq. intros [Hc He].
  pose proof (digits2_pos_bounds m) as [Hlo Hhi].
  assert (Hd : Zpos (digits2_pos m) <= 53) by lia.
  split; [lia|]. split.
  - pose proof (pow2_le (Zpos (digits2_pos m)) 53 ltac:(lia)). lia.
  - destruct (Z.eq_dec e (-1074)) as [E|E]; [right; exact E|left].
    replace (Zpos (digits2_pos m)) with 53 in Hlo by lia. exact Hlo.
Qed.

Lemma bounded_intro (m : positive) (e : Z) :
  -1074 <= e <= 971 -> Zpos m < 2 ^ 53 -> (2 ^ 52 <= Zpos m \/ e = -1074) ->
  bounded 53 1024 m e = true.
Proof.
  intros He Hm Hn.
  unfold bounded, canonical_mantissa. rewrite andb_true_iff, Z.eqb_eq, Z.leb_le.
  rewrite fexp64_eq. split; [|lia].
  pose proof (Zdigits2_le53 (Zpos m) ltac:(lia)) as Hd. simpl Zdigits2 in Hd.
  destruct Hn as [Hn|Hn]; [|lia].
  assert (Zdigits2 (Zpos m) = 53) as E by (apply Zdigits2_unique; simpl; lia).
  simpl Zdigits2 in E. lia.
Qed.

Lemma pow2_split (a b : Z) : 0 <= a -> 0 <= b -> 2 ^ (a + b) = 2 ^ a * 2 ^ b.
Proof. intros. apply Z.pow_add_r; lia. Qed.

(** Rounding stays on the right side of a representable bound. *)
Lemma grid_le (N D q m1 t mb eb : Z) :
  0 < D -> q = N / D ->
  (m1 = q \/ (m1 = q + 1 /\ N mod D <> 0)) ->
  -1074 <= t -> (2 ^ 52 <= q \/ t = -1074) ->
  -1074 <= eb -> 0 < mb < 2 ^ 53 ->
  N * 2 ^ (t + K) <= mb * 2 ^ (eb + K) * D ->
  m1 * 2 ^ (t + K) <= mb * 2 ^ (eb + K).
Proof.
  intros HD Hq Hch Ht Hn Heb Hmb Hle.
  pose proof (Z.div_mod N D ltac:(lia)) as Hdm.
  pose proof (Z.mod_pos_bound N D HD) as Hr.
  rewrite <- Hq in Hdm.
  set (P := 2 ^ (t + K)) in *. set (Q := 2 ^ (eb + K)) in *.
  assert (HP : 0 < P) by (apply pow2_pos; unfold K; lia).
  assert (HQ : 0 < Q) by (apply pow2_pos; unfold K; lia).
  destruct Hch as [->|[-> Hne]].
  - apply Z.mul_le_mono_pos_r with (p := D); [exact HD|]. nia.
  - assert (Hlt : q * P < mb * Q).
    { apply Z.mul_lt_mono_pos_r with (p := D); [exact HD|]. nia. }
    destruct (Z_le_gt_dec t eb) as [Hc|Hc].
    + assert (EQ : Q = P * 2 ^ (eb - t)).
      { unfold P, Q. rewrite <- pow2_split by (unfold K; lia). f_equal. lia. }
      pose proof (pow2_pos (eb - t) ltac:(lia)) as Hp.
      rewrite EQ in *.
      assert (q < mb * 2 ^ (eb - t)) by nia. nia.
    + exfalso.
      assert (EP : P = Q * 2 ^ (t - eb)).
      { unfold P, Q. rewrite <- pow2_split by (unfold K; lia). f_equal. lia. }
      pose proof (pow2_le 1 (t - eb) ltac:(lia)) as Hp. rewrite Z.pow_1_r in Hp.
      change (2 ^ 53) with (2 ^ 52 * 2) in Hmb.
      destruct Hn as [Hn|Hn]; [|lia].
      rewrite EP in Hlt. nia.
Qed.

Lemma grid_ge (N D q m1 t mb eb : Z) :
  0 < D -> 0 <= N -> q = N / D ->
  (m1 = q \/ (m1 = q + 1 /\ N mod D <> 0)) ->
  -1074 <= t -> (2 ^ 52 <= q \/ t = -1074) ->
  -1074 <= eb -> 0 < mb < 2 ^ 53 ->
  mb * 2 ^ (eb + K) * D <= N * 2 ^ (t + K) ->
  mb * 2 ^ (eb + K) <= m1 * 2 ^ (t + K).
Proof.
  intros HD HN Hq Hch Ht Hn Heb Hmb Hle.
  pose proof (Z.div_mod N D ltac:(lia)) as Hdm.
  pose proof (Z.mod_pos_bound N D HD) as Hr.
  rewrite <- Hq in Hdm.
  set (P := 2 ^ (t + K)) in *. set (Q := 2 ^ (eb + K)) in *.
  assert (HP : 0 < P) by (apply pow2_pos; unfold K; lia).
  assert (HQ : 0 < Q) by (apply pow2_pos; unfold K; lia).
  assert (Hfloor : mb * Q <= q * P).
  { destruct (Z_le_gt_dec t eb) as [Hc|Hc].
    - assert (EQ : Q = P * 2 ^ (eb - t)).
      { unfold P, Q. rewrite <- pow2_split by (unfold K; lia). f_equal. lia. }
      pose proof (pow2_pos (eb - t) ltac:(lia)) as Hp.
      rewrite EQ in *.
      assert (mb * 2 ^ (eb - t) <= q).
      { rewrite Hq. apply Z.div_le_lower_bound; [exact HD|]. nia. }
      nia.
    - assert (EP : P = Q * 2 ^ (t - eb)).
      { unfold P, Q. rewrite <- pow2_split by (unfold K; lia). f_equal. lia. }
      pose proof (pow2_le 1 (t - eb) ltac:(lia)) as Hp. rewrite Z.pow_1_r in Hp.
      change (2 ^ 53) with (2 ^ 52 * 2) in Hmb.
      destruct Hn as [Hn|Hn]; [|lia].
      rewrite EP. nia. }
  destruct Hch as [->|[-> Hne]]; [exact Hfloor|nia].
Qed.

(** What [finish] returns for a mantissa of the right size. *)
Lemma finish_cases (sx : bool) (q m1 t : Z) :
  (m1 = q \/ m1 = q + 1) ->
  -1074 <= t -> 0 <= q < 2 ^ 53 -> (2 ^ 52 <= q \/ t = -1074) ->
  (m1 = 0 /\ finish sx m1 t = S754_zero sx)
  \/ (0 < m1
      /\ exists (m : positive) (e : Z),
           finish sx m1 t = S754_finite sx m e
           /\ bounded 53 1024 m e = true
           /\ scaled (Zpos m) e = m1 * 2 ^ (t + K))
  \/ (0 < m1
      /\ finish sx m1 t = S754_infinity sx
      /\ 2 ^ (1024 + K) <= m1 * 2 ^ (t + K)).
Proof.
  intros Hch Ht Hq Hn.
  assert (Hm1 : 0 <= m1 <= 2 ^ 53) by lia.
  destruct (Z.eq_dec m1 0) as [Hz|Hnz]; [left; subst m1; split; reflexivity|].
  right. unfold finish.
  destruct m1 as [|p|p] eqn:Em; try lia.
  destruct (Z.eqb_spec (Zpos p) (2 ^ 53)) as [E|E].
  - (* the mantissa was rounded up to the next binade *)
    destruct (Z.leb_spec (t + 1) 971) as [Hof|Hof].
    + left. split; [lia|]. exists (2 ^ 52)%positive, (t + 1). split; [reflexivity|]. split.
      * apply bounded_intro; [lia|reflexivity|left; reflexivity].
      * unfold scaled. rewrite E.
        replace (t + 1 + K) with (1 + (t + K)) by lia.
        rewrite pow2_split by (unfold K; lia).
        change (Zpos (2 ^ 52)) with (2 ^ 52). change (2 ^ 53) with (2 ^ 52 * 2 ^ 1). ring.
    + right. split; [lia|]. split; [reflexivity|].
      rewrite E. rewrite <- pow2_split by (unfold K; lia).
      apply pow2_le. unfold K. lia.
  - destruct (Z.leb_spec t 971) as [Hof|Hof].
    + left. split; [lia|]. exists p, t. split; [reflexivity|]. split.
      * apply bounded_intro; [lia|lia|]. destruct Hn as [Hn|Hn]; [left; lia|right; exact Hn].
      * reflexivity.
    + right. split; [lia|]. split; [reflexivity|].
      destruct Hn as [Hn|Hn]; [|lia].
      assert (2 ^ 52 <= Zpos p) by lia.
      replace (1024 + K) with (52 + (972 + K)) by lia.
      rewrite pow2_split by (unfold K; lia).
      pose proof (pow2_le (972 + K) (t + K) ltac:(unfold K; lia)).
      pose proof (pow2_pos (972 + K) ltac:(unfold K; lia)).
      nia.
Qed.

(** ** Non-negative finite doubles *)

Lemma scaled_pos (m : positive) (e : Z) : -K <= e -> 0 < scaled (Zpos m) e.
Proof. intros. unfold scaled. pose proof (pow2_pos (e + K) ltac:(lia)). nia. Qed.

Lemma mag_nonneg (x : spec_float) : nonneg x -> 0 <= mag x.
Proof.
  destruct x as [s|s| |[|] m e]; cbn [nonneg mag]; try lia.
  intros H. apply bounded_facts in H. pose proof (scaled_pos m e ltac:(unfold K; lia)). lia.
Qed.

(** Rounding a value below / above a representable bound. *)
Lemma round_aux_le (sx : bool) (N D mx ex : Z) (lx : location) (mb : positive) (eb : Z) :
  0 < D -> 0 <= N ->
  located N D (shr_record_of_loc mx lx) ->
  ex <= fexp 53 1024 (Zdigits2 mx + ex) ->
  - K <= ex ->
  bounded 53 1024 mb eb = true ->
  N * 2 ^ (ex + K) <= scaled (Zpos mb) eb * D ->
  match binary_round_aux 53 1024 sx mx ex lx with
  | S754_zero s => s = sx
  | S754_finite s m e =>
      s = sx /\ bounded 53 1024 m e = true /\ scaled (Zpos m) e <= scaled (Zpos mb) eb
  | _ => False
  end.
Proof.
  intros HD HN Hloc Hex HK Hb Hle.
  destruct (round_aux_shape sx N D mx ex lx HD HN Hloc Hex)
    as (m1 & Hch & Ht & Hq & Hn & ->).
  set (t := fexp 53 1024 (Zdigits2 mx + ex)) in *.
  set (D' := D * 2 ^ (t - ex)) in *.
  apply bounded_facts in Hb. destruct Hb as (Heb & Hmb & Hnb).
  pose proof (pow2_pos (t - ex) ltac:(lia)) as Hp.
  assert (HD' : 0 < D') by (unfold D'; nia).
  assert (Hle' : N * 2 ^ (t + K) <= Zpos mb * 2 ^ (eb + K) * D').
  { unfold D'. replace (t + K) with ((ex + K) + (t - ex)) by lia.
    rewrite (pow2_split (ex + K) (t - ex)) by lia. unfold scaled in Hle. nia. }
  pose proof (grid_le N D' (N / D') m1 t (Zpos mb) eb HD' eq_refl Hch Ht Hn
                ltac:(lia) ltac:(lia) Hle') as Hg.
  destruct (finish_cases sx (N / D') m1 t ltac:(lia) Ht Hq Hn)
    as [[_ ->]|[(Hpos & m & e & -> & Hbd & Hsc)|(Hpos & -> & Hof)]].
  - reflexivity.
  - split; [reflexivity|]. split; [exact Hbd|]. rewrite Hsc. exact Hg.
  - assert (Zpos mb * 2 ^ (eb + K) < 2 ^ (1024 + K)); [|lia].
    replace (1024 + K) with (53 + (971 + K)) by lia.
    rewrite (pow2_split 53 (971 + K)) by (unfold K; lia).
    pose proof (pow2_le (eb + K) (971 + K) ltac:(unfold K; lia)).
    pose proof (pow2_pos (eb + K) ltac:(unfold K; lia)). nia.
Qed.

Lemma round_aux_ge (sx : bool) (N D mx ex : Z) (lx : location) (mb : positive) (eb : Z) :
  0 < D -> 0 <= N ->
  located N D (shr_record_of_loc mx lx) ->
  ex <= fexp 53 1024 (Zdigits2 mx + ex) ->
  - K <= ex ->
  bounded 53 1024 mb eb = true ->
  scaled (Zpos mb) eb * D <= N * 2 ^ (ex + K) ->
  match binary_round_aux 53 1024 sx mx ex lx with
  | S754_infinity s => s = sx
  | S754_finite s m e =>
      s = sx /\ bounded 53 1024 m e = true /\ scaled (Zpos mb) eb <= scaled (Zpos m) e
  | _ => False
  end.
Proof.
  intros HD HN Hloc Hex HK Hb Hle.
  destruct (round_aux_shape sx N D mx ex lx HD HN Hloc Hex)
    as (m1 & Hch & Ht & Hq & Hn & ->).
  set (t := fexp 53 1024 (Zdigits2 mx + ex)) in *.
  set (D' := D * 2 ^ (t - ex)) in *.
  apply bounded_facts in Hb. destruct Hb as (Heb & Hmb & Hnb).
  pose proof (pow2_pos (t - ex) ltac:(lia)) as Hp.
  assert (HD' : 0 < D') by (unfold D'; nia).
  assert (Hle' : Zpos mb * 2 ^ (eb + K) * D' <= N * 2 ^ (t + K)).
  { unfold D'. replace (t + K) with ((ex + K) + (t - ex)) by lia.
    rewrite (pow2_split (ex + K) (t - ex)) by lia. unfold scaled in Hle. nia. }
  pose proof (grid_ge N D' (N / D') m1 t (Zpos mb) eb HD' HN eq_refl Hch Ht Hn
                ltac:(lia) ltac:(lia) Hle') as Hg.
  pose proof (pow2_pos (eb + K) ltac:(unfold K; lia)) as HQ.
  destruct (finish_cases sx (N / D') m1 t ltac:(lia) Ht Hq Hn)
    as [[Hz ->]|[(Hpos & m & e & -> & Hbd & Hsc)|(Hpos & -> & Hof)]].
  - subst m1. nia.
  - split; [reflexivity|]. split; [exact Hbd|]. rewrite Hsc. exact Hg.
  - reflexivity.
Qed.

Lemma round_aux_valid (sx : bool) (N D mx ex : Z) (lx : location) :
  0 < D -> 0 <= N ->
  located N D (shr_record_of_loc mx lx) ->
  ex <= fexp 53 1024 (Zdigits2 mx + ex) ->
  match binary_round_aux 53 1024 sx mx ex lx with
  | S754_zero s | S754_infinity s => s = sx
  | S754_finite s m e => s = sx /\ bounded 53 1024 m e = true
  | S754_nan => False
  end.
Proof.
  intros HD HN Hloc Hex.
  destruct (round_aux_shape sx N D mx ex lx HD HN Hloc Hex)
    as (m1 & Hch & Ht & Hq & Hn & ->).
  set (t := fexp 53 1024 (Zdigits2 mx + ex)) in *.
  set (D' := D * 2 ^ (t - ex)) in *.
  destruct (finish_cases sx (N / D') m1 t ltac:(lia) Ht Hq Hn)
    as [[_ ->]|[(Hpos & m & e & -> & Hbd & Hsc)|(Hpos & -> & Hof)]]; auto.
Qed.

(** ** Normalising an integer mantissa *)

Lemma iter_xO (m d : positive) : Zpos (Pos.iter xO m d) = Zpos m * 2 ^ Zpos d.
Proof.
  induction d as [|d IH] using Pos.peano_ind.
  - rewrite Z.pow_1_r. simpl Pos.iter. lia.
  - rewrite Pos.iter_succ, Pos2Z.inj_succ, Z.pow_succ_r by lia.
    change (Zpos (Pos.iter xO m d)~0) with (2 * Zpos (Pos.iter xO m d)).
    rewrite IH. ring.
Qed.

Lemma shl_align_spec (mx : positive) (ex ex' : Z) :
  snd (shl_align mx ex ex') = Z.min ex ex'
  /\ Zpos (fst (shl_align mx ex ex')) = Zpos mx * 2 ^ (ex - Z.min ex ex').
Proof.
  unfold shl_align. destruct (ex' - ex) as [|d|d] eqn:E; cbn [fst snd].
  - rewrite Z.min_l by lia. rewrite Z.sub_diag. simpl. lia.
  - rewrite Z.min_l by lia. rewrite Z.sub_diag. simpl. lia.
  - rewrite Z.min_r by lia. split; [reflexivity|].
    rewrite iter_xO. f_equal. f_equal. lia.
Qed.

Lemma Zdigits2_shift (m k : Z) :
  0 < m -> 0 <= k -> Zdigits2 (m * 2 ^ k) = Zdigits2 m + k.
Proof.
  intros Hm Hk.
  pose proof (Zdigits2_bounds m Hm) as [Hlo Hhi].
  pose proof (Zdigits2_pos m Hm) as Hd.
  pose proof (pow2_pos k Hk) as Hp.
  apply Zdigits2_unique; [lia|].
  replace (Zdigits2 m + k - 1) with ((Zdigits2 m - 1) + k) by lia.
  rewrite !pow2_split by lia. nia.
Qed.

Lemma located_exact (n : Z) : located n 1 (shr_record_of_loc n loc_Exact).
Proof.
  unfold located. cbn [shr_record_of_loc shr_m shr_r shr_s].
  rewrite Z.div_1_r, Z.mod_1_r. split; reflexivity.
Qed.

(** The aligned mantissa satisfies the side conditions of the rounding lemmas. *)
Lemma shl_align_ready (mx : positive) (ex : Z) :
  - K <= ex ->
  let mz := fst (shl_align mx ex (fexp 53 1024 (Zpos (digits2_pos mx) + ex))) in
  let ez := snd (shl_align mx ex (fexp 53 1024 (Zpos (digits2_pos mx) + ex))) in
  ez <= fexp 53 1024 (Zdigits2 (Zpos mz) + ez)
  /\ - K <= ez
  /\ Zpos mz * 2 ^ (ez + K) = scaled (Zpos mx) ex.
Proof.
  intros HK mz ez.
  destruct (shl_align_spec mx ex (fexp 53 1024 (Zpos (digits2_pos mx) + ex))) as [He Hm].
  fold ez in He. fold mz in Hm.
  set (ex' := fexp 53 1024 (Zpos (digits2_pos mx) + ex)) in *.
  assert (Hex' : -1074 <= ex') by (unfold ex'; rewrite fexp64_eq; lia).
  assert (Hd : Zdigits2 (Zpos mz) + ez = Zpos (digits2_pos mx) + ex).
  { rewrite Hm, Zdigits2_shift by lia. simpl Zdigits2. lia. }
  split; [rewrite Hd; fold ex'; lia|]. split; [unfold K in *; lia|].
  rewrite Hm. unfold scaled. unfold K in *.
  rewrite <- Z.mul_assoc, <- pow2_split by lia.
  f_equal. f_equal. lia.
Qed.

Lemma binary_round_le (sx : bool) (mx : positive) (ex : Z) (mb : positive) (eb : Z) :
  - K <= ex ->
  bounded 53 1024 mb eb = true ->
  scaled (Zpos mx) ex <= scaled (Zpos mb) eb ->
  match binary_round 53 1024 sx mx ex with
  | S754_zero s => s = sx
  | S754_finite s m e =>
      s = sx /\ bounded 53 1024 m e = true /\ scaled (Zpos m) e <= scaled (Zpos mb) eb
  | _ => False
  end.
Proof.
  intros HK Hb Hle. unfold binary_round.
  destruct (shl_align_ready mx ex HK) as (H1 & H2 & H3).
  destruct (shl_align mx ex _) as [mz ez]. cbn [fst snd] in *.
  apply round_aux_le with (N := Zpos mz) (D := 1); try lia; try assumption.
  apply located_exact.
Qed.

Lemma binary_round_ge (sx : bool) (mx : positive) (ex : Z) (mb : positive) (eb : Z) :
  - K <= ex ->
  bounded 53 1024 mb eb = true ->
  scaled (Zpos mb) eb <= scaled (Zpos mx) ex ->
  match binary_round 53 1024 sx mx ex with
  | S754_infinity s => s = sx
  | S754_finite s m e =>
      s = sx /\ bounded 53 1024 m e = true /\ scaled (Zpos mb) eb <= scaled (Zpos m) e
  | _ => False
  end.
Proof.
  intros HK Hb Hle. unfold binary_round.
  destruct (shl_align_ready mx ex HK) as (H1 & H2 & H3).
  destruct (shl_align mx ex _) as [mz ez]. cbn [fst snd] in *.
  apply round_aux_ge with (N := Zpos mz) (D := 1); try lia; try assumption.
  apply located_exact.
Qed.

Lemma binary_round_valid (sx : bool) (mx : positive) (ex : Z) :
  - K <= ex ->
  match binary_round 53 1024 sx mx ex with
  | S754_zero s | S754_infinity s => s = sx
  | S754_finite s m e => s = sx /\ bounded 53 1024 m e = true
  | S754_nan => False
  end.
Proof.
  intros HK. unfold binary_round.
  destruct (shl_align_ready mx ex HK) as (H1 & H2 & H3).
  destruct (shl_align mx ex _) as [mz ez]. cbn [fst snd] in *.
  apply round_aux_valid with (N := Zpos mz) (D := 1); try lia; try assumption.
  apply located_exact.
Qed.

(** ** Order *)

Lemma scaled_lt_exp (m1 m2 : positive) (e1 e2 : Z) :
  bounded 53 1024 m1 e1 = true -> bounded 53 1024 m2 e2 = true ->
  e1 < e2 -> scaled (Zpos m1) e1 < scaled (Zpos m2) e2.
Proof.
  intros H1 H2 He.
  apply bounded_facts in H1. apply bounded_facts in H2.
  destruct H1 as (He1 & Hm1 & _). destruct H2 as (He2 & _ & Hn2).
  unfold scaled.
  replace (e2 + K) with ((e1 + K) + (e2 - e1)) by lia.
  rewrite (pow2_split (e1 + K) (e2 - e1)) by (unfold K; lia).
  pose proof (pow2_pos (e1 + K) ltac:(unfold K; lia)).
  pose proof (pow2_le 1 (e2 - e1) ltac:(lia)) as Hp. rewrite Z.pow_1_r in Hp.
  change (2 ^ 53) with (2 ^ 52 * 2) in Hm1.
  destruct Hn2 as [Hn2|Hn2]; [|lia].
  set (X := 2 ^ (e1 + K)) in *. set (P := 2 ^ (e2 - e1)) in *.
  assert (Zpos m1 * X < 2 ^ 52 * 2 * X) by nia.
  assert (2 ^ 52 * 2 * X <= 2 ^ 52 * (X * P)) by nia.
  assert (2 ^ 52 * (X * P) <= Zpos m2 * (X * P)) by nia.
  lia.
Qed.

Lemma compare_nonneg (x y : spec_float) :
  nonneg x -> nonneg y -> SFcompare x y = Some (mag x ?= mag y).
Proof.
  destruct x as [sx|sx| |[|] mx ex], y as [sy|sy| |[|] my ey];
    cbn [nonneg mag]; try contradiction; intros Hx Hy.
  - reflexivity.
  - pose proof (bounded_facts _ _ Hy).
    pose proof (scaled_pos my ey ltac:(unfold K; lia)) as Hp.
    cbn [SFcompare]. symmetry. f_equal. apply Z.compare_lt_iff. exact Hp.
  - pose proof (bounded_facts _ _ Hx).
    pose proof (scaled_pos mx ex ltac:(unfold K; lia)) as Hp.
    cbn [SFcompare]. symmetry. f_equal. apply Z.compare_gt_iff. exact Hp.
  - cbn [SFcompare]. f_equal. symmetry.
    destruct (Z.compare_spec ex ey) as [E|E|E].
    + subst ey. rewrite Pos.compare_cont_spec. cbn [Pos.switch_Eq].
      assert (0 < 2 ^ (ex + K)).
      { pose proof (bounded_facts _ _ Hx). apply pow2_pos. unfold K. lia. }
      unfold scaled.
      destruct (Pos.compare_spec mx my) as [E|E|E].
      * subst my. apply Z.compare_refl.
      * apply Z.compare_lt_iff. apply Pos2Z.pos_lt_pos in E. nia.
      * apply Z.compare_gt_iff. apply Pos2Z.pos_lt_pos in E. nia.
    + apply Z.compare_lt_iff. now apply scaled_lt_exp.
    + apply Z.compare_gt_iff. now apply scaled_lt_exp.
Qed.

Lemma nonneg_unique (mx my : positive) (ex ey : Z) :
  bounded 53 1024 mx ex = true -> bounded 53 1024 my ey = true ->
  scaled (Zpos mx) ex = scaled (Zpos my) ey ->
  mx = my /\ ex = ey.
Proof.
  intros Hx Hy E.
  destruct (Z.lt_trichotomy ex ey) as [H|[H|H]].
  - pose proof (scaled_lt_exp _ _ _ _ Hx Hy H). lia.
  - subst ey. split; [|reflexivity].
    unfold scaled in E. apply bounded_facts in Hx.
    pose proof (pow2_pos (ex + K) ltac:(unfold K; lia)).
    apply Z.mul_cancel_r in E; [|lia]. now inversion E.
  - pose proof (scaled_lt_exp _ _ _ _ Hy Hx H). lia.
Qed.

(** ** Addition and division of non-negative doubles *)

Lemma nonneg_of_round (r : spec_float) (b : Z) :
  match r with
  | S754_zero s => s = false
  | S754_finite s m e => s = false /\ bounded 53 1024 m e = true /\ scaled (Zpos m) e <= b
  | _ => False
  end ->
  0 <= b -> nonneg r /\ mag r <= b.
Proof.
  destruct r as [s|s| |s m e]; cbn [nonneg mag]; try contradiction.
  - intros _ Hb. split; [exact I|exact Hb].
  - intros (-> & Hbd & Hle) _. split; assumption.
Qed.

Lemma add_le (x y b : spec_float) :
  nonneg x -> nonneg y -> nonneg b -> mag x + mag y <= mag b ->
  nonneg (SFadd 53 1024 x y) /\ mag (SFadd 53 1024 x y) <= mag b.
Proof.
  intros Hx Hy Hb Hle.
  pose proof (mag_nonneg b Hb) as Hb0.
  pose proof (mag_nonneg x Hx) as Hx0.
  pose proof (mag_nonneg y Hy) as Hy0.
  destruct x as [sx|sx| |[|] mx ex]; try contradiction;
    destruct y as [sy|sy| |[|] my ey]; try contradiction.
  - split; [|cbn [mag] in *; destruct sx, sy; cbn; lia].
    destruct sx, sy; exact I.
  - cbn [SFadd]. split; [exact Hy|cbn [mag] in *; lia].
  - cbn [SFadd]. split; [exact Hx|cbn [mag] in *; lia].
  - cbn [nonneg mag] in *.
    pose proof (bounded_facts _ _ Hx) as (Hex & _ & _).
    pose proof (bounded_facts _ _ Hy) as (Hey & _ & _).
    pose proof (scaled_pos mx ex ltac:(unfold K; lia)) as Hpx.
    pose proof (scaled_pos my ey ltac:(unfold K; lia)) as Hpy.
    destruct b as [sb|sb| |[|] mb eb]; cbn [nonneg mag] in *; try contradiction; try lia.
    unfold SFadd. cbn [cond_Zopp].
    destruct (shl_align_spec mx ex (Z.min ex ey)) as [_ Ha].
    destruct (shl_align_spec my ey (Z.min ex ey)) as [_ Hc].
    replace (Z.min ex (Z.min ex ey)) with (Z.min ex ey) in Ha by lia.
    replace (Z.min ey (Z.min ex ey)) with (Z.min ex ey) in Hc by lia.
    set (ez := Z.min ex ey) in *.
    set (a := fst (shl_align mx ex ez)) in *.
    set (c := fst (shl_align my ey ez)) in *.
    change (Zpos a + Zpos c) with (Zpos (a + c)). cbn [binary_normalize].
    apply nonneg_of_round; [|lia].
    apply binary_round_le; [unfold K, ez; lia|exact Hb|].
    unfold scaled in *. rewrite Pos2Z.inj_add, Ha, Hc.
    rewrite Z.mul_add_distr_r, <- !Z.mul_assoc, <- !pow2_split by (unfold K, ez; lia).
    replace (ex - ez + (ez + K)) with (ex + K) by lia.
    replace (ey - ez + (ez + K)) with (ey + K) by lia.
    exact Hle.
Qed.

Lemma new_location_located (N D : Z) :
  0 < D -> 0 <= N ->
  located N D (shr_record_of_loc (N / D) (new_location D (N mod D))).
Proof.
  intros HD HN.
  pose proof (Z.mod_pos_bound N D HD) as Hr.
  unfold new_location, new_location_even, new_location_odd.
  destruct (Z.even D) eqn:Ev; destruct (Z.eqb_spec (N mod D) 0) as [E|E].
  - split; [reflexivity|exact E].
  - destruct (Z.compare_spec (2 * (N mod D)) D) as [C|C|C];
      (split; [reflexivity|cbn [shr_record_of_loc shr_r shr_s]; lia]).
  - split; [reflexivity|exact E].
  - assert (Hodd : D mod 2 = 1) by (rewrite Zmod_even, Ev; reflexivity).
    pose proof (Z.div_mod D 2 ltac:(lia)) as Hdm. rewrite Hodd in Hdm.
    destruct (Z.compare_spec (2 * (N mod D) + 1) D) as [C|C|C];
      (split; [reflexivity|cbn [shr_record_of_loc shr_r shr_s]; lia]).
Qed.

Lemma Zdigits2_lower (z g : Z) : 0 <= g -> 2 ^ g <= z -> g + 1 <= Zdigits2 z.
Proof.
  intros Hg Hz.
  assert (Hpos : 0 < z) by (pose proof (pow2_pos g Hg); lia).
  pose proof (Zdigits2_bounds z Hpos) as [_ Hhi].
  pose proof (Zdigits2_pos z Hpos).
  destruct (Z_le_gt_dec (g + 1) (Zdigits2 z)) as [H'|H']; [exact H'|exfalso].
  pose proof (pow2_le (Zdigits2 z) g ltac:(lia)). lia.
Qed.

Lemma div_core_ready (mx my : positive) (ex ey : Z) :
  let core := SFdiv_core_binary 53 1024 (Zpos mx) ex (Zpos my) ey in
  let q := fst (fst core) in
  let e' := snd (fst core) in
  let l := snd core in
  let s := ex - ey - e' in
  0 <= s
  /\ Z.min (-1074) (ex - ey) <= e'
  /\ located (Zpos mx * 2 ^ s) (Zpos my) (shr_record_of_loc q l)
  /\ e' <= fexp 53 1024 (Zdigits2 q + e').
Proof.
  unfold SFdiv_core_binary.
  set (d1 := Zdigits2 (Zpos mx)). set (d2 := Zdigits2 (Zpos my)).
  set (e' := Z.min (fexp 53 1024 (d1 + ex - (d2 + ey))) (ex - ey)).
  set (s := ex - ey - e').
  assert (Hs : 0 <= s) by (unfold s, e'; lia).
  set (m' := match s with Zpos _ => Z.shiftl (Zpos mx) s | Z0 => Zpos mx | Zneg _ => 0 end).
  assert (Hm' : m' = Zpos mx * 2 ^ s).
  { unfold m'. destruct s as [|p|p] eqn:Es; try lia.
    apply Z.shiftl_mul_pow2. lia. }
  assert (Hqr : Z.div_eucl m' (Zpos my) = (m' / Zpos my, m' mod Zpos my)).
  { unfold Z.div, Z.modulo. now destruct (Z.div_eucl m' (Zpos my)). }
  rewrite Hqr. cbn [fst snd]. fold s. rewrite <- Hm'.
  pose proof (pow2_pos s Hs) as Hp.
  assert (Hm'0 : 0 <= m') by (rewrite Hm'; nia).
  split; [exact Hs|]. split.
  { unfold e'. rewrite fexp64_eq. lia. }
  split; [apply new_location_located; lia|].
  destruct (Z_le_gt_dec e' (-1074)) as [Hlow|Hhigh].
  - rewrite fexp64_eq. lia.
  - assert (Hf : e' <= d1 + ex - (d2 + ey) - 53).
    { unfold e' in *. rewrite fexp64_eq in *. lia. }
    pose proof (digits2_pos_bounds mx) as [Hlo1 _].
    pose proof (digits2_pos_bounds my) as [_ Hhi2].
    fold (Zdigits2 (Zpos mx)) in Hlo1. fold d1 in Hlo1.
    fold (Zdigits2 (Zpos my)) in Hhi2. fold d2 in Hhi2.
    assert (Hd1 : 0 < d1) by (unfold d1; simpl; lia).
    assert (Hd2 : 0 < d2) by (unfold d2; simpl; lia).
    set (g := d1 - 1 + s - d2).
    assert (Hg : 52 <= g) by (unfold g, s; lia).
    assert (Hq : 2 ^ g <= m' / Zpos my).
    { apply Z.div_le_lower_bound; [lia|].
      rewrite Hm'.
      assert (E : 2 ^ (d1 - 1) * 2 ^ s = 2 ^ d2 * 2 ^ g).
      { rewrite <- !pow2_split by lia. f_equal. unfold g. lia. }
      pose proof (pow2_pos g ltac:(lia)). nia. }
    pose proof (Zdigits2_lower _ g ltac:(lia) Hq).
    rewrite fexp64_eq. lia.
Qed.

Lemma div_scale (mx my mb : Z) (ex ey eb e' : Z) :
  - K <= ey -> - K <= ex - ey -> - K <= e' -> 0 <= ex - ey - e' -> - K <= ex ->
  (mx * 2 ^ (ex + K) * 2 ^ K <= mb * (my * 2 ^ (ey + K))
   <-> mx * 2 ^ (ex - ey - e') * 2 ^ (e' + K) <= mb * my).
Proof.
  intros H1 H2 H3 H4 H5.
  assert (E1 : 2 ^ (ex - ey - e') * 2 ^ (e' + K) = 2 ^ (ex - ey + K)).
  { rewrite <- pow2_split by lia. f_equal. lia. }
  assert (E2 : 2 ^ (ex + K) * 2 ^ K = 2 ^ (ex - ey + K) * 2 ^ (ey + K)).
  { rewrite <- !pow2_split by (unfold K in *; lia). f_equal. lia. }
  pose proof (pow2_pos (ey + K) ltac:(lia)) as Hp.
  rewrite <- !Z.mul_assoc, E1, E2.
  split; intros H; nia.
Qed.

Lemma round_aux_exact (sx : bool) (N D mx ex : Z) (lx : location) (mb : positive) (eb : Z) :
  0 < D -> 0 <= N ->
  located N D (shr_record_of_loc mx lx) ->
  ex <= fexp 53 1024 (Zdigits2 mx + ex) ->
  - K <= ex ->
  bounded 53 1024 mb eb = true ->
  N * 2 ^ (ex + K) = scaled (Zpos mb) eb * D ->
  binary_round_aux 53 1024 sx mx ex lx = S754_finite sx mb eb.
Proof.
  intros HD HN Hloc Hex HK Hb E.
  pose proof (round_aux_le sx N D mx ex lx mb eb HD HN Hloc Hex HK Hb ltac:(lia)) as Hle.
  pose proof (round_aux_ge sx N D mx ex lx mb eb HD HN Hloc Hex HK Hb ltac:(lia)) as Hge.
  destruct (binary_round_aux 53 1024 sx mx ex lx) as [s|s| |s m e]; try contradiction.
  destruct Hle as (-> & Hbd & H1). destruct Hge as (_ & _ & H2).
  destruct (nonneg_unique m mb e eb Hbd Hb ltac:(lia)) as [-> ->]. reflexivity.
Qed.

Lemma binary_round_exact (sx : bool) (mx : positive) (ex : Z) (mb : positive) (eb : Z) :
  - K <= ex ->
  bounded 53 1024 mb eb = true ->
  scaled (Zpos mx) ex = scaled (Zpos mb) eb ->
  binary_round 53 1024 sx mx ex = S754_finite sx mb eb.
Proof.
  intros HK Hb E. unfold binary_round.
  destruct (shl_align_ready mx ex HK) as (H1 & H2 & H3).
  destruct (shl_align mx ex _) as [mz ez]. cbn [fst snd] in *.
  apply round_aux_exact with (N := Zpos mz) (D := 1); try lia; try assumption.
  apply located_exact.
Qed.

(** The canonical form of a positive integer below 2^53. *)
Lemma canonical_integer (k : Z) :
  0 < k < 2 ^ 53 ->
  exists (mb : positive) (eb : Z),
    bounded 53 1024 mb eb = true /\ scaled (Zpos mb) eb = k * 2 ^ K.
Proof.
  intros Hk.
  pose proof (Zdigits2_bounds k ltac:(lia)) as [Hlo Hhi].
  pose proof (Zdigits2_pos k ltac:(lia)) as Hd.
  pose proof (Zdigits2_le53 k ltac:(lia)) as Hd53.
  set (d := Zdigits2 k) in *.
  pose proof (pow2_pos (53 - d) ltac:(lia)) as Hp.
  exists (Z.to_pos (k * 2 ^ (53 - d))), (d - 53).
  assert (Hm : Zpos (Z.to_pos (k * 2 ^ (53 - d))) = k * 2 ^ (53 - d))
    by (apply Z2Pos.id; nia).
  assert (E52 : 2 ^ (d - 1) * 2 ^ (53 - d) = 2 ^ 52)
    by (rewrite <- pow2_split by lia; f_equal; lia).
  assert (E53 : 2 ^ d * 2 ^ (53 - d) = 2 ^ 53)
    by (rewrite <- pow2_split by lia; f_equal; lia).
  split.
  - apply bounded_intro; rewrite ?Hm; [lia|nia|left; nia].
  - unfold scaled. rewrite Hm, <- Z.mul_assoc, <- pow2_split by (unfold K; lia).
    f_equal. f_equal. lia.
Qed.

Lemma normalize_integer (k : Z) :
  0 <= k < 2 ^ 53 ->
  nonneg (binary_normalize 53 1024 k 0 false)
  /\ mag (binary_normalize 53 1024 k 0 false) = k * 2 ^ K.
Proof.
  intros Hk. destruct k as [|p|p]; try lia.
  - cbn. split; [exact I|reflexivity].
  - destruct (canonical_integer (Zpos p) ltac:(lia)) as (mb & eb & Hb & E).
    cbn [binary_normalize].
    rewrite (binary_round_exact false p 0 mb eb); [|unfold K; lia|exact Hb|].
    + cbn [nonneg mag]. split; [exact Hb|exact E].
    + unfold scaled at 1. rewrite E. reflexivity.
Qed.

Lemma div_le (x y b : spec_float) :
  nonneg x -> nonneg y -> 0 < mag y -> nonneg b ->
  mag x * 2 ^ K <= mag b * mag y ->
  nonneg (SFdiv 53 1024 x y) /\ mag (SFdiv 53 1024 x y) <= mag b.
Proof.
  intros Hx Hy Hy0 Hb Hle.
  pose proof (mag_nonneg b Hb) as Hb0.
  destruct y as [sy|sy| |[|] my ey]; cbn [nonneg mag] in *; try contradiction; try lia.
  destruct x as [sx|sx| |[|] mx ex]; cbn [nonneg] in Hx; try contradiction.
  - cbn. split; [exact I|exact Hb0].
  - pose proof (bounded_facts _ _ Hx) as (Hex & _ & _).
    pose proof (bounded_facts _ _ Hy) as (Hey & _ & _).
    pose proof (scaled_pos mx ex ltac:(unfold K; lia)) as Hpx.
    pose proof (pow2_pos K ltac:(unfold K; lia)) as HpK.
    cbn [mag] in Hle.
    destruct b as [sb|sb| |[|] mb eb]; cbn [nonneg mag] in *; try contradiction; try nia.
    unfold SFdiv.
    pose proof (div_core_ready mx my ex ey) as H. cbv zeta in H.
    destruct (SFdiv_core_binary 53 1024 (Zpos mx) ex (Zpos my) ey) as [[q e'] l].
    cbn [fst snd] in H. destruct H as (Hs & He' & Hloc & Hready).
    cbn [xorb].
    apply nonneg_of_round; [|lia].
    apply round_aux_le with (N := Zpos mx * 2 ^ (ex - ey - e')) (D := Zpos my);
      try assumption; try lia.
    + unfold K; lia.
    + apply (div_scale (Zpos mx) (Zpos my) (scaled (Zpos mb) eb) ex ey eb e');
        try (unfold K; lia).
      unfold scaled in *. lia.
Qed.

Lemma div_scale_parts (mx ex ey e' : Z) :
  - K <= ey -> - K <= ex - ey -> - K <= e' -> 0 <= ex - ey - e' -> - K <= ex ->
  mx * 2 ^ (ex + K) * 2 ^ K = mx * 2 ^ (ex - ey - e') * 2 ^ (e' + K) * 2 ^ (ey + K).
Proof.
  intros H1 H2 H3 H4 H5.
  rewrite <- !Z.mul_assoc. f_equal.
  rewrite <- !pow2_split by (unfold K in *; lia). f_equal. lia.
Qed.

Lemma div_exact (x y b : spec_float) :
  nonneg x -> nonneg y -> 0 < mag y -> nonneg b -> 0 < mag b ->
  mag x * 2 ^ K = mag b * mag y ->
  SFdiv 53 1024 x y = b.
Proof.
  intros Hx Hy Hy0 Hb Hb0 E.
  destruct y as [sy|sy| |[|] my ey]; cbn [nonneg mag] in *; try contradiction; try lia.
  destruct b as [sb|sb| |[|] mb eb]; cbn [nonneg mag] in *; try contradiction; try lia.
  pose proof (pow2_pos K ltac:(unfold K; lia)) as HpK.
  destruct x as [sx|sx| |[|] mx ex]; cbn [nonneg mag] in *; try contradiction; try nia.
  pose proof (bounded_facts _ _ Hx) as (Hex & _ & _).
  pose proof (bounded_facts _ _ Hy) as (Hey & _ & _).
  unfold SFdiv.
  pose proof (div_core_ready mx my ex ey) as H. cbv zeta in H.
  destruct (SFdiv_core_binary 53 1024 (Zpos mx) ex (Zpos my) ey) as [[q e'] l].
  cbn [fst snd] in H. destruct H as (Hs & He' & Hloc & Hready).
  cbn [xorb].
  apply round_aux_exact with (N := Zpos mx * 2 ^ (ex - ey - e')) (D := Zpos my);
    try assumption; try lia.
  - unfold K; lia.
  - pose proof (div_scale_parts (Zpos mx) ex ey e' ltac:(unfold K; lia)
                  ltac:(unfold K; lia) ltac:(unfold K; lia) Hs ltac:(unfold K; lia))
      as Hsc.
    pose proof (pow2_pos (ey + K) ltac:(unfold K; lia)) as Hp.
    unfold scaled in E. unfold scaled at 1.
    apply (Z.mul_cancel_r _ _ (2 ^ (ey + K))); [lia|].
    rewrite <- Hsc, E. unfold scaled. ring.
Qed.

Lemma add_ge (x y b : spec_float) :
  nonneg x -> nonneg y -> nonneg b -> 0 < mag b -> mag b <= mag x + mag y ->
  nonneg (SFadd 53 1024 x y) -> mag b <= mag (SFadd 53 1024 x y).
Proof.
  intros Hx Hy Hb Hb0 Hle.
  destruct b as [sb|sb| |[|] mb eb]; cbn [nonneg mag] in Hb, Hb0; try contradiction; try lia.
  destruct x as [sx|sx| |[|] mx ex]; try contradiction;
    destruct y as [sy|sy| |[|] my ey]; try contradiction;
    cbn [nonneg mag] in *; try lia.
  - cbn [SFadd]. intros _. cbn [mag]. lia.
  - cbn [SFadd]. intros _. cbn [mag]. lia.
  - pose proof (bounded_facts _ _ Hx) as (Hex & _ & _).
    pose proof (bounded_facts _ _ Hy) as (Hey & _ & _).
    unfold SFadd. cbn [cond_Zopp].
    destruct (shl_align_spec mx ex (Z.min ex ey)) as [_ Ha].
    destruct (shl_align_spec my ey (Z.min ex ey)) as [_ Hc].
    replace (Z.min ex (Z.min ex ey)) with (Z.min ex ey) in Ha by lia.
    replace (Z.min ey (Z.min ex ey)) with (Z.min ex ey) in Hc by lia.
    set (ez := Z.min ex ey) in *.
    set (a := fst (shl_align mx ex ez)) in *.
    set (c := fst (shl_align my ey ez)) in *.
    change (Zpos a + Zpos c) with (Zpos (a + c)). cbn [binary_normalize].
    assert (Hge : scaled (Zpos mb) eb <= scaled (Zpos (a + c)) ez).
    { unfold scaled in *. rewrite Pos2Z.inj_add, Ha, Hc.
      rewrite Z.mul_add_distr_r, <- !Z.mul_assoc, <- !pow2_split by (unfold K, ez; lia).
      replace (ex - ez + (ez + K)) with (ex + K) by lia.
      replace (ey - ez + (ez + K)) with (ey + K) by lia.
      exact Hle. }
    pose proof (binary_round_ge false (a + c) ez mb eb ltac:(unfold K, ez; lia) Hb Hge) as H.
    destruct (binary_round 53 1024 false (a + c) ez) as [s|s| |s m e];
      cbn [nonneg mag]; try contradiction.
    destruct H as (-> & _ & H). intros _. exact H.
Qed.

Lemma div_ge (x y b : spec_float) :
  nonneg x -> nonneg y -> 0 < mag y -> nonneg b -> 0 < mag b ->
  mag b * mag y <= mag x * 2 ^ K ->
  nonneg (SFdiv 53 1024 x y) -> mag b <= mag (SFdiv 53 1024 x y).
Proof.
  intros Hx Hy Hy0 Hb Hb0 Hle.
  destruct y as [sy|sy| |[|] my ey]; cbn [nonneg mag] in *; try contradiction; try lia.
  destruct b as [sb|sb| |[|] mb eb]; cbn [nonneg mag] in *; try contradiction; try lia.
  pose proof (pow2_pos K ltac:(unfold K; lia)) as HpK.
  destruct x as [sx|sx| |[|] mx ex]; cbn [nonneg mag] in *; try contradiction; try nia.
  pose proof (bounded_facts _ _ Hx) as (Hex & _ & _).
  pose proof (bounded_facts _ _ Hy) as (Hey & _ & _).
  unfold SFdiv.
  pose proof (div_core_ready mx my ex ey) as H. cbv zeta in H.
  destruct (SFdiv_core_binary 53 1024 (Zpos mx) ex (Zpos my) ey) as [[q e'] l].
  cbn [fst snd] in H. destruct H as (Hs & He' & Hloc & Hready).
  cbn [xorb].
  assert (Hge : scaled (Zpos mb) eb * Zpos my <= Zpos mx * 2 ^ (ex - ey - e') * 2 ^ (e' + K)).
  { pose proof (div_scale_parts (Zpos mx) ex ey e' ltac:(unfold K; lia)
                  ltac:(unfold K; lia) ltac:(unfold K; lia) Hs ltac:(unfold K; lia))
      as Hsc.
    pose proof (pow2_pos (ey + K) ltac:(unfold K; lia)) as Hp.
    apply (Z.mul_le_mono_pos_r _ _ (2 ^ (ey + K))); [exact Hp|].
    rewrite <- Hsc. unfold scaled in Hle.
    replace (scaled (Zpos mb) eb * Zpos my * 2 ^ (ey + K))
      with (scaled (Zpos mb) eb * (Zpos my * 2 ^ (ey + K))) by ring.
    exact Hle. }
  pose proof (round_aux_ge false (Zpos mx * 2 ^ (ex - ey - e')) (Zpos my) q e' l mb eb
                ltac:(lia) ltac:(pose proof (pow2_pos (ex - ey - e') Hs); nia)
                Hloc Hready ltac:(unfold K; lia) Hb Hge) as H.
  destruct (binary_round_aux 53 1024 false q e' l) as [s|s| |s m e];
    cbn [nonneg mag]; try contradiction.
  destruct H as (-> & _ & H). intros _. exact H.
Qed.

(** The multiples [k * 2^e] with [k] of 52 to 54 bits are doubles. *)
Lemma representable (k e : Z) :
  2 ^ 51 <= k <= 2 ^ 53 -> -1073 <= e <= 970 ->
  exists b : spec_float, nonneg b /\ mag b = k * 2 ^ (e + K).
Proof.
  intros Hk He.
  assert (E1 : 2 ^ (e + K) = 2 * 2 ^ (e - 1 + K)).
  { replace (e + K) with (1 + (e - 1 + K)) by lia.
    rewrite pow2_split by (unfold K; lia). reflexivity. }
  assert (E2 : 2 ^ (e + 1 + K) = 2 * 2 ^ (e + K)).
  { replace (e + 1 + K) with (1 + (e + K)) by lia.
    rewrite pow2_split by (unfold K; lia). reflexivity. }
  destruct (Z_lt_le_dec k (2 ^ 52)) as [Hlow|Hmid];
    [|destruct (Z_lt_le_dec k (2 ^ 53)) as [Hin|Htop]].
  - exists (S754_finite false (Z.to_pos (2 * k)) (e - 1)).
    assert (Hm : Zpos (Z.to_pos (2 * k)) = 2 * k) by (apply Z2Pos.id; lia).
    cbn [nonneg mag]. split.
    + apply bounded_intro; rewrite ?Hm; lia.
    + unfold scaled. rewrite Hm, E1. ring.
  - exists (S754_finite false (Z.to_pos k) e).
    assert (Hm : Zpos (Z.to_pos k) = k) by (apply Z2Pos.id; lia).
    cbn [nonneg mag]. split.
    + apply bounded_intro; rewrite ?Hm; lia.
    + unfold scaled. now rewrite Hm.
  - exists (S754_finite false (Z.to_pos (2 ^ 52)) (e + 1)).
    assert (Hm : Zpos (Z.to_pos (2 ^ 52)) = 2 ^ 52) by (apply Z2Pos.id; lia).
    cbn [nonneg mag]. split.
    + apply bounded_intro; rewrite ?Hm; lia.
    + unfold scaled. rewrite Hm, E2.
      replace k with (2 * 2 ^ 52) by lia. ring.
Qed.

End RoundingFacts.

(** ** Doubles of the interval [0, 1] *)

Module UnitFacts.
Import JS JSOrder JSFacts Rounding RoundingFacts ColorCorrection GainFacts UnitDefs.

Lemma ofZ_mag (k : Z) :
  0 <= k < 2 ^ 53 -> nonneg (ofZ k) /\ mag (ofZ k) = k * 2 ^ K.
Proof. apply normalize_integer. Qed.

Lemma in_unit_bounds (x : number) :
  in_unit x = true -> nonneg x /\ mag x <= 2 ^ K.
Proof.
  unfold in_unit. rewrite !andb_true_iff. intros [[Hv H0] H1].
  destruct (ofZ_mag 1 ltac:(lia)) as [Hn1 Hm1]. rewrite Z.mul_1_l in Hm1.
  destruct x as [s|[|]| |[|] m e]; try discriminate.
  - split; [exact I|]. cbn [mag]. pose proof (pow2_pos K ltac:(unfold K; lia)). lia.
  - cbn [valid_binary] in Hv.
    split; [exact Hv|].
    unfold le, SFleb in H1.
    rewrite (compare_nonneg (S754_finite false m e) (ofZ 1) Hv Hn1) in H1.
    rewrite Hm1 in H1.
    destruct (Z.compare_spec (mag (S754_finite false m e)) (2 ^ K)); try discriminate; lia.
Qed.

Lemma bounds_in_unit (x : number) :
  nonneg x -> mag x <= 2 ^ K -> in_unit x = true.
Proof.
  intros Hn Hm.
  destruct (ofZ_mag 1 ltac:(lia)) as [Hn1 Hm1]. rewrite Z.mul_1_l in Hm1.
  destruct x as [s|s| |[|] m e]; try contradiction.
  - now destruct s.
  - cbn [nonneg] in Hn. unfold in_unit, prec, emax. cbn [valid_binary]. rewrite Hn.
    change (le (ofZ 0) (S754_finite false m e)) with true. cbn [andb].
    unfold le, SFleb.
    rewrite (compare_nonneg (S754_finite false m e) (ofZ 1) Hn Hn1), Hm1.
    destruct (Z.compare_spec (mag (S754_finite false m e)) (2 ^ K)); try reflexivity; lia.
Qed.

Lemma in_unit_finite (x : number) : in_unit x = true -> is_finite x = true.
Proof.
  unfold in_unit. rewrite !andb_true_iff. intros [[_ H0] H1].
  destruct x as [s|[|]| |s m e]; try reflexivity; discriminate.
Qed.

Lemma byte_fractions_in_unit :
  forallb (fun v => in_unit (div (ofZ v) (ofZ 255))) bytes255 = true.
Proof. vm_compute. reflexivity. Qed.

Lemma byte_fraction_in_unit (v : Z) : byte v -> in_unit (div (ofZ v) (ofZ 255)) = true.
Proof.
  intros Hv. pose proof byte_fractions_in_unit as H.
  rewrite forallb_forall in H. apply H, in_bytes255, Hv.
Qed.

Lemma add_below (k : Z) (s t : number) :
  0 <= k -> k + 1 < 2 ^ 53 ->
  below k s -> in_unit t = true -> below (k + 1) (add s t).
Proof.
  intros Hk Hk1 [Hs Hm] Ht.
  apply in_unit_bounds in Ht. destruct Ht as [Ht Hmt].
  destruct (ofZ_mag (k + 1) ltac:(lia)) as [Hb Hmb].
  unfold below. rewrite <- Hmb.
  apply add_le; try assumption. rewrite Hmb. lia.
Qed.

Section Sums.

Variable Math_pow : number -> number -> number.

Hypothesis pow_6 :
  forall x : number, in_unit x = true -> in_unit (Math_pow x (ofZ 6)) = true.

Lemma channelSums_below (d : list Z) :
  forall (k : Z) (sumR sumG sumB : number),
    Forall byte d ->
    0 <= k -> k + pixelsIn d < 2 ^ 53 ->
    below k sumR -> below k sumG -> below k sumB ->
    let '(sR, sG, sB) := channelSums Math_pow (ofZ 6) d (sumR, sumG, sumB) in
    below (k + pixelsIn d) sR /\ below (k + pixelsIn d) sG /\ below (k + pixelsIn d) sB.
Proof.
  unfold pixelsIn.
  induction d as [| ? | ? ? | ? ? ? | r g b a rest IH] using pixel_ind;
    intros k sumR sumG sumB Hd Hk Hn HR HG HB;
    try (cbn [channelSums pixelsOf length Z.of_nat]; rewrite Z.add_0_r;
         split; [exact HR|split; [exact HG|exact HB]]).
  cbn [channelSums pixelsOf length] in *.
  inversion_clear Hd as [|? ? Hr H1]. inversion_clear H1 as [|? ? Hg H2].
  inversion_clear H2 as [|? ? Hb H3]. inversion_clear H3 as [|? ? _ H4].
  rewrite Nat2Z.inj_succ in *.
  specialize (IH (k + 1)
                (add sumR (Math_pow (div (ofZ r) (ofZ 255)) (ofZ 6)))
                (add sumG (Math_pow (div (ofZ g) (ofZ 255)) (ofZ 6)))
                (add sumB (Math_pow (div (ofZ b) (ofZ 255)) (ofZ 6)))
                H4 ltac:(lia) ltac:(lia)).
  replace (k + Z.succ (Z.of_nat (length (pixelsOf rest))))
    with (k + 1 + Z.of_nat (length (pixelsOf rest))) by lia.
  apply IH; apply add_below; try assumption; try lia;
    apply pow_6, byte_fraction_in_unit; assumption.
Qed.

End Sums.

Lemma pixelsIn_length (d : list Z) (n : nat) :
  length d = (4 * n)%nat -> pixelsIn d = Z.of_nat n.
Proof.
  unfold pixelsIn. revert n.
  induction d as [| ? | ? ? | ? ? ? | r g b a rest IH] using pixel_ind;
    intros n H; cbn [length pixelsOf] in *; try lia.
  destruct n as [|n]; [discriminate|].
  rewrite Nat2Z.inj_succ, (IH n) by lia. lia.
Qed.

Lemma pixelCount_exact (d : list Z) (n : nat) :
  length d = (4 * n)%nat -> (0 < n)%nat -> Z.of_nat (length d) < 2 ^ 53 ->
  pixelCount d = ofZ (Z.of_nat n).
Proof.
  intros Hl Hn Hb. unfold pixelCount.
  assert (E : Z.of_nat (length d) = 4 * Z.of_nat n) by lia.
  destruct (ofZ_mag (Z.of_nat (length d)) ltac:(lia)) as [Hx Hmx].
  destruct (ofZ_mag 4 ltac:(lia)) as [Hy Hmy].
  destruct (ofZ_mag (Z.of_nat n) ltac:(lia)) as [Hq Hmq].
  pose proof (pow2_pos K ltac:(unfold K; lia)) as HpK.
  apply div_exact; try assumption; rewrite ?Hmx, ?Hmy, ?Hmq; try nia.
Qed.

Lemma mean_in_unit (s : number) (n : Z) :
  0 < n < 2 ^ 53 -> below n s -> in_unit (div s (ofZ n)) = true.
Proof.
  intros Hn [Hs Hm].
  destruct (ofZ_mag n ltac:(lia)) as [Hy Hmy].
  destruct (ofZ_mag 1 ltac:(lia)) as [H1 Hm1].
  pose proof (pow2_pos K ltac:(unfold K; lia)) as HpK.
  assert (Hle : mag s * 2 ^ K <= mag (ofZ 1) * mag (ofZ n)).
  { rewrite Hmy, Hm1, Z.mul_1_l, (Z.mul_comm (2 ^ K)).
    apply Z.mul_le_mono_nonneg_r; lia. }
  assert (Hpos : 0 < mag (ofZ n)) by (rewrite Hmy; apply Z.mul_pos_pos; lia).
  destruct (div_le s (ofZ n) (ofZ 1) Hs Hy Hpos H1 Hle)
    as [Hd Hmd].
  apply bounds_in_unit; [exact Hd|]. rewrite Hm1, Z.mul_1_l in Hmd. exact Hmd.
Qed.

Lemma below_zero : below 0 (ofZ 0).
Proof. split; [exact I|]. cbn. lia. Qed.

(** A double of [0, 1] above 0.01 is normal. *)
Lemma unit_above_guard (a : number) :
  in_unit a = true -> gt a (dec 1 100) = true ->
  exists (m : positive) (e : Z),
    a = S754_finite false m e
    /\ bounded 53 1024 m e = true
    /\ 2 ^ 52 <= Zpos m < 2 ^ 53
    /\ -59 <= e <= -52.
Proof.
  intros Hu Hg.
  destruct (in_unit_bounds a Hu) as [Hn Hm].
  assert (Hc : dec 1 100 = S754_finite false 5764607523034235 (-59))
    by (vm_compute; reflexivity).
  assert (Hcb : bounded 53 1024 5764607523034235 (-59) = true)
    by (vm_compute; reflexivity).
  assert (H1b : bounded 53 1024 4503599627370496 (-52) = true)
    by (vm_compute; reflexivity).
  assert (H1m : scaled 4503599627370496 (-52) = 2 ^ K).
  { unfold scaled. change 4503599627370496 with (2 ^ 52).
    rewrite <- pow2_split by (unfold K; lia). f_equal. }
  unfold gt, SFltb in Hg. rewrite Hc in Hg.
  rewrite (compare_nonneg (S754_finite false 5764607523034235 (-59)) a Hcb Hn) in Hg.
  destruct (Z.compare_spec (mag (S754_finite false 5764607523034235 (-59))) (mag a))
    as [|Hlt|]; try discriminate.
  destruct a as [s|s| |[|] m e]; cbn [nonneg mag] in *; try contradiction.
  - pose proof (scaled_pos 5764607523034235 (-59) ltac:(unfold K; lia)). lia.
  - exists m, e. split; [reflexivity|]. split; [exact Hn|].
    pose proof (bounded_facts _ _ Hn) as (He & Hhi & Hnorm).
    assert (Hlo : -59 <= e).
    { destruct (Z_lt_le_dec e (-59)) as [Hbad|]; [|assumption].
      pose proof (scaled_lt_exp m 5764607523034235 e (-59) Hn Hcb Hbad). lia. }
    assert (Hup : e <= -52).
    { destruct (Z_lt_le_dec (-52) e) as [Hbad|]; [|assumption].
      pose proof (scaled_lt_exp 4503599627370496 m (-52) e H1b Hn Hbad). lia. }
    lia.
Qed.

End UnitFacts.

(** ** ColorCorrector: the illuminant estimate and the range of the gains *)

Module IlluminantFacts.
Import JS JSOrder JSFacts Rounding RoundingFacts ColorCorrection GainFacts UnitDefs UnitFacts.

Lemma in_unit_le (x : number) :
  in_unit x = true -> le (ofZ 0) x = true /\ le x (ofZ 1) = true.
Proof. unfold in_unit. rewrite !andb_true_iff. tauto. Qed.

Lemma pow_unit_in_unit (x y : number) :
  in_unit x = true -> in_unit (pow_unit x y) = true.
Proof.
  intros H. unfold pow_unit. rewrite H.
  destruct (in_unit (PowRef.pow_ref x y)) eqn:E; [exact E|reflexivity].
Qed.

Section WithPow.

Variable Math_pow : number -> number -> number.

Lemma channelSums_fold (p : number) (d : list Z) :
  forall sumR sumG sumB : number,
    channelSums Math_pow p d (sumR, sumG, sumB)
    = (fold_left (fun sum '(r, _, _, _) => add sum (Math_pow (div (ofZ r) (ofZ 255)) p))
         (pixelsOf d) sumR,
       fold_left (fun sum '(_, g, _, _) => add sum (Math_pow (div (ofZ g) (ofZ 255)) p))
         (pixelsOf d) sumG,
       fold_left (fun sum '(_, _, b, _) => add sum (Math_pow (div (ofZ b) (ofZ 255)) p))
         (pixelsOf d) sumB).
Proof.
  induction d as [| ? | ? ? | ? ? ? | r g b a rest IH] using pixel_ind;
    intros sumR sumG sumB; try reflexivity.
  cbn [channelSums pixelsOf fold_left]. apply IH.
Qed.

End WithPow.

(** C6.  On a bitmap of [n > 0] whole pixels, the illuminant estimate of
    [applyShadesOfGray] is, per channel, the Minkowski mean of exponent 6:
    each byte is divided by 255 and raised to the power 6, the powers are
    added up from 0 in pixel order, the sum is divided by the number of
    pixels [data.length / 4] (which is exactly [n]), and the power [1 / 6] of
    the quotient is taken.  Provided [Math.pow] sends the doubles of [0, 1]
    into [0, 1] for the exponents 6 and [1 / 6], each of the three estimates
    lies in [0, 1].  (The byte count is below [2^53], as every array length
    is.) *)
Theorem illuminant_is_the_minkowski_mean :
  forall (Math_pow : number -> number -> number) (d : list Z) (n : nat),
    let unit (x : number) :=
      valid_binary 53 1024 x && le (ofZ 0) x && le x (ofZ 1) in
    (forall x : number, unit x = true -> unit (Math_pow x (ofZ 6)) = true) ->
    (forall x : number,
        unit x = true -> unit (Math_pow x (div (ofZ 1) (ofZ 6))) = true) ->
    Forall (fun v => 0 <= v <= 255) d ->
    length d = (4 * n)%nat ->
    (0 < n)%nat ->
    Z.of_nat (length d) < 2 ^ 53 ->
    let power (v : Z) := Math_pow (div (ofZ v) (ofZ 255)) (ofZ 6) in
    let sumR :=
      fold_left (fun sum '(r, _, _, _) => add sum (power r)) (pixelsOf d) (ofZ 0) in
    let sumG :=
      fold_left (fun sum '(_, g, _, _) => add sum (power g)) (pixelsOf d) (ofZ 0) in
    let sumB :=
      fold_left (fun sum '(_, _, b, _) => add sum (power b)) (pixelsOf d) (ofZ 0) in
    let pixels := div (ofZ (Z.of_nat (length d))) (ofZ 4) in
    let root (sum : number) := Math_pow (div sum pixels) (div (ofZ 1) (ofZ 6)) in
    illuminant Math_pow d = (root sumR, root sumG, root sumB)
    /\ length (pixelsOf d) = n
    /\ pixels = ofZ (Z.of_nat n)
    /\ (le (ofZ 0) (root sumR) = true /\ le (root sumR) (ofZ 1) = true)
    /\ (le (ofZ 0) (root sumG) = true /\ le (root sumG) (ofZ 1) = true)
    /\ (le (ofZ 0) (root sumB) = true /\ le (root sumB) (ofZ 1) = true).
Proof.
  intros Math_pow d n unit H6 Hr Hd Hl Hn Hb power sumR sumG sumB pixels root.
  assert (Hi : illuminant Math_pow d = (root sumR, root sumG, root sumB)).
  { unfold illuminant. unfold SHADES_OF_GRAY_NORM.
    rewrite channelSums_fold. reflexivity. }
  assert (Hp : pixelsIn d = Z.of_nat n) by now apply pixelsIn_length.
  assert (Hc : pixels = ofZ (Z.of_nat n)) by now apply pixelCount_exact.
  pose proof (channelSums_below Math_pow H6 d 0 (ofZ 0) (ofZ 0) (ofZ 0) Hd
                ltac:(lia) ltac:(lia) below_zero below_zero below_zero) as Hs.
  rewrite channelSums_fold in Hs. rewrite Z.add_0_l, Hp in Hs.
  destruct Hs as (HR & HG & HB).
  split; [exact Hi|].
  split; [unfold pixelsIn in Hp; lia|].
  split; [exact Hc|].
  unfold root. rewrite Hc.
  repeat split; apply in_unit_le, Hr, mean_in_unit; try assumption; lia.
Qed.

Lemma illuminant_in_unit (Math_pow : number -> number -> number) (d : list Z) (n : nat) :
  (forall x : number, in_unit x = true -> in_unit (Math_pow x (ofZ 6)) = true) ->
  (forall x : number,
      in_unit x = true -> in_unit (Math_pow x (div (ofZ 1) (ofZ 6))) = true) ->
  Forall byte d -> length d = (4 * n)%nat -> (0 < n)%nat ->
  Z.of_nat (length d) < 2 ^ 53 ->
  in_unit (fst (fst (illuminant Math_pow d))) = true
  /\ in_unit (snd (fst (illuminant Math_pow d))) = true
  /\ in_unit (snd (illuminant Math_pow d)) = true.
Proof.
  intros H6 Hr Hd Hl Hn Hb.
  assert (Hp : pixelsIn d = Z.of_nat n) by now apply pixelsIn_length.
  assert (Hc : pixelCount d = ofZ (Z.of_nat n)) by now apply pixelCount_exact.
  pose proof (channelSums_below Math_pow H6 d 0 (ofZ 0) (ofZ 0) (ofZ 0) Hd
                ltac:(lia) ltac:(lia) below_zero below_zero below_zero) as Hs.
  unfold illuminant, SHADES_OF_GRAY_NORM. rewrite Hc.
  destruct (channelSums Math_pow (ofZ 6) d (ofZ 0, ofZ 0, ofZ 0)) as [[sR sG] sB].
  rewrite Z.add_0_l, Hp in Hs. destruct Hs as (HR & HG & HB).
  cbn [fst snd].
  repeat split; apply Hr, mean_in_unit; try assumption; lia.
Qed.

Lemma illuminant_empty (Math_pow : number -> number -> number) :
  Math_pow NaN (div (ofZ 1) (ofZ 6)) = NaN ->
  illuminant Math_pow [] = (NaN, NaN, NaN).
Proof.
  intros H. unfold illuminant, SHADES_OF_GRAY_NORM. cbn [channelSums].
  change (div (ofZ 0) (pixelCount [])) with NaN. now rewrite H.
Qed.

(** C2.  Whatever the bitmap, each of the three gains of [applyShadesOfGray]
    is [Math.max(0.6, Math.min(1.5, scale))] with [scale = grayTarget / avg]
    when [avg > 0.01] and [1] otherwise, and lies in the closed interval
    [0.6, 1.5].  This covers the empty bitmap ([n = 0], where the estimates
    are NaN and the guard answers 1), single-colour and near-black bitmaps.
    [Math.pow] is assumed to send the doubles of [0, 1] into [0, 1] for the
    exponents 6 and [1 / 6], and NaN to NaN for the exponent [1 / 6]. *)
Theorem every_gain_lies_between_the_two_limits :
  forall (Math_pow : number -> number -> number) (d : list Z) (n : nat),
    let unit (x : number) :=
      valid_binary 53 1024 x && le (ofZ 0) x && le x (ofZ 1) in
    (forall x : number, unit x = true -> unit (Math_pow x (ofZ 6)) = true) ->
    (forall x : number,
        unit x = true -> unit (Math_pow x (div (ofZ 1) (ofZ 6))) = true) ->
    Math_pow NaN (div (ofZ 1) (ofZ 6)) = NaN ->
    Forall (fun v => 0 <= v <= 255) d ->
    length d = (4 * n)%nat ->
    Z.of_nat (length d) < 2 ^ 53 ->
    let avg := illuminant Math_pow d in
    let grayTarget := div (add (add (fst (fst avg)) (snd (fst avg))) (snd avg)) (ofZ 3) in
    let gain (a : number) :=
      Math_max (dec 6 10)
        (Math_min (dec 15 10) (if gt a (dec 1 100) then div grayTarget a else ofZ 1)) in
    let ok (g : number) := le (dec 6 10) g && le g (dec 15 10) in
    gains Math_pow d = (gain (fst (fst avg)), gain (snd (fst avg)), gain (snd avg))
    /\ ok (gain (fst (fst avg))) = true
    /\ ok (gain (snd (fst avg))) = true
    /\ ok (gain (snd avg)) = true.
Proof.
  intros Math_pow d n unit H6 Hr Hnan Hd Hl Hb avg grayTarget gain ok.
  assert (Hg : gains Math_pow d
               = (gain (fst (fst avg)), gain (snd (fst avg)), gain (snd avg))).
  { unfold gains, gainsOf. subst gain grayTarget avg.
    destruct (illuminant Math_pow d) as [[aR aG] aB]. reflexivity. }
  split; [exact Hg|].
  destruct n as [|n].
  - destruct d; [|discriminate].
    subst gain grayTarget avg ok. cbv beta.
    rewrite (illuminant_empty Math_pow Hnan). cbn [fst snd].
    repeat split; vm_compute; reflexivity.
  - destruct (illuminant_in_unit Math_pow d (S n) H6 Hr Hd Hl ltac:(lia) Hb)
      as (HR & HG & HB).
    apply in_unit_finite in HR, HG, HB.
    pose proof (mean3_not_nan _ _ _ HR HG HB) as Hm.
    subst gain grayTarget avg ok. cbv beta.
    repeat split;
      apply (clampedScale_within (scaleOf _ _)), scaleOf_not_nan; assumption.
Qed.

Lemma every_gain_lies_between_the_two_limits_witness :
  let d := [200; 120; 90; 255; 30; 60; 250; 128] in
  let avg := illuminant pow_unit d in
  let grayTarget := div (add (add (fst (fst avg)) (snd (fst avg))) (snd avg)) (ofZ 3) in
  let gain (a : number) :=
    Math_max (dec 6 10)
      (Math_min (dec 15 10) (if gt a (dec 1 100) then div grayTarget a else ofZ 1)) in
  let ok (g : number) := le (dec 6 10) g && le g (dec 15 10) in
  gains pow_unit d = (gain (fst (fst avg)), gain (snd (fst avg)), gain (snd avg))
  /\ ok (gain (fst (fst avg))) = true
  /\ ok (gain (snd (fst avg))) = true
  /\ ok (gain (snd avg)) = true.
Proof.
  intros d.
  apply (every_gain_lies_between_the_two_limits pow_unit d 2).
  - intros x. apply pow_unit_in_unit.
  - intros x. apply pow_unit_in_unit.
  - reflexivity.
  - repeat constructor; lia.
  - reflexivity.
  - reflexivity.
Defined.

Lemma illuminant_is_the_minkowski_mean_witness :
  let d := [200; 120; 90; 255; 30; 60; 250; 128] in
  let power (v : Z) := pow_unit (div (ofZ v) (ofZ 255)) (ofZ 6) in
  let sumR :=
    fold_left (fun sum '(r, _, _, _) => add sum (power r)) (pixelsOf d) (ofZ 0) in
  let sumG :=
    fold_left (fun sum '(_, g, _, _) => add sum (power g)) (pixelsOf d) (ofZ 0) in
  let sumB :=
    fold_left (fun sum '(_, _, b, _) => add sum (power b)) (pixelsOf d) (ofZ 0) in
  let pixels := div (ofZ (Z.of_nat (length d))) (ofZ 4) in
  let root (sum : number) := pow_unit (div sum pixels) (div (ofZ 1) (ofZ 6)) in
  illuminant pow_unit d = (root sumR, root sumG, root sumB)
  /\ length (pixelsOf d) = 2%nat
  /\ pixels = ofZ (Z.of_nat 2)
  /\ (le (ofZ 0) (root sumR) = true /\ le (root sumR) (ofZ 1) = true)
  /\ (le (ofZ 0) (root sumG) = true /\ le (root sumG) (ofZ 1) = true)
  /\ (le (ofZ 0) (root sumB) = true /\ le (root sumB) (ofZ 1) = true).
Proof.
  intros d.
  apply (illuminant_is_the_minkowski_mean pow_unit d 2).
  - intros x. apply pow_unit_in_unit.
  - intros x. apply pow_unit_in_unit.
  - repeat constructor; lia.
  - reflexivity.
  - lia.
  - reflexivity.
Defined.

End IlluminantFacts.

(** ** ColorCorrector: gray bitmaps *)

Module GrayFacts.
Import JS JSOrder JSFacts Rounding RoundingFacts ColorCorrection GainFacts UnitDefs UnitFacts IlluminantFacts.

Lemma sameNumber_eq (x y : number) : sameNumber x y = true -> x = y.
Proof.
  destruct x as [s|s| |s m e], y as [s'|s'| |s' m' e']; try discriminate; cbn.
  - intros H. apply Bool.eqb_prop in H. now subst.
  - intros H. apply Bool.eqb_prop in H. now subst.
  - reflexivity.
  - rewrite !andb_true_iff. intros [[Hs Hm] He].
    apply Bool.eqb_prop in Hs. apply Pos.eqb_eq in Hm. apply Z.eqb_eq in He.
    now subst.
Qed.

(** [x / x] is exactly 1 for a finite nonzero [x]. *)
Lemma div_self (s : bool) (m : positive) (e : Z) :
  div (S754_finite s m e) (S754_finite s m e) = ofZ 1.
Proof.
  unfold div, SFdiv, SFdiv_core_binary.
  replace (Zdigits2 (Zpos m) + e - (Zdigits2 (Zpos m) + e)) with 0 by lia.
  replace (e - e) with 0 by lia.
  change (Z.min (fexp prec emax 0) 0) with (-53).
  change (0 - -53) with 53.
  cbv iota beta.
  assert (H : Z.div_eucl (Z.shiftl (Zpos m) 53) (Zpos m) = (2 ^ 53, 0)).
  { rewrite Z.shiftl_mul_pow2 by lia.
    pose proof (Z.div_mul (2 ^ 53) (Zpos m) ltac:(lia)) as Hd.
    pose proof (Z.mod_mul (2 ^ 53) (Zpos m) ltac:(lia)) as Hm.
    unfold Z.div in Hd. unfold Z.modulo in Hm.
    rewrite (Z.mul_comm (Zpos m)).
    destruct (Z.div_eucl (2 ^ 53 * Zpos m) (Zpos m)) as [q r].
    now subst. }
  rewrite H.
  replace (new_location (Zpos m) 0) with loc_Exact
    by (unfold new_location, new_location_even, new_location_odd;
        now destruct (Z.even (Zpos m))).
  destruct s; vm_compute; reflexivity.
Qed.

Lemma clampedScale_one : clampedScale (ofZ 1) = ofZ 1.
Proof. vm_compute. reflexivity. Qed.

Lemma gray_gain_guarded (a : number) :
  gt a (dec 1 100) = false -> clampedScale (scaleOf (mean3 a a a) a) = ofZ 1.
Proof. intros H. unfold scaleOf. rewrite H. apply clampedScale_one. Qed.

Lemma gray_gain_exact (a : number) :
  is_finite a = true -> mean3 a a a = a ->
  clampedScale (scaleOf (mean3 a a a) a) = ofZ 1.
Proof.
  intros Hf Hm. unfold scaleOf. rewrite Hm.
  destruct (gt a (dec 1 100)) eqn:Hg; [|apply clampedScale_one].
  destruct a as [s|s| |s m e]; try discriminate.
  rewrite div_self. apply clampedScale_one.
Qed.

(** On a normal double [a] of [0, 1], [((a + a + a) / 3) / a] is within two
    steps of 1. *)
Lemma gray_quotient_near_one (m : positive) (e : Z) :
  bounded 53 1024 m e = true -> 2 ^ 52 <= Zpos m < 2 ^ 53 -> -59 <= e <= -52 ->
  let a := S754_finite false m e in
  let g := SFdiv 53 1024
             (SFdiv 53 1024 (SFadd 53 1024 (SFadd 53 1024 a a) a)
                (binary_normalize 53 1024 3 0 false)) a in
  nonneg g
  /\ scaled 9007199254740990 (-53) <= mag g
  /\ mag g <= scaled 4503599627370497 (-52).
Proof.
  intros Hb HM He a g.
  set (M := Zpos m) in *.
  set (u := 2 ^ (e + K)).
  assert (Hu : 0 < u) by (apply pow2_pos; unfold K; lia).
  assert (Ha : nonneg a) by exact Hb.
  assert (Hma : mag a = M * u) by reflexivity.
  assert (U1 : 2 ^ (e + 1 + K) = 2 * u).
  { replace (e + 1 + K) with (1 + (e + K)) by lia.
    rewrite pow2_split by (unfold K; lia). reflexivity. }
  assert (U2 : 2 ^ (e + 2 + K) = 4 * u).
  { replace (e + 2 + K) with (2 + (e + K)) by lia.
    rewrite pow2_split by (unfold K; lia). reflexivity. }
  (* a + a *)
  destruct (representable M (e + 1) ltac:(lia) ltac:(lia)) as (b2 & Hb2 & Hmb2).
  rewrite U1 in Hmb2.
  destruct (add_le a a b2 Ha Ha Hb2 ltac:(lia)) as [Hs2 Hs2le].
  pose proof (add_ge a a b2 Ha Ha Hb2 ltac:(nia) ltac:(lia) Hs2) as Hs2ge.
  set (s2 := SFadd 53 1024 a a) in *.
  assert (Hms2 : mag s2 = 2 * M * u) by lia.
  (* (a + a) + a *)
  assert (Hkh : 3 * M <= 4 * ((3 * M + 3) / 4) <= 3 * M + 3).
  { pose proof (Z.div_mod (3 * M + 3) 4 ltac:(lia)).
    pose proof (Z.mod_pos_bound (3 * M + 3) 4 ltac:(lia)). lia. }
  assert (Hkl : 3 * M - 3 <= 4 * (3 * M / 4) <= 3 * M).
  { pose proof (Z.div_mod (3 * M) 4 ltac:(lia)).
    pose proof (Z.mod_pos_bound (3 * M) 4 ltac:(lia)). lia. }
  destruct (representable ((3 * M + 3) / 4) (e + 2) ltac:(lia) ltac:(lia))
    as (bh & Hbh & Hmbh).
  destruct (representable (3 * M / 4) (e + 2) ltac:(lia) ltac:(lia))
    as (bl & Hbl & Hmbl).
  rewrite U2 in Hmbh, Hmbl.
  destruct (add_le s2 a bh Hs2 Ha Hbh ltac:(nia)) as [Ht Htle].
  pose proof (add_ge s2 a bl Hs2 Ha Hbl ltac:(nia) ltac:(nia) Ht) as Htge.
  set (t := SFadd 53 1024 s2 a) in *.
  assert (Htb : (3 * M - 3) * u <= mag t <= (3 * M + 3) * u) by nia.
  (* / 3 *)
  destruct (normalize_integer 3 ltac:(lia)) as [H3 Hm3].
  set (three := binary_normalize 53 1024 3 0 false) in *.
  pose proof (pow2_pos K ltac:(unfold K; lia)) as HpK.
  destruct (representable (M + 1) e ltac:(lia) ltac:(lia)) as (bs & Hbs & Hmbs).
  destruct (representable (M - 1) e ltac:(lia) ltac:(lia)) as (bp & Hbp & Hmbp).
  fold u in Hmbs, Hmbp.
  assert (H3pos : 0 < mag three) by lia.
  destruct (div_le t three bs Ht H3 H3pos Hbs) as [Hq Hqle].
  { rewrite Hmbs, Hm3.
    replace ((M + 1) * u * (3 * 2 ^ K)) with ((3 * M + 3) * u * 2 ^ K) by ring.
    apply Z.mul_le_mono_nonneg_r; lia. }
  assert (Hqge : mag bp <= mag (SFdiv 53 1024 t three)).
  { apply div_ge; try assumption.
    - rewrite Hmbp. apply Z.mul_pos_pos; lia.
    - rewrite Hmbp, Hm3.
      replace ((M - 1) * u * (3 * 2 ^ K)) with ((3 * M - 3) * u * 2 ^ K) by ring.
      apply Z.mul_le_mono_nonneg_r; lia. }
  set (q := SFdiv 53 1024 t three) in *.
  rewrite Hmbs in Hqle. rewrite Hmbp in Hqge.
  (* / a *)
  set (P := 2 ^ (K - 53)).
  assert (HP : 0 < P) by (apply pow2_pos; unfold K; lia).
  assert (EK : 2 ^ K = 2 ^ 53 * P).
  { unfold P. rewrite <- pow2_split by (unfold K; lia). reflexivity. }
  assert (Ehi : scaled 4503599627370497 (-52) = 4503599627370497 * (2 * P)).
  { unfold scaled, P. reflexivity. }
  assert (Elo : scaled 9007199254740990 (-53) = 9007199254740990 * P).
  { unfold scaled, P. reflexivity. }
  assert (Hhi : nonneg (S754_finite false 4503599627370497 (-52)))
    by (vm_compute; reflexivity).
  assert (Hlo : nonneg (S754_finite false 9007199254740990 (-53)))
    by (vm_compute; reflexivity).
  assert (Hapos : 0 < mag a) by (rewrite Hma; apply Z.mul_pos_pos; lia).
  assert (HuP : 0 < u * P) by (apply Z.mul_pos_pos; lia).
  destruct (div_le q a (S754_finite false 4503599627370497 (-52)) Hq Ha Hapos Hhi)
    as [Hg Hgle].
  { cbn [mag]. rewrite Ehi, Hma, EK.
    apply Z.le_trans with ((M + 1) * u * (2 ^ 53 * P)).
    - apply Z.mul_le_mono_nonneg_r; lia.
    - replace ((M + 1) * u * (2 ^ 53 * P)) with ((M + 1) * 2 ^ 53 * (u * P)) by ring.
      replace (4503599627370497 * (2 * P) * (M * u))
        with (4503599627370497 * 2 * M * (u * P)) by ring.
      apply Z.mul_le_mono_nonneg_r; lia. }
  split; [exact Hg|].
  cbn [mag] in Hgle. split; [|exact Hgle].
  assert (Hlopos : 0 < mag (S754_finite false 9007199254740990 (-53))).
  { cbn [mag]. rewrite Elo. apply Z.mul_pos_pos; lia. }
  assert (Hineq : mag (S754_finite false 9007199254740990 (-53)) * mag a <= mag q * 2 ^ K).
  { cbn [mag]. rewrite Elo, Hma, EK.
    apply Z.le_trans with ((M - 1) * u * (2 ^ 53 * P)).
    - replace ((M - 1) * u * (2 ^ 53 * P)) with ((M - 1) * 2 ^ 53 * (u * P)) by ring.
      replace (9007199254740990 * P * (M * u))
        with (9007199254740990 * M * (u * P)) by ring.
      apply Z.mul_le_mono_nonneg_r; lia.
    - apply Z.mul_le_mono_nonneg_r; lia. }
  exact (div_ge q a (S754_finite false 9007199254740990 (-53))
           Hq Ha Hapos Hlo Hlopos Hineq Hg).
Qed.

(** The doubles from [1 - 2^-52] to [1 + 2^-52]. *)
Lemma near_one_cases (g : spec_float) :
  nonneg g ->
  scaled 9007199254740990 (-53) <= mag g ->
  mag g <= scaled 4503599627370497 (-52) ->
  g = S754_finite false 9007199254740990 (-53)
  \/ g = S754_finite false 9007199254740991 (-53)
  \/ g = S754_finite false 4503599627370496 (-52)
  \/ g = S754_finite false 4503599627370497 (-52).
Proof.
  intros Hg Hlo Hhi.
  assert (Hlb : bounded 53 1024 9007199254740990 (-53) = true) by (vm_compute; reflexivity).
  assert (Hhb : bounded 53 1024 4503599627370497 (-52) = true) by (vm_compute; reflexivity).
  pose proof (scaled_pos 9007199254740990 (-53) ltac:(unfold K; lia)) as Hpos.
  destruct g as [s|s| |[|] m e]; cbn [nonneg mag] in *; try contradiction; try lia.
  pose proof (bounded_facts _ _ Hg) as (He & Hm & Hnorm).
  assert (E1 : -53 <= e).
  { destruct (Z_lt_le_dec e (-53)) as [Hbad|]; [|assumption].
    pose proof (scaled_lt_exp m 9007199254740990 e (-53) Hg Hlb Hbad). lia. }
  assert (E2 : e <= -52).
  { destruct (Z_lt_le_dec (-52) e) as [Hbad|]; [|assumption].
    pose proof (scaled_lt_exp 4503599627370497 m (-52) e Hhb Hg Hbad). lia. }
  set (P := 2 ^ (K - 53)).
  assert (HP : 0 < P) by (apply pow2_pos; unfold K; lia).
  assert (Q53 : 2 ^ (-53 + K) = P) by (unfold P; f_equal; lia).
  assert (Q52 : 2 ^ (-52 + K) = 2 * P).
  { unfold P. replace (-52 + K) with (1 + (K - 53)) by lia.
    rewrite pow2_split by (unfold K; lia). reflexivity. }
  unfold scaled in Hlo, Hhi. rewrite Q53 in Hlo. rewrite Q52 in Hhi.
  assert (Hcases : e = -53 \/ e = -52) by lia.
  destruct Hcases as [-> | ->].
  - rewrite Q53 in Hlo, Hhi.
    assert (Hz : Zpos m = 9007199254740990 \/ Zpos m = 9007199254740991) by nia.
    destruct Hz as [Hz|Hz]; injection Hz as ->; auto.
  - rewrite Q52 in Hlo, Hhi.
    assert (Hz : Zpos m = 4503599627370496 \/ Zpos m = 4503599627370497) by nia.
    destruct Hz as [Hz|Hz]; injection Hz as ->; auto.
Qed.

Lemma near_one_gains_fix_bytes :
  forallb (fun g =>
    sameNumber (clampedScale g) g
    && forallb (fun w => correctedChannel w g =? w) bytes255)
    [S754_finite false 9007199254740990 (-53);
     S754_finite false 9007199254740991 (-53);
     S754_finite false 4503599627370496 (-52);
     S754_finite false 4503599627370497 (-52)] = true.
Proof. vm_compute. reflexivity. Qed.

Lemma correctPixels_fixed (gain : number) (d : list Z) :
  (forall w : Z, byte w -> correctedChannel w gain = w) ->
  Forall byte d -> correctPixels gain gain gain d = d.
Proof.
  intros Hfix.
  induction d as [| ? | ? ? | ? ? ? | r g b a rest IH] using pixel_ind;
    intros Hd; try reflexivity.
  inversion_clear Hd as [|? ? Hr H1]. inversion_clear H1 as [|? ? Hg H2].
  inversion_clear H2 as [|? ? Hb H3]. inversion_clear H3 as [|? ? _ H4].
  cbn [correctPixels]. rewrite !Hfix, IH by assumption. reflexivity.
Qed.

(** The gain of a gray bitmap, for an estimate in [0, 1]. *)
Lemma gray_gain_near_one (a : number) :
  in_unit a = true ->
  let g := clampedScale (scaleOf (mean3 a a a) a) in
  In g [S754_finite false 9007199254740990 (-53);
        S754_finite false 9007199254740991 (-53);
        S754_finite false 4503599627370496 (-52);
        S754_finite false 4503599627370497 (-52)]
  /\ forall w : Z, byte w -> correctedChannel w g = w.
Proof.
  intros Hu g.
  pose proof near_one_gains_fix_bytes as Hall. rewrite forallb_forall in Hall.
  assert (Hin : exists g0, In g0 [S754_finite false 9007199254740990 (-53);
        S754_finite false 9007199254740991 (-53);
        S754_finite false 4503599627370496 (-52);
        S754_finite false 4503599627370497 (-52)] /\ scaleOf (mean3 a a a) a = g0).
  { unfold scaleOf. destruct (gt a (dec 1 100)) eqn:Hgt.
    - destruct (unit_above_guard a Hu Hgt) as (m & e & -> & Hb & Hm & He).
      destruct (gray_quotient_near_one m e Hb Hm He) as (Hn & Hlo & Hhi).
      pose proof (near_one_cases _ Hn Hlo Hhi) as Hc.
      eexists. split; [|reflexivity].
      change (div (mean3 (S754_finite false m e) (S754_finite false m e)
                     (S754_finite false m e)) (S754_finite false m e))
        with (SFdiv 53 1024
               (SFdiv 53 1024
                  (SFadd 53 1024
                     (SFadd 53 1024 (S754_finite false m e) (S754_finite false m e))
                     (S754_finite false m e)) (binary_normalize 53 1024 3 0 false))
               (S754_finite false m e)).
      cbn [In]. destruct Hc as [Hc|[Hc|[Hc|Hc]]]; rewrite Hc; auto.
    - exists (ofZ 1). split; [|reflexivity]. right. right. left. reflexivity. }
  destruct Hin as (g0 & Hin & Hs).
  specialize (Hall g0 Hin). apply andb_true_iff in Hall. destruct Hall as [Hc Hw].
  apply sameNumber_eq in Hc.
  assert (Hg : g = g0) by (unfold g; rewrite Hs; exact Hc).
  rewrite Hg. split; [exact Hin|].
  intros w Hwb. rewrite forallb_forall in Hw.
  apply Z.eqb_eq, Hw, in_bytes255, Hwb.
Qed.

(** C3, amended.  On a bitmap of [n > 0] whole pixels in which every pixel
    has R = G = B, the three estimates are one number [a] and the three gains
    are one number: the clamped [((a + a + a) / 3) / a] when [a > 0.01], and
    1 otherwise.  The gain is exactly 1 when [a > 0.01] fails and when the
    rounded mean [(a + a + a) / 3] is [a] again; in every case it lies
    between [1 - 2^-52] and [1 + 2^-52], and [applyShadesOfGray] leaves the
    data as they are.  [Math.pow] is assumed to send the doubles of [0, 1]
    into [0, 1] for the exponents 6 and [1 / 6]. *)
Theorem gray_bitmap_is_left_as_it_is :
  forall (Math_pow : number -> number -> number) (imageData : ImageData) (n : nat),
    let d := data imageData in
    let unit (x : number) :=
      valid_binary 53 1024 x && le (ofZ 0) x && le x (ofZ 1) in
    (forall x : number, unit x = true -> unit (Math_pow x (ofZ 6)) = true) ->
    (forall x : number,
        unit x = true -> unit (Math_pow x (div (ofZ 1) (ofZ 6))) = true) ->
    Forall (fun v => 0 <= v <= 255) d ->
    length d = (4 * n)%nat ->
    (0 < n)%nat ->
    Z.of_nat (length d) < 2 ^ 53 ->
    Forall (fun '(r, g, b, _) => r = g /\ g = b) (pixelsOf d) ->
    let grayTarget (a : number) := div (add (add a a) a) (ofZ 3) in
    let gainOf (a : number) :=
      Math_max (dec 6 10)
        (Math_min (dec 15 10)
           (if gt a (dec 1 100) then div (grayTarget a) a else ofZ 1)) in
    let step := div (ofZ 1) (ofZ (2 ^ 52)) in
    exists a : number,
      illuminant Math_pow d = (a, a, a)
      /\ gains Math_pow d = (gainOf a, gainOf a, gainOf a)
      /\ (gt a (dec 1 100) = false -> gainOf a = ofZ 1)
      /\ (grayTarget a = a -> gainOf a = ofZ 1)
      /\ le (sub (ofZ 1) step) (gainOf a) = true
      /\ le (gainOf a) (add (ofZ 1) step) = true
      /\ data (applyShadesOfGray Math_pow imageData) = d.
Proof.
  intros Math_pow [w h d0] n d unit H6 Hr Hd Hl Hn Hb Hgray grayTarget gainOf step.
  cbn [data] in d. subst d.
  destruct (channelSums_gray Math_pow SHADES_OF_GRAY_NORM d0 Hgray (ofZ 0)) as [s Hs].
  set (a := Math_pow (div s (pixelCount d0)) (div (ofZ 1) SHADES_OF_GRAY_NORM)).
  assert (Hi : illuminant Math_pow d0 = (a, a, a)).
  { unfold illuminant. rewrite Hs. reflexivity. }
  assert (Hgain : gains Math_pow d0 = (gainOf a, gainOf a, gainOf a)).
  { unfold gains. rewrite Hi. reflexivity. }
  assert (Hu : in_unit a = true).
  { destruct (illuminant_in_unit Math_pow d0 n H6 Hr Hd Hl Hn Hb) as (HR & _ & _).
    rewrite Hi in HR. exact HR. }
  destruct (gray_gain_near_one a Hu) as [Hin Hfix].
  change (clampedScale (scaleOf (mean3 a a a) a)) with (gainOf a) in Hin, Hfix.
  exists a.
  split; [exact Hi|]. split; [exact Hgain|]. split.
  { intros Hlow. change (gainOf a) with (clampedScale (scaleOf (mean3 a a a) a)).
    now apply gray_gain_guarded. }
  split.
  { intros Hm. change (gainOf a) with (clampedScale (scaleOf (mean3 a a a) a)).
    apply gray_gain_exact; [now apply in_unit_finite|exact Hm]. }
  split.
  { cbn [In] in Hin. destruct Hin as [E|[E|[E|[E|[]]]]]; rewrite <- E;
      vm_compute; reflexivity. }
  split.
  { cbn [In] in Hin. destruct Hin as [E|[E|[E|[E|[]]]]]; rewrite <- E;
      vm_compute; reflexivity. }
  unfold applyShadesOfGray. cbn [data]. rewrite Hgain. cbn [data].
  now apply correctPixels_fixed.
Qed.

Lemma gray_bitmap_is_left_as_it_is_witness :
  let imageData :=
    {| width := 2; height := 1; data := [210; 210; 210; 255; 90; 90; 90; 7] |} in
  let d := data imageData in
  let grayTarget (a : number) := div (add (add a a) a) (ofZ 3) in
  let gainOf (a : number) :=
    Math_max (dec 6 10)
      (Math_min (dec 15 10)
         (if gt a (dec 1 100) then div (grayTarget a) a else ofZ 1)) in
  let step := div (ofZ 1) (ofZ (2 ^ 52)) in
  exists a : number,
    illuminant pow_unit d = (a, a, a)
    /\ gains pow_unit d = (gainOf a, gainOf a, gainOf a)
    /\ (gt a (dec 1 100) = false -> gainOf a = ofZ 1)
    /\ (grayTarget a = a -> gainOf a = ofZ 1)
    /\ le (sub (ofZ 1) step) (gainOf a) = true
    /\ le (gainOf a) (add (ofZ 1) step) = true
    /\ data (applyShadesOfGray pow_unit imageData) = d.
Proof.
  intros imageData.
  apply (gray_bitmap_is_left_as_it_is pow_unit imageData 2).
  - intros x. apply pow_unit_in_unit.
  - intros x. apply pow_unit_in_unit.
  - repeat constructor; cbn; lia.
  - reflexivity.
  - lia.
  - reflexivity.
  - repeat constructor.
Defined.

(** C3, counterexample.  The bitmap of one pixel (210, 210, 210, 255) is gray
    and not empty.  With the reference [Math.pow] its three estimates are
    [a = 210 / 255]; [(a + a + a) / 3] rounds to a neighbour of [a], and the
    three gains are [1 + 2^-52 = 1.0000000000000002], not 1.  The same gains
    come out with any [Math.pow] that gives the estimates [210 / 255]. *)
Lemma one_gray_pixel_gets_a_gain_above_one :
  let d := [210; 210; 210; 255] in
  let a := div (ofZ 210) (ofZ 255) in
  let gain := S754_finite false 4503599627370497 (-52) in
  Forall (fun '(r, g, b, _) => r = g /\ g = b) (pixelsOf d)
  /\ pixelsOf d = [(210, 210, 210, 255)]
  /\ illuminant PowRef.pow_ref d = (a, a, a)
  /\ gt a (dec 1 100) = true
  /\ div (add (add a a) a) (ofZ 3) <> a
  /\ div (div (add (add a a) a) (ofZ 3)) a = gain
  /\ gains PowRef.pow_ref d = (gain, gain, gain)
  /\ gains PowRef.pow_ref d <> (ofZ 1, ofZ 1, ofZ 1)
  /\ lt (ofZ 1) gain = true
  /\ (forall Math_pow : number -> number -> number,
        illuminant Math_pow d = (a, a, a) ->
        gains Math_pow d = (gain, gain, gain)
        /\ gains Math_pow d <> (ofZ 1, ofZ 1, ofZ 1)).
Proof.
  intros d a gain.
  assert (Hg : gainsOf (a, a, a) = (gain, gain, gain)) by (vm_compute; reflexivity).
  assert (Hne : (gain, gain, gain) <> (ofZ 1, ofZ 1, ofZ 1)) by (vm_compute; discriminate).
  assert (Hi : illuminant PowRef.pow_ref d = (a, a, a)) by (vm_compute; reflexivity).
  split; [repeat constructor|].
  split; [reflexivity|].
  split; [exact Hi|].
  split; [vm_compute; reflexivity|].
  split; [vm_compute; discriminate|].
  split; [vm_compute; reflexivity|].
  split; [unfold gains; now rewrite Hi|].
  split; [unfold gains; now rewrite Hi, Hg|].
  split; [vm_compute; reflexivity|].
  intros Math_pow H. unfold gains. rewrite H, Hg. now split.
Qed.

End GrayFacts.
